(** * transparent-rpc: the RPC engine of [lib/rpc_socket.ts]

    A shallow embedding of the [RpcSocket] endpoint (its stub and proxy
    registries, the marshaller, the call dispatcher and the message router)
    and the proofs of the properties of the engine.  The file has five
    parts: the model of the code, the vocabulary in which the properties are
    stated, the lemmas, the properties of the engine, and further
    properties of the code.

    Modelling conventions.
    - A JavaScript object whose identity matters (application objects,
      proxies) lives on a heap and is named by a reference.  The heap
      records the three properties the engine reads or writes: [$rpcId],
      [$rpcMethods] and [$free]; the application sets them when it creates
      an object and the engine alone changes [$free] afterwards.  Arrays and
      the literal [{$rpcId: id}] the marshaller creates are values without
      identity.
    - Every method of the endpoint is a function in a state-and-exception
      monad over the endpoint record.  The record also carries the
      environment the endpoint acts on: the heap, the sequence of frames
      handed to [_socket.write], the invocations of promise resolvers, and
      the events re-emitted.  The promise created by [call] for a call id is
      named by that id.
    - [_handleCall] is asynchronous: it is modelled in two steps, up to the
      invocation of the stub's target, and from the completion of the target
      on.  What the target does is the application's part.
    - The counters [_callId] and [_stubCnt] are JavaScript numbers that are
      only ever incremented from 0; they are modelled as natural numbers,
      and so are the ids of call and reply frames.  The model is exact as
      long as a counter is below 2^53, where [++] is exact; the properties
      that rest on a counter advancing say so. *)

From stdpp Require Import gmap strings list fin_maps pretty.

Local Open Scope string_scope.

(** ** Values and objects *)

Abbreviation ObjectId := string (only parsing).

(** Identity of a heap object. *)
Abbreviation ref := nat (only parsing).

#[local] Unset Elimination Schemes.

Inductive value :=
  | VUndefined
  | VNull
  | VBool (b : bool)
  | VNum (n : Z)
  | VStr (s : string)
  | VArray (xs : list value)
  | VObj (r : ref)
  | VMarker (id : ObjectId).

(** The value of an object's [$free] property.  [FreeStub id prev] is the
    closure installed by [make$free]; [FreeProxy id] is
    [RpcProxy.prototype.$free]; [FreeNative] is a [$free] the application
    wrote, which does not touch the endpoint. *)
Inductive free_fn :=
  | FreeNative
  | FreeProxy (id : ObjectId)
  | FreeStub (id : ObjectId) (prev : option free_fn).

#[local] Set Elimination Schemes.

Record jsobj := {
  o_rpcId : option ObjectId;
  o_rpcMethods : option (list string);
  o_free : option free_fn;
}.

Inductive js_code :=
  | CodeStr (s : string)
  | CodeNum (n : Z).

(** An [Error] object: [e_stack = None] stands for the stack captured where
    the error was constructed. *)
Record js_error := {
  e_name : string;
  e_message : string;
  e_code : option js_code;
  e_stack : option string;
  e_objectId : option ObjectId;
}.

Definition TypeError (msg : string) : js_error :=
  {| e_name := "TypeError"; e_message := msg; e_code := None;
     e_stack := None; e_objectId := None |}.

Definition SyntaxError (msg : string) : js_error :=
  {| e_name := "SyntaxError"; e_message := msg; e_code := None;
     e_stack := None; e_objectId := None |}.

Definition Error (msg : string) : js_error :=
  {| e_name := "Error"; e_message := msg; e_code := None;
     e_stack := None; e_objectId := None |}.

Definition SocketClosedError : js_error :=
  {| e_name := "Error"; e_message := "Socket closed";
     e_code := Some (CodeStr "ERR_SOCKET_CLOSED");
     e_stack := None; e_objectId := None |}.

Definition InvalidObjectError (objId : ObjectId) (msg : string) : js_error :=
  {| e_name := "Error"; e_message := msg;
     e_code := Some (CodeStr "ENXIO");
     e_stack := None; e_objectId := Some objId |}.

(** ** Wire messages *)

(** The [id] field of a call or reply frame as the handlers test it. *)
Inductive msg_id :=
  | IdUndefined
  | IdNull
  | IdNum (n : nat).

Record CallMessage := {
  c_id : msg_id;
  c_obj : ObjectId;
  c_method : string;
  c_params : value;
}.

Record ReplyMessage := {
  r_id : msg_id;
  r_error : option string;
  r_message : option string;
  r_stack : option string;
  r_code : option js_code;
  r_reply : value;
}.

Record FreeMessage := { f_id : ObjectId }.

Record NewObjectMessage := {
  n_obj : ObjectId;
  n_methods : list string;
}.

Inductive AnyMessage :=
  | MCall (m : CallMessage)
  | MReply (m : ReplyMessage)
  | MFree (m : FreeMessage)
  | MNewObject (m : NewObjectMessage)
  | MOther (control : string).

(** ** The endpoint *)

Record RpcStub := {
  stub_rpcId : ObjectId;
  stub_object : ref;
  stub_methods : list string;
}.

Inductive settlement :=
  | Resolved (v : value)
  | Rejected (e : js_error).

(** The resolver parked for call [id] belongs to the promise [call] created
    for that id; it is named by the id. *)
Abbreviation PromiseResolver := nat (only parsing).

Inductive event :=
  | EvError (e : js_error)
  | EvEnd
  | EvClose (hadError : bool).

Record RpcSocket := {
  _knownStubs : gmap ref RpcStub;
  _knownStubIds : gmap ObjectId ref;
  _knownProxies : gmap ObjectId ref;
  _pendingCalls : gmap nat PromiseResolver;
  _inCall : bool;
  _newObjects : list NewObjectMessage;
  _callId : nat;
  _ended : bool;
  _stubCnt : nat;
  _socketId : string;
  (* environment *)
  heap : list jsobj;
  wire : list AnyMessage;
  settled : list (PromiseResolver * settlement);
  emitted : list event;
}.

Definition set_knownStubs (x : gmap ref RpcStub) (st : RpcSocket) : RpcSocket :=
  {| _knownStubs := x; _knownStubIds := _knownStubIds st;
     _knownProxies := _knownProxies st; _pendingCalls := _pendingCalls st;
     _inCall := _inCall st; _newObjects := _newObjects st;
     _callId := _callId st; _ended := _ended st; _stubCnt := _stubCnt st;
     _socketId := _socketId st; heap := heap st; wire := wire st;
     settled := settled st; emitted := emitted st |}.

Definition set_knownStubIds (x : gmap ObjectId ref) (st : RpcSocket) : RpcSocket :=
  {| _knownStubs := _knownStubs st; _knownStubIds := x;
     _knownProxies := _knownProxies st; _pendingCalls := _pendingCalls st;
     _inCall := _inCall st; _newObjects := _newObjects st;
     _callId := _callId st; _ended := _ended st; _stubCnt := _stubCnt st;
     _socketId := _socketId st; heap := heap st; wire := wire st;
     settled := settled st; emitted := emitted st |}.

Definition set_knownProxies (x : gmap ObjectId ref) (st : RpcSocket) : RpcSocket :=
  {| _knownStubs := _knownStubs st; _knownStubIds := _knownStubIds st;
     _knownProxies := x; _pendingCalls := _pendingCalls st;
     _inCall := _inCall st; _newObjects := _newObjects st;
     _callId := _callId st; _ended := _ended st; _stubCnt := _stubCnt st;
     _socketId := _socketId st; heap := heap st; wire := wire st;
     settled := settled st; emitted := emitted st |}.

Definition set_pendingCalls (x : gmap nat PromiseResolver) (st : RpcSocket) : RpcSocket :=
  {| _knownStubs := _knownStubs st; _knownStubIds := _knownStubIds st;
     _knownProxies := _knownProxies st; _pendingCalls := x;
     _inCall := _inCall st; _newObjects := _newObjects st;
     _callId := _callId st; _ended := _ended st; _stubCnt := _stubCnt st;
     _socketId := _socketId st; heap := heap st; wire := wire st;
     settled := settled st; emitted := emitted st |}.

Definition set_inCall (x : bool) (st : RpcSocket) : RpcSocket :=
  {| _knownStubs := _knownStubs st; _knownStubIds := _knownStubIds st;
     _knownProxies := _knownProxies st; _pendingCalls := _pendingCalls st;
     _inCall := x; _newObjects := _newObjects st;
     _callId := _callId st; _ended := _ended st; _stubCnt := _stubCnt st;
     _socketId := _socketId st; heap := heap st; wire := wire st;
     settled := settled st; emitted := emitted st |}.

Definition set_newObjects (x : list NewObjectMessage) (st : RpcSocket) : RpcSocket :=
  {| _knownStubs := _knownStubs st; _knownStubIds := _knownStubIds st;
     _knownProxies := _knownProxies st; _pendingCalls := _pendingCalls st;
     _inCall := _inCall st; _newObjects := x;
     _callId := _callId st; _ended := _ended st; _stubCnt := _stubCnt st;
     _socketId := _socketId st; heap := heap st; wire := wire st;
     settled := settled st; emitted := emitted st |}.

Definition set_callId (x : nat) (st : RpcSocket) : RpcSocket :=
  {| _knownStubs := _knownStubs st; _knownStubIds := _knownStubIds st;
     _knownProxies := _knownProxies st; _pendingCalls := _pendingCalls st;
     _inCall := _inCall st; _newObjects := _newObjects st;
     _callId := x; _ended := _ended st; _stubCnt := _stubCnt st;
     _socketId := _socketId st; heap := heap st; wire := wire st;
     settled := settled st; emitted := emitted st |}.

Definition set_ended (x : bool) (st : RpcSocket) : RpcSocket :=
  {| _knownStubs := _knownStubs st; _knownStubIds := _knownStubIds st;
     _knownProxies := _knownProxies st; _pendingCalls := _pendingCalls st;
     _inCall := _inCall st; _newObjects := _newObjects st;
     _callId := _callId st; _ended := x; _stubCnt := _stubCnt st;
     _socketId := _socketId st; heap := heap st; wire := wire st;
     settled := settled st; emitted := emitted st |}.

Definition set_stubCnt (x : nat) (st : RpcSocket) : RpcSocket :=
  {| _knownStubs := _knownStubs st; _knownStubIds := _knownStubIds st;
     _knownProxies := _knownProxies st; _pendingCalls := _pendingCalls st;
     _inCall := _inCall st; _newObjects := _newObjects st;
     _callId := _callId st; _ended := _ended st; _stubCnt := x;
     _socketId := _socketId st; heap := heap st; wire := wire st;
     settled := settled st; emitted := emitted st |}.

Definition set_heap (x : list jsobj) (st : RpcSocket) : RpcSocket :=
  {| _knownStubs := _knownStubs st; _knownStubIds := _knownStubIds st;
     _knownProxies := _knownProxies st; _pendingCalls := _pendingCalls st;
     _inCall := _inCall st; _newObjects := _newObjects st;
     _callId := _callId st; _ended := _ended st; _stubCnt := _stubCnt st;
     _socketId := _socketId st; heap := x; wire := wire st;
     settled := settled st; emitted := emitted st |}.

Definition set_wire (x : list AnyMessage) (st : RpcSocket) : RpcSocket :=
  {| _knownStubs := _knownStubs st; _knownStubIds := _knownStubIds st;
     _knownProxies := _knownProxies st; _pendingCalls := _pendingCalls st;
     _inCall := _inCall st; _newObjects := _newObjects st;
     _callId := _callId st; _ended := _ended st; _stubCnt := _stubCnt st;
     _socketId := _socketId st; heap := heap st; wire := x;
     settled := settled st; emitted := emitted st |}.

Definition set_settled (x : list (PromiseResolver * settlement)) (st : RpcSocket) : RpcSocket :=
  {| _knownStubs := _knownStubs st; _knownStubIds := _knownStubIds st;
     _knownProxies := _knownProxies st; _pendingCalls := _pendingCalls st;
     _inCall := _inCall st; _newObjects := _newObjects st;
     _callId := _callId st; _ended := _ended st; _stubCnt := _stubCnt st;
     _socketId := _socketId st; heap := heap st; wire := wire st;
     settled := x; emitted := emitted st |}.

Definition set_emitted (x : list event) (st : RpcSocket) : RpcSocket :=
  {| _knownStubs := _knownStubs st; _knownStubIds := _knownStubIds st;
     _knownProxies := _knownProxies st; _pendingCalls := _pendingCalls st;
     _inCall := _inCall st; _newObjects := _newObjects st;
     _callId := _callId st; _ended := _ended st; _stubCnt := _stubCnt st;
     _socketId := _socketId st; heap := heap st; wire := wire st;
     settled := settled st; emitted := x |}.

(** The constructor: [sid] is the string
    [`${os.hostname()}-${process.pid}:${socketId ++}:`] and [h] the heap the
    application has built so far. *)
Definition RpcSocket_new (sid : string) (h : list jsobj) : RpcSocket :=
  {| _knownStubs := ∅; _knownStubIds := ∅; _knownProxies := ∅;
     _pendingCalls := ∅; _inCall := false; _newObjects := [];
     _callId := 0; _ended := false; _stubCnt := 0; _socketId := sid;
     heap := h; wire := []; settled := []; emitted := [] |}.

(** ** The state-and-exception monad *)

Inductive outcome (A : Type) :=
  | Ret (a : A) (st : RpcSocket)
  | Throw (e : js_error) (st : RpcSocket).
Arguments Ret {A} a st.
Arguments Throw {A} e st.

Definition M (A : Type) : Type := RpcSocket → outcome A.

Definition ret {A} (a : A) : M A := λ st, Ret a st.

Definition throw {A} (e : js_error) : M A := λ st, Throw e st.

Definition bind {A B} (m : M A) (k : A → M B) : M B :=
  λ st, match m st with
        | Ret a st' => k a st'
        | Throw e st' => Throw e st'
        end.

Notation "x <- m ;; k" := (bind m (λ x, k))
  (at level 100, m at next level, right associativity,
   format "'[v' x  <-  m  ;;  '/' k ']'").
Notation "m ;;; k" := (bind m (λ _, k))
  (at level 100, right associativity).

Definition get_state : M RpcSocket := λ st, Ret st st.

Definition modify (f : RpcSocket → RpcSocket) : M unit := λ st, Ret () (f st).

Definition final_state {A} (o : outcome A) : RpcSocket :=
  match o with Ret _ st => st | Throw _ st => st end.

(** [Array.prototype.map] with an effectful callback, left to right. *)
Definition mapM {A B} (f : A → M B) : list A → M (list B) :=
  fix go (l : list A) : M (list B) :=
    match l with
    | [] => ret []
    | x :: l' => y <- f x ;; ys <- go l' ;; ret (y :: ys)
    end.

(** [this._socket.write(msg)] *)
Definition socket_write (msg : AnyMessage) : M unit :=
  modify (λ st, set_wire (wire st ++ [msg]) st).

Definition try_catch {A} (body : M A) (handler : js_error → M A) : M A :=
  λ st, match body st with
        | Ret a st' => Ret a st'
        | Throw e st' => handler e st'
        end.

(** [forEach] and [for ... of] with an effectful body. *)
Definition iterM {A} (f : A → M unit) : list A → M unit :=
  fix go (l : list A) : M unit :=
    match l with
    | [] => ret ()
    | x :: l' => f x ;;; go l'
    end.

(** ** Reading [$rpcId] and [$rpcMethods] *)

(** [(arg as any).$rpcId], [None] when it is [undefined]. *)
Definition rpcId_of (h : list jsobj) (arg : value) : option ObjectId :=
  match arg with
  | VObj r => h !! r ≫= o_rpcId
  | VMarker id => Some id
  | _ => None
  end.

(** [obj.$rpcMethods], [None] when it is falsy. *)
Definition rpcMethods_of (h : list jsobj) (obj : ref) : option (list string) :=
  h !! obj ≫= o_rpcMethods.

(** ** Stub registry *)

(** [make$free(obj, knownStubIds, id)]: the closure captures the endpoint's
    own id map. *)
Definition make_free (obj : ref) (id : ObjectId) : M unit :=
  modify (λ st,
    set_heap
      (alter (λ o,
         {| o_rpcId := o_rpcId o; o_rpcMethods := o_rpcMethods o;
            o_free := match o_free o with
                      | Some prev_free => Some (FreeStub id (Some prev_free))
                      | None => Some (FreeStub id None)
                      end |}) obj (heap st)) st).

Definition _sendMetadata (stub : RpcStub) : M unit :=
  st <- get_state ;;
  if _inCall st then
    let msg := {| n_obj := stub_rpcId stub; n_methods := stub_methods stub |} in
    modify (λ st, set_newObjects (_newObjects st ++ [msg]) st)
  else
    let msg := {| n_obj := stub_rpcId stub; n_methods := stub_methods stub |} in
    socket_write (MNewObject msg).

Definition addStub (obj : ref) : M ObjectId :=
  st <- get_state ;;
  match _knownStubs st !! obj with
  | Some stub =>
      (* the proxy was freed and subsequently resurrected, send the metadata
         again *)
      match _knownStubIds st !! stub_rpcId stub with
      | None =>
          modify (λ st, set_knownStubIds
                          (<[stub_rpcId stub := obj]> (_knownStubIds st)) st) ;;;
          _sendMetadata stub
      | Some _ => ret ()
      end ;;;
      ret (stub_rpcId stub)
  | None =>
      match rpcMethods_of (heap st) obj with
      | None => throw (TypeError "Invalid stub object")
      | Some methods =>
          let cnt := _stubCnt st in
          modify (λ st, set_stubCnt (S (_stubCnt st)) st) ;;;
          let rpcId := _socketId st +:+ pretty cnt in
          let stub := {| stub_rpcId := rpcId; stub_object := obj;
                         stub_methods := methods |} in
          make_free obj rpcId ;;;
          modify (λ st, set_knownStubs (<[obj := stub]> (_knownStubs st)) st) ;;;
          modify (λ st, set_knownStubIds (<[rpcId := obj]> (_knownStubIds st)) st) ;;;
          _sendMetadata stub ;;;
          ret (stub_rpcId stub)
      end
  end.

(** ** Marshaller *)

Fixpoint _marshalArgument (arg : value) : M value :=
  match arg with
  | VUndefined | VNull | VBool _ | VNum _ | VStr _ => ret arg
  | VArray xs => ys <- mapM _marshalArgument xs ;; ret (VArray ys)
  | VObj _ | VMarker _ =>
      st <- get_state ;;
      match rpcId_of (heap st) arg with
      | Some rpcId =>
          match _knownProxies st !! rpcId with
          | Some _ => ret (VMarker rpcId)
          | None =>
              throw (InvalidObjectError rpcId
                       ("Invalid object " +:+ rpcId +:+
                        ", likely a proxy from a different socket"))
          end
      | None =>
          match arg with
          | VObj obj =>
              match rpcMethods_of (heap st) obj with
              | Some _ => id <- addStub obj ;; ret (VMarker id)
              | None => ret arg
              end
          | _ => ret arg
          end
      end
  end.

Fixpoint _unmarshalArgument (arg : value) : M value :=
  match arg with
  | VUndefined | VNull | VBool _ | VNum _ | VStr _ => ret arg
  | VArray xs => ys <- mapM _unmarshalArgument xs ;; ret (VArray ys)
  | VObj _ | VMarker _ =>
      st <- get_state ;;
      match rpcId_of (heap st) arg with
      | Some rpcId =>
          match _knownStubIds st !! rpcId with
          | Some stub => ret (VObj stub)
          | None =>
              match _knownProxies st !! rpcId with
              | Some proxy => ret (VObj proxy)
              | None => throw (TypeError ("Invalid object " +:+ rpcId))
              end
          end
      | None => ret arg
      end
  end.

(** ** Call dispatcher, outbound *)

Definition resolve (call : PromiseResolver) (v : value) : M unit :=
  modify (λ st, set_settled (settled st ++ [(call, Resolved v)]) st).

Definition reject (call : PromiseResolver) (e : js_error) : M unit :=
  modify (λ st, set_settled (settled st ++ [(call, Rejected e)]) st).

Definition emit (ev : event) : M unit :=
  modify (λ st, set_emitted (emitted st ++ [ev]) st).

Definition _failAllCalls : M unit :=
  st <- get_state ;;
  let err := SocketClosedError in
  iterM (λ call, reject call err) (snd <$> map_to_list (_pendingCalls st)) ;;;
  modify (set_pendingCalls ∅).

(** What [call] hands back: [Promise.reject(err)], or the promise whose
    resolver is parked under [id]. *)
Inductive promise :=
  | PromiseRejected (e : js_error)
  | PromisePending (id : nat).

Definition call (obj : ObjectId) (method : string) (args : list value) : M promise :=
  st <- get_state ;;
  if _inCall st then throw (TypeError "Re-entrant calls are not supported")
  else if _ended st then ret (PromiseRejected SocketClosedError)
  else
    modify (set_inCall true) ;;;
    marshalled <- mapM _marshalArgument args ;;
    st <- get_state ;;
    iterM (λ obj, socket_write (MNewObject obj)) (_newObjects st) ;;;
    modify (set_newObjects []) ;;;
    modify (set_inCall false) ;;;
    st <- get_state ;;
    let id := _callId st in
    modify (λ st, set_callId (S (_callId st)) st) ;;;
    modify (λ st, set_pendingCalls (<[id := id]> (_pendingCalls st)) st) ;;;
    let msg := {| c_id := IdNum id; c_obj := obj; c_method := method;
                  c_params := VArray marshalled |} in
    socket_write (MCall msg) ;;;
    ret (PromisePending id).

Definition freeProxy (id : ObjectId) : M unit :=
  modify (λ st, set_knownProxies (delete id (_knownProxies st)) st) ;;;
  st <- get_state ;;
  if _ended st then ret ()
  else socket_write (MFree {| f_id := id |}).

Definition getProxy (id : ObjectId) (st : RpcSocket) : option ref :=
  _knownProxies st !! id.

(** ** Stubs *)

(** What a stub does to its target once the request is validated; running
    the target's code is the application's part. *)
Inductive invocation :=
  | InvGet (target : ref) (name : string)
  | InvSet (target : ref) (name : string) (v : value)
  | InvCall (target : ref) (method : string) (args : list value).

Module Stub.

(** [methods.indexOf(method) < 0] throws. *)
Definition _validateCall (stub : RpcStub) (method : string) : M unit :=
  if bool_decide (method ∈ stub_methods stub) then ret ()
  else throw (TypeError ("Invalid method " +:+ method)).

Definition get (stub : RpcStub) (name : string) : M invocation :=
  _validateCall stub ("get " +:+ name) ;;;
  ret (InvGet (stub_object stub) name).

(** not a typo here, 'get foo' allows both get and set of foo *)
Definition set (stub : RpcStub) (name : string) (v : value) : M invocation :=
  _validateCall stub ("get " +:+ name) ;;;
  ret (InvSet (stub_object stub) name v).

Definition call (stub : RpcStub) (method : string) (args : list value) : M invocation :=
  _validateCall stub method ;;;
  ret (InvCall (stub_object stub) method args).

End Stub.

(** ** Call dispatcher, inbound *)

(** [s.substr(0, 4)] *)
Definition substr_0_4 (s : string) : string := String.substring 0 4 s.

(** [s.substr(4)] *)
Definition substr_4 (s : string) : string :=
  String.substring 4 (String.length s - 4) s.

(** The body of the [try] block of [_handleCall] up to the invocation of the
    stub's target.  A stub id whose object has no entry in [_knownStubs]
    makes [stub] undefined, and the first use of it throws. *)
Definition _handleCall_dispatch (msg : CallMessage) : M invocation :=
  st <- get_state ;;
  match _knownStubIds st !! c_obj msg with
  | None =>
      throw (InvalidObjectError (c_obj msg) ("Invalid object 0x" +:+ c_obj msg))
  | Some target =>
      match c_params msg with
      | VArray params =>
          unmarshalled <- mapM _unmarshalArgument params ;;
          let method := c_method msg in
          if String.eqb (substr_0_4 method) "get " then
            match unmarshalled with
            | [] =>
                match _knownStubs st !! target with
                | Some stub => Stub.get stub (substr_4 method)
                | None => throw (TypeError "Cannot read properties of undefined")
                end
            | _ => throw (TypeError "Wrong number of arguments, expected 0")
            end
          else if String.eqb (substr_0_4 method) "set " then
            match unmarshalled with
            | [v] =>
                match _knownStubs st !! target with
                | Some stub => Stub.set stub (substr_4 method) v
                | None => throw (TypeError "Cannot read properties of undefined")
                end
            | _ => throw (TypeError "Wrong number of arguments, expected 1")
            end
          else
            match _knownStubs st !! target with
            | Some stub => Stub.call stub method unmarshalled
            | None => throw (TypeError "Cannot read properties of undefined")
            end
      | _ => throw (TypeError "Malformed method call")
      end
  end.

(** [String(error)] for an error object. *)
Definition error_to_string (error : js_error) : string :=
  if String.eqb (e_name error) "" then e_message error
  else if String.eqb (e_message error) "" then e_name error
  else e_name error +:+ ": " +:+ e_message error.

(** The reply frame the [catch] block builds. *)
Definition error_reply (id : msg_id) (error : js_error) : ReplyMessage :=
  if String.eqb (e_name error) "SyntaxError" then
    {| r_id := id; r_error := Some "SyntaxError";
       r_message := Some (e_message error); r_stack := e_stack error;
       r_code := None; r_reply := VUndefined |}
  else if String.eqb (e_name error) "TypeError" then
    {| r_id := id; r_error := Some "TypeError";
       r_message := Some (e_message error); r_stack := e_stack error;
       r_code := None; r_reply := VUndefined |}
  else if negb (String.eqb (e_message error) "") then
    {| r_id := id; r_error := Some (e_message error);
       r_message := None; r_stack := e_stack error;
       r_code := e_code error; r_reply := VUndefined |}
  else
    {| r_id := id; r_error := Some (error_to_string error);
       r_message := None; r_stack := None;
       r_code := None; r_reply := VUndefined |}.

Definition _handleCall_catch (id : msg_id) (error : js_error) : M unit :=
  st <- get_state ;;
  if _ended st then ret ()
  else
    match id with
    | IdNull => ret ()
    | _ => socket_write (MReply (error_reply id error))
    end.

(** The end of the [try] block, once the target has produced [reply]. *)
Definition _handleCall_reply (id : msg_id) (reply : value) : M unit :=
  match id with
  | IdNull => ret ()
  | _ =>
      marshalled <- _marshalArgument reply ;;
      socket_write (MReply {| r_id := id; r_error := None; r_message := None;
                              r_stack := None; r_code := None;
                              r_reply := marshalled |})
  end.

Inductive call_progress :=
  | Dropped
  | Failed
  | Awaiting (id : msg_id) (inv : invocation).

(** [_handleCall] up to the point where the target runs. *)
Definition _handleCall (msg : CallMessage) : M call_progress :=
  match c_id msg with
  | IdUndefined => ret Dropped
  | id =>
      try_catch
        (inv <- _handleCall_dispatch msg ;; ret (Awaiting id inv))
        (λ error, _handleCall_catch id error ;;; ret Failed)
  end.

(** How the target's code completed.  For [InvSet] the variable [reply] is
    never assigned, so a completed assignment is [Returned VUndefined]. *)
Inductive completion :=
  | Returned (reply : value)
  | Thrown (error : js_error).

(** [_handleCall] from the completion of the target to its end. *)
Definition _handleCall_resume (id : msg_id) (c : completion) : M unit :=
  try_catch
    (match c with
     | Returned reply => _handleCall_reply id reply
     | Thrown error => throw error
     end)
    (_handleCall_catch id).

(** [if (s)] on an optional string. *)
Definition truthy (s : option string) : bool :=
  match s with
  | Some s => negb (String.eqb s "")
  | None => false
  end.

Definition with_code (code : option js_code) (err : js_error) : js_error :=
  match code with
  | Some c =>
      {| e_name := e_name err; e_message := e_message err; e_code := Some c;
         e_stack := e_stack err; e_objectId := e_objectId err |}
  | None => err
  end.

Definition with_stack (stack : option string) (err : js_error) : js_error :=
  if truthy stack then
    {| e_name := e_name err; e_message := e_message err; e_code := e_code err;
       e_stack := stack; e_objectId := e_objectId err |}
  else err.

(** The error [_handleReply] throws for a frame whose [error] is [error]. *)
Definition reply_error (msg : ReplyMessage) (error : string) : js_error :=
  let err :=
    if String.eqb error "SyntaxError" then SyntaxError (default "" (r_message msg))
    else if String.eqb error "TypeError" then TypeError (default "" (r_message msg))
    else Error error in
  with_stack (r_stack msg) (with_code (r_code msg) err).

Definition _handleReply (msg : ReplyMessage) : M unit :=
  match r_id msg with
  | IdUndefined | IdNull => ret ()
  | IdNum id =>
      st <- get_state ;;
      match _pendingCalls st !! id with
      | None => ret ()
      | Some call =>
          modify (λ st, set_pendingCalls (delete id (_pendingCalls st)) st) ;;;
          try_catch
            (if truthy (r_error msg) then
               throw (reply_error msg (default "" (r_error msg)))
             else
               v <- _unmarshalArgument (r_reply msg) ;;
               resolve call v)
            (λ e, reject call e)
      end
  end.

Definition _handleFree (msg : FreeMessage) : M unit :=
  let id := f_id msg in
  st <- get_state ;;
  match _knownStubIds st !! id with
  | Some _ => modify (λ st, set_knownStubIds (delete id (_knownStubIds st)) st)
  | None => modify (λ st, set_knownProxies (delete id (_knownProxies st)) st)
  end.

(** ** Proxies and the message router *)

(** [new RpcProxy(socket, id, methods)]: the proxy is a fresh heap object
    carrying [$rpcId] and the prototype's [$free].  The accessors it defines
    for [methods] are call sites of [call] and are not part of the heap
    record; they are modelled by [RpcProxy_properties] below.  The heap
    record is that of a proxy none of whose listed methods takes the name
    of [$rpcId], [_socket], [$free] or [$rpcMethods]. *)
Definition RpcProxy_new (id : ObjectId) (methods : list string) : M ref :=
  st <- get_state ;;
  let proxy := length (heap st) in
  modify (λ st, set_heap (heap st ++ [{| o_rpcId := Some id; o_rpcMethods := None;
                                         o_free := Some (FreeProxy id) |}]) st) ;;;
  ret proxy.

Definition _handleMessage (msg : AnyMessage) : M unit :=
  match msg with
  | MNewObject m =>
      st <- get_state ;;
      match _knownProxies st !! n_obj m with
      | Some _ => ret ()
      | None =>
          proxy <- RpcProxy_new (n_obj m) (n_methods m) ;;
          modify (λ st, set_knownProxies (<[n_obj m := proxy]> (_knownProxies st)) st)
      end
  | MCall m => _handleCall m ;;; ret ()
  | MReply m => _handleReply m
  | MFree m => _handleFree m
  | MOther _ => ret ()
  end.

(** The handlers the constructor installs on the transport. *)
Definition on_error (err : js_error) : M unit :=
  _failAllCalls ;;;
  emit (EvError err).

Definition on_end : M unit := emit EvEnd.

Definition on_close (hadError : bool) : M unit :=
  modify (set_ended true) ;;;
  emit (EvClose hadError).

(** ** Releasing objects *)

(** Running a [$free] function.  [bound] tells whether it is invoked as a
    method of its object; the closure of [make$free] calls the previous
    [$free] without a receiver. *)
Fixpoint run_free (bound : bool) (f : free_fn) : M unit :=
  match f with
  | FreeNative => ret ()
  | FreeProxy id =>
      if bound then freeProxy id
      else throw (TypeError "Cannot read properties of undefined")
  | FreeStub id prev =>
      modify (λ st, set_knownStubIds (delete id (_knownStubIds st)) st) ;;;
      match prev with
      | Some prev_free => run_free false prev_free
      | None => ret ()
      end
  end.

(** [obj.$free()] *)
Definition invoke_free (obj : ref) : M unit :=
  st <- get_state ;;
  match heap st !! obj ≫= o_free with
  | Some f => run_free true f
  | None => throw (TypeError "obj.$free is not a function")
  end.

(** ** The accessors of a proxy *)

(** An own property of a proxy once its constructor has run.  [PropRpcId]
    and [PropSocket] are the two fields the constructor assigns;
    [PropGetter name] is the accessor property whose getter is
    [function() { return this._socket.call(this.$rpcId, 'get ' + name, []) }];
    [PropMethod method] is the data property whose value is
    [function(...args) { return this._socket.call(this.$rpcId, method, args) }]. *)
Inductive property :=
  | PropRpcId (id : ObjectId)
  | PropSocket
  | PropGetter (name : string)
  | PropMethod (method : string).

(** [this.$rpcId = id; this._socket = socket] *)
Definition proxy_fields (id : ObjectId) : gmap string property :=
  <["_socket" := PropSocket]> (<["$rpcId" := PropRpcId id]> ∅).

(** The own properties [new RpcProxy(socket, id, methods)] ends with.  Every
    property is configurable, so [Object.defineProperty] replaces a
    property of the same name, the two fields included. *)
Definition RpcProxy_properties (id : ObjectId) (methods : list string) : gmap string property :=
  foldl (λ this method,
           if String.eqb (substr_0_4 method) "get " then
             let name := substr_4 method in
             <[name := PropGetter name]> this
           else
             <[method := PropMethod method]> this)
        (proxy_fields id)
        methods.

(** The method name and the arguments the body of an accessor hands to
    [call]: a getter is read without arguments, a method is applied to
    [args]. *)
Definition accessor_request (p : property) (args : list value) : option (string * list value) :=
  match p with
  | PropGetter name => Some ("get " +:+ name, [])
  | PropMethod method => Some (method, args)
  | PropRpcId _ | PropSocket => None
  end.

(** ** Everything that can happen to an endpoint *)

(** The application allocates an object, calls a method of the endpoint or
    [$free] on an object; the transport delivers a frame or reports an
    error, its end or its closure; a target invoked by [_handleCall]
    completes.  [end] and [destroy] only act on the transport, whose
    reaction arrives as one of the transport's events. *)
Inductive op :=
  | OpAlloc (o : jsobj)
  | OpAddStub (obj : ref)
  | OpCall (obj : ObjectId) (method : string) (args : list value)
  | OpFreeProxy (id : ObjectId)
  | OpFree (obj : ref)
  | OpData (msg : AnyMessage)
  | OpResume (id : msg_id) (c : completion)
  | OpError (err : js_error)
  | OpEnd
  | OpClose (hadError : bool).

Definition exec (o : op) (st : RpcSocket) : RpcSocket :=
  match o with
  | OpAlloc obj => set_heap (heap st ++ [obj]) st
  | OpAddStub obj => final_state (addStub obj st)
  | OpCall obj method args => final_state (call obj method args st)
  | OpFreeProxy id => final_state (freeProxy id st)
  | OpFree obj => final_state (invoke_free obj st)
  | OpData msg => final_state (_handleMessage msg st)
  | OpResume id c => final_state (_handleCall_resume id c st)
  | OpError err => final_state (on_error err st)
  | OpEnd => final_state (on_end st)
  | OpClose hadError => final_state (on_close hadError st)
  end.

Definition run (ops : list op) (st : RpcSocket) : RpcSocket :=
  foldl (λ st o, exec o st) st ops.

Inductive reachable : RpcSocket → Prop :=
  | reachable_new sid h : reachable (RpcSocket_new sid h)
  | reachable_exec o st : reachable st → reachable (exec o st).

(** * Vocabulary of the properties *)

(** The relations between states, the invariants and the predicates in
    which the properties of the engine are stated and proved. *)

(** A relation between the state before and the state after a computation,
    whichever way it ends.  Preorders compose along [bind]. *)
Definition preserves {A} (P : relation RpcSocket) (m : M A) : Prop :=
  ∀ st, P st (final_state (m st)).

Definition is_call (msg : AnyMessage) : bool :=
  match msg with
  | MCall _ => true
  | _ => false
  end.

(** A relation that every update of a field other than [_inCall] satisfies,
    provided the two counters only go up, the record of settlements only
    grows and the frames written are not call frames. *)
Class Frame (P : relation RpcSocket) := {
  frame_preorder :: PreOrder P;
  frame_knownStubs st x : P st (set_knownStubs x st);
  frame_knownStubIds st x : P st (set_knownStubIds x st);
  frame_knownProxies st x : P st (set_knownProxies x st);
  frame_pendingCalls st x : P st (set_pendingCalls x st);
  frame_newObjects st x : P st (set_newObjects x st);
  frame_ended st x : P st (set_ended x st);
  frame_heap st x : P st (set_heap x st);
  frame_wire st msg :
    is_call msg = false → P st (set_wire (wire st ++ [msg]) st);
  frame_settled st call s : P st (set_settled (settled st ++ [(call, s)]) st);
  frame_emitted st x : P st (set_emitted x st);
  frame_stubCnt st : P st (set_stubCnt (S (_stubCnt st)) st);
  frame_callId st : P st (set_callId (S (_callId st)) st);
}.

(** The endpoint's name never changes and its counters never go down. *)
Definition R_mono (st st' : RpcSocket) : Prop :=
  _socketId st' = _socketId st ∧
  (_stubCnt st ≤ _stubCnt st')%nat ∧
  (_callId st ≤ _callId st')%nat.

(** Once [_inCall] is set it stays set, and no call frame is written. *)
Definition R_stuck (st st' : RpcSocket) : Prop :=
  _inCall st = true →
  _inCall st' = true ∧ ∀ m, MCall m ∈ wire st' → MCall m ∈ wire st.

(** Settlements are only ever added. *)
Definition R_log (st st' : RpcSocket) : Prop :=
  settled st `prefix_of` settled st'.

(** What marshalling leaves alone.  While [_inCall] is set nothing reaches
    the transport: announcements only queue up. *)
Record R_marshal (st st' : RpcSocket) : Prop := {
  rm_inCall : _inCall st' = _inCall st;
  rm_ended : _ended st' = _ended st;
  rm_callId : _callId st' = _callId st;
  rm_pendingCalls : _pendingCalls st' = _pendingCalls st;
  rm_knownProxies : _knownProxies st' = _knownProxies st;
  rm_settled : settled st' = settled st;
  rm_emitted : emitted st' = emitted st;
  rm_socketId : _socketId st' = _socketId st;
  rm_knownStubIds : dom (_knownStubIds st) ⊆ dom (_knownStubIds st');
  rm_wire : _inCall st = true → wire st' = wire st;
  rm_newObjects : _newObjects st `prefix_of` _newObjects st';
}.

(** The marshaller throws one kind of error: an argument carries an oid that
    the proxy registry does not know. *)
Definition is_invalid_object (st : RpcSocket) (e : js_error) : Prop :=
  ∃ rpcId,
    _knownProxies st !! rpcId = None ∧
    e = InvalidObjectError rpcId
          ("Invalid object " +:+ rpcId +:+
           ", likely a proxy from a different socket").

(** The state [call] leaves once the arguments are marshalled: the queued
    announcements are flushed, then the call is parked and written. *)
Definition call_commit (obj : ObjectId) (method : string)
    (marshalled : list value) (st1 : RpcSocket) : RpcSocket :=
  let id := _callId st1 in
  let msg := {| c_id := IdNum id; c_obj := obj; c_method := method;
                c_params := VArray marshalled |} in
  set_wire (wire st1 ++ (MNewObject <$> _newObjects st1) ++ [MCall msg])
    (set_pendingCalls (<[id := id]> (_pendingCalls st1))
       (set_callId (S id)
          (set_inCall false
             (set_newObjects [] st1)))).

(** What [_sendMetadata] does to the state. *)
Definition announce (msg : NewObjectMessage) (st : RpcSocket) : RpcSocket :=
  if _inCall st then set_newObjects (_newObjects st ++ [msg]) st
  else set_wire (wire st ++ [MNewObject msg]) st.

(** The facts that hold of every state an endpoint can be in. *)
Record inv (st : RpcSocket) : Prop := {
  (* an id of the id map names a registered object, under that very id *)
  inv_ids : ∀ id obj,
    _knownStubIds st !! id = Some obj →
    ∃ stub, _knownStubs st !! obj = Some stub ∧ stub_rpcId stub = id;
  (* every stub id was built from the endpoint name and a past counter value *)
  inv_alloc : ∀ obj stub,
    _knownStubs st !! obj = Some stub →
    ∃ cnt, (cnt < _stubCnt st)%nat ∧
           stub_rpcId stub = _socketId st +:+ pretty cnt;
  (* two registered objects never share an id *)
  inv_inj : ∀ obj1 obj2 stub1 stub2,
    _knownStubs st !! obj1 = Some stub1 →
    _knownStubs st !! obj2 = Some stub2 →
    stub_rpcId stub1 = stub_rpcId stub2 → obj1 = obj2;
  (* a registered object carries the [$free] closure of its id *)
  inv_free : ∀ obj stub,
    _knownStubs st !! obj = Some stub →
    ∃ o prev, heap st !! obj = Some o ∧
              o_free o = Some (FreeStub (stub_rpcId stub) prev);
  (* a live id has been announced, on the wire or in the queue *)
  inv_announced : ∀ id obj,
    _knownStubIds st !! id = Some obj →
    ∃ m, n_obj m = id ∧ (MNewObject m ∈ wire st ∨ m ∈ _newObjects st);
  (* the queue is empty outside of marshalling *)
  inv_buffer : _inCall st = false → _newObjects st = [];
  (* a parked resolver is the one of its call id, which is not settled yet *)
  inv_pending : ∀ id call,
    _pendingCalls st !! id = Some call →
    call = id ∧ (id < _callId st)%nat ∧ id ∉ (settled st).*1;
  (* only resolvers of past calls have been invoked, each at most once *)
  inv_settled : ∀ call, call ∈ (settled st).*1 → (call < _callId st)%nat;
  inv_settled_once : NoDup (settled st).*1;
}.

(** The invariants carry over from one state to the other. *)
Definition R_inv (st st' : RpcSocket) : Prop := inv st → inv st'.

(** Registering an object the endpoint has not seen: the counter advances,
    the [$free] closure is installed and the stub recorded. *)
Definition register (obj : ref) (methods : list string) (st : RpcSocket) : RpcSocket :=
  let rpcId := _socketId st +:+ pretty (_stubCnt st) in
  let stub := {| stub_rpcId := rpcId; stub_object := obj;
                 stub_methods := methods |} in
  set_knownStubs (<[obj := stub]> (_knownStubs st))
    (final_state (make_free obj rpcId (set_stubCnt (S (_stubCnt st)) st))).

(** How [_handleReply] settles the promise of a matched reply: [st1] is the
    endpoint once the entry has left the pending table. *)
Definition reply_settlement (msg : ReplyMessage) (st1 : RpcSocket) : settlement :=
  if truthy (r_error msg) then
    Rejected (reply_error msg (default "" (r_error msg)))
  else
    match _unmarshalArgument (r_reply msg) st1 with
    | Ret v _ => Resolved v
    | Throw e _ => Rejected e
    end.

(** One invocation of a resolver, recorded. *)
Definition settle (call : PromiseResolver) (s : settlement) (st : RpcSocket) : RpcSocket :=
  set_settled (settled st ++ [(call, s)]) st.

(** The resolvers [_failAllCalls] goes through. *)
Definition pending_resolvers (st : RpcSocket) : list PromiseResolver :=
  (map_to_list (_pendingCalls st)).*2.

(** The resolver [call] has been invoked once, to reject with the
    closed-endpoint error. *)
Definition rejected_once (call : PromiseResolver) (st' : RpcSocket) : Prop :=
  filter (λ p, p.1 = call) (settled st') = [(call, Rejected SocketClosedError)].

(** The closure cascade, between the state before an event of the
    transport and the state after it: the pending-call table is empty and
    each call that was pending has been rejected, once, with the
    closed-endpoint error. *)
Definition cascade (st st' : RpcSocket) : Prop :=
  _pendingCalls st' = ∅ ∧
  ∀ id call, _pendingCalls st !! id = Some call → rejected_once call st'.

(** The first sentence of the invocation contract, read on its own: a call
    whose method name is not in the snapshot fails with the invalid-method
    error. *)
Definition rejects_unlisted_method (msg : CallMessage) (st : RpcSocket) : Prop :=
  ∀ target stub,
    _knownStubIds st !! c_obj msg = Some target →
    _knownStubs st !! target = Some stub →
    c_method msg ∉ stub_methods stub →
    ∃ st', _handleCall_dispatch msg st =
             Throw (TypeError ("Invalid method " +:+ c_method msg)) st'.

(** What the error thrown for a reply frame takes from the frame. *)
Definition classified (msg : ReplyMessage) (e : js_error) : Prop :=
  (r_error msg = Some "SyntaxError" →
     e_name e = "SyntaxError" ∧ e_message e = default "" (r_message msg)) ∧
  (r_error msg = Some "TypeError" →
     e_name e = "TypeError" ∧ e_message e = default "" (r_message msg)) ∧
  (∀ error, r_error msg = Some error →
     error ≠ "SyntaxError" → error ≠ "TypeError" →
     e_name e = "Error" ∧ e_message e = error) ∧
  e_code e = r_code msg ∧
  e_stack e = (if truthy (r_stack msg) then r_stack msg else None).

(** What [$free] leaves alone: the stub map, and the ids that are already
    gone from the id map. *)
Definition R_release (st st' : RpcSocket) : Prop :=
  _knownStubs st' = _knownStubs st ∧
  ∀ id, _knownStubIds st !! id = None → _knownStubIds st' !! id = None.

(** A value built from primitives, arrays, plain data objects (no [$rpcId],
    no [$rpcMethods]), stubbable objects registered at the endpoint, and
    proxies that are the entry of the proxy registry for their own oid. *)
Fixpoint round_trip_value (st : RpcSocket) (v : value) : bool :=
  match v with
  | VUndefined | VNull | VBool _ | VNum _ | VStr _ => true
  | VArray xs => forallb (round_trip_value st) xs
  | VObj r =>
      match heap st !! r with
      | Some o =>
          match o_rpcId o with
          | Some id => bool_decide (_knownProxies st !! id = Some r)
          | None =>
              match o_rpcMethods o with
              | Some _ => bool_decide (is_Some (_knownStubs st !! r))
              | None => true
              end
          end
      | None => false
      end
  | VMarker _ => false
  end.

(** Primitives and plain data. *)
Fixpoint plain_data (st : RpcSocket) (v : value) : bool :=
  match v with
  | VUndefined | VNull | VBool _ | VNum _ | VStr _ => true
  | VArray xs => forallb (plain_data st) xs
  | VObj r =>
      match heap st !! r with
      | Some o =>
          match o_rpcId o, o_rpcMethods o with
          | None, None => true
          | _, _ => false
          end
      | None => false
      end
  | VMarker _ => false
  end.

(** No stub of the endpoint has an oid that is also a key of the proxy
    registry. *)
Definition registries_disjoint (st : RpcSocket) : Prop :=
  map_Forall (λ _ stub, _knownProxies st !! stub_rpcId stub = None)
    (_knownStubs st).

(** Marshalling a value of registered objects only adds ids to the id map. *)
Record ext (st st' : RpcSocket) : Prop := {
  ext_heap : heap st' = heap st;
  ext_knownStubs : _knownStubs st' = _knownStubs st;
  ext_knownProxies : _knownProxies st' = _knownProxies st;
  ext_knownStubIds : _knownStubIds st ⊆ _knownStubIds st';
}.

(** The statement of the round trip that goes through the induction: the
    marshalled value unmarshals to the original in every later state of the
    same marshalling. *)
Definition round_trips (st : RpcSocket) (v : value) : Prop :=
  ∃ w st',
    _marshalArgument v st = Ret w st' ∧ ext st st' ∧ inv st' ∧
    ∀ st'', ext st' st'' → inv st'' → registries_disjoint st'' →
            _unmarshalArgument w st'' = Ret v st''.

(** The oids a marshalled value refers to. *)
Fixpoint oids (v : value) : list ObjectId :=
  match v with
  | VMarker id => [id]
  | VArray xs => concat (map oids xs)
  | _ => []
  end.

(** [id] is introduced by a new-object frame of the sequence [frames]. *)
Definition announced_on (frames : list AnyMessage) (id : ObjectId) : Prop :=
  ∃ m, MNewObject m ∈ frames ∧ n_obj m = id.

(** The ordering property as a property of the frames an endpoint has
    written: each oid in the params of a call frame is introduced by a
    new-object frame written before it. *)
Definition params_introduced (st : RpcSocket) : Prop :=
  ∀ before m after,
    wire st = (before ++ MCall m :: after)%list →
    ∀ id, id ∈ oids (c_params m) → announced_on before id.

(** While marshalling, an id that enters the id map is in the queue. *)
Definition R_queue (st st' : RpcSocket) : Prop :=
  _inCall st = true →
  _inCall st' = true ∧
  _newObjects st `prefix_of` _newObjects st' ∧
  ∀ id, _knownStubIds st !! id = None → is_Some (_knownStubIds st' !! id) →
        ∃ m, m ∈ _newObjects st' ∧ n_obj m = id.

(** An oid of a marshalled value comes from the proxy registry or names a
    stub that is in the id map when marshalling ends. *)
Definition oids_known (st st' : RpcSocket) (w : value) : Prop :=
  ∀ id, id ∈ oids w →
        is_Some (_knownProxies st !! id) ∨ is_Some (_knownStubIds st' !! id).

(** Values without object references: primitives, and arrays of such
    values. *)
Fixpoint prim_data (v : value) : bool :=
  match v with
  | VUndefined | VNull | VBool _ | VNum _ | VStr _ => true
  | VArray xs => forallb prim_data xs
  | VObj _ | VMarker _ => false
  end.

(** Two states that differ at most in the id map, the proxy registry, the
    pending-call table, the counters and the records of settlements and
    events. *)
Record same_core (st st' : RpcSocket) : Prop := {
  sc_knownStubs : _knownStubs st' = _knownStubs st;
  sc_inCall : _inCall st' = _inCall st;
  sc_newObjects : _newObjects st' = _newObjects st;
  sc_ended : _ended st' = _ended st;
  sc_heap : heap st' = heap st;
  sc_wire : wire st' = wire st;
}.

(** A relation between states that every operation of an endpoint
    satisfies as soon as the few pieces of code that write the stub map, the
    heap, the queue, the closed flag or the transport do. *)
Class Stepwise (P : relation RpcSocket) := {
  stepwise_preorder :: PreOrder P;
  stepwise_same st st' : same_core st st' → P st st';
  stepwise_alloc st o : P st (set_heap (heap st ++ [o]) st);
  stepwise_reply st m :
    r_error m = None → P st (set_wire (wire st ++ [MReply m]) st);
  stepwise_addStub obj : preserves P (addStub obj);
  stepwise_call obj method args : preserves P (call obj method args);
  stepwise_freeProxy id : preserves P (freeProxy id);
  stepwise_handleCall_catch id error : preserves P (_handleCall_catch id error);
  stepwise_on_close hadError : preserves P (on_close hadError);
}.

(** The stub map only grows, and of an object on the heap the engine only
    ever replaces [$free], once, by the closure of [make$free], when the
    object is registered. *)
Record R_grow (st st' : RpcSocket) : Prop := {
  grow_stubs : _knownStubs st ⊆ _knownStubs st';
  grow_heap : ∀ r o,
    heap st !! r = Some o →
    ∃ o', heap st' !! r = Some o' ∧
          o_rpcId o' = o_rpcId o ∧ o_rpcMethods o' = o_rpcMethods o ∧
          (o_free o' = o_free o ∨
           (_knownStubs st !! r = None ∧
            ∃ stub, _knownStubs st' !! r = Some stub ∧
                    o_free o' = Some (FreeStub (stub_rpcId stub) (o_free o))));
}.

(** The frames a closed endpoint still writes: announcements and the
    replies of calls that succeeded. *)
Definition quiet_frame (msg : AnyMessage) : bool :=
  match msg with
  | MNewObject _ => true
  | MReply m => bool_decide (r_error m = None)
  | MCall _ | MFree _ | MOther _ => false
  end.

(** Once the closed flag is set it stays set, and only quiet frames are
    written. *)
Definition R_closed (st st' : RpcSocket) : Prop :=
  _ended st = true →
  _ended st' = true ∧
  ∀ msg, msg ∈ wire st' → msg ∈ wire st ∨ quiet_frame msg = true.

(** Every announcement written or queued describes a stub of the endpoint,
    and a stub describes its object. *)
Record inv_wire (st : RpcSocket) : Prop := {
  iw_object : ∀ obj stub,
    _knownStubs st !! obj = Some stub →
    stub_object stub = obj ∧
    rpcMethods_of (heap st) obj = Some (stub_methods stub);
  iw_frames : ∀ m,
    MNewObject m ∈ wire st ∨ m ∈ _newObjects st →
    ∃ obj stub, _knownStubs st !! obj = Some stub ∧
                stub_rpcId stub = n_obj m ∧ stub_methods stub = n_methods m;
}.

Definition R_wire (st st' : RpcSocket) : Prop := inv_wire st → inv_wire st'.


(** The oid under which the endpoint sends the heap object [r]: the
    object's own [$rpcId], or, for a stubbable object, the oid of its
    stub. *)
Definition oid_of (st : RpcSocket) (r : ref) : option ObjectId :=
  o ← heap st !! r;
  match o_rpcId o with
  | Some id => Some id
  | None =>
      match o_rpcMethods o with
      | Some _ => stub_rpcId <$> _knownStubs st !! r
      | None => None
      end
  end.

(** A value in which every object that has an oid is replaced by the
    literal [{$rpcId: oid}]. *)
Fixpoint to_wire (st : RpcSocket) (v : value) : value :=
  match v with
  | VArray xs => VArray (map (to_wire st) xs)
  | VObj r =>
      match oid_of st r with
      | Some id => VMarker id
      | None => VObj r
      end
  | _ => v
  end.

(** The heap objects a value refers to. *)
Fixpoint refs (v : value) : list ref :=
  match v with
  | VObj r => [r]
  | VArray xs => concat (map refs xs)
  | _ => []
  end.

(** What registering stubs does to the endpoint: the stub map and the heap
    evolve as [R_grow] says, and no object is allocated. *)
Record R_reg (st st' : RpcSocket) : Prop := {
  reg_grow : R_grow st st';
  reg_length : length (heap st') = length (heap st);
}.

(** With [_inCall] clear, announcements go straight to the transport. *)
Definition R_direct (st st' : RpcSocket) : Prop :=
  _inCall st = false →
  _inCall st' = false ∧ _newObjects st' = _newObjects st ∧
  ∃ announcements,
    wire st' = (wire st ++ (MNewObject <$> announcements))%list.

(** The oids a received value refers to: the literals [{$rpcId: oid}] and
    the objects that carry a [$rpcId]. *)
Fixpoint rpc_ids (h : list jsobj) (v : value) : list ObjectId :=
  match v with
  | VArray xs => concat (map (rpc_ids h) xs)
  | VObj _ | VMarker _ => option_list (rpcId_of h v)
  | _ => []
  end.

(** The object an oid stands for at the endpoint: a stub's object first,
    a proxy otherwise. *)
Definition resolve_oid (st : RpcSocket) (id : ObjectId) : option ref :=
  match _knownStubIds st !! id with
  | Some stub => Some stub
  | None => _knownProxies st !! id
  end.

(** A value in which every oid is replaced by the object it stands for. *)
Fixpoint from_wire (st : RpcSocket) (v : value) : value :=
  match v with
  | VArray xs => VArray (map (from_wire st) xs)
  | VObj _ | VMarker _ =>
      match rpcId_of (heap st) v ≫= resolve_oid st with
      | Some r => VObj r
      | None => v
      end
  | _ => v
  end.

(** The name of the property that the constructor of a proxy defines for a
    listed method, and the property it defines under that name. *)
Definition accessor_key (method : string) : string :=
  if String.eqb (substr_0_4 method) "get " then substr_4 method else method.

Definition accessor_of (method : string) : property :=
  if String.eqb (substr_0_4 method) "get " then PropGetter (substr_4 method)
  else PropMethod method.

(** The announcements among the frames written, in the order in which they
    were written. *)
Definition announcements (frames : list AnyMessage) : list NewObjectMessage :=
  omap (λ msg, match msg with MNewObject m => Some m | _ => None end) frames.

(** While [_inCall] is set, no announcement reaches the transport. *)
Definition R_wedged (st st' : RpcSocket) : Prop :=
  _inCall st = true →
  _inCall st' = true ∧ announcements (wire st') = announcements (wire st).

(** The values of a counter at which JavaScript's [++] is exact. *)
Definition safe_counter (n : nat) : Prop := (Z.of_nat n < 2 ^ 53)%Z.

(** What a reply frame carries besides the stack. *)
Definition reply_fields (m : ReplyMessage) :
    msg_id * option string * option string * option js_code * value :=
  (r_id m, r_error m, r_message m, r_code m, r_reply m).

(** The names of the members of a proxy that the engine reads or calls. *)
Definition own_member (key : string) : bool :=
  String.eqb key "$rpcId" || String.eqb key "_socket" ||
  String.eqb key "$free" || String.eqb key "$rpcMethods".

(** No listed method takes the name of a member of the proxy, so that the
    proxy built for the list keeps its [$rpcId], its [_socket] and the
    [$free] of its prototype. *)
Definition keeps_members (methods : list string) : bool :=
  forallb (λ method, negb (own_member (accessor_key method))) methods.

(** * Reasoning about the monadic code *)

(** Induction on [$free] functions, through the captured previous one. *)
Lemma free_fn_ind (P : free_fn → Prop) :
  P FreeNative → (∀ id, P (FreeProxy id)) →
  (∀ id prev, option_Forall P prev → P (FreeStub id prev)) →
  ∀ f, P f.
Proof.
  intros Hn Hp Hs. fix IH 1. intros [| id | id [prev|]].
  - exact Hn.
  - apply Hp.
  - apply Hs. constructor. apply IH.
  - apply Hs. constructor.
Qed.

(** Induction on values, through the elements of arrays. *)
Lemma value_ind (P : value → Prop) :
  P VUndefined → P VNull → (∀ b, P (VBool b)) → (∀ n, P (VNum n)) →
  (∀ s, P (VStr s)) →
  (∀ xs, Forall P xs → P (VArray xs)) →
  (∀ r, P (VObj r)) → (∀ id, P (VMarker id)) →
  ∀ v, P v.
Proof.
  intros Hu Hn Hb Hz Hs Ha Ho Hm.
  fix IH 1. intros [| | b | n | s | xs | r | id].
  - exact Hu.
  - exact Hn.
  - apply Hb.
  - apply Hz.
  - apply Hs.
  - apply Ha. induction xs as [|x xs IHxs]; constructor.
    + apply IH.
    + exact IHxs.
  - apply Ho.
  - apply Hm.
Qed.

Section preserves.
Context (P : relation RpcSocket) `{!PreOrder P}.

Lemma preserves_ret {A} (a : A) : preserves P (ret a).
Proof. intros st. reflexivity. Qed.

Lemma preserves_throw {A} (e : js_error) : preserves P (throw e : M A).
Proof. intros st. reflexivity. Qed.

Lemma preserves_get_state : preserves P get_state.
Proof. intros st. reflexivity. Qed.

Lemma preserves_modify (f : RpcSocket → RpcSocket) :
  (∀ st, P st (f st)) → preserves P (modify f).
Proof. intros Hf st. apply Hf. Qed.

Lemma preserves_bind {A B} (m : M A) (k : A → M B) :
  preserves P m → (∀ a, preserves P (k a)) → preserves P (bind m k).
Proof.
  intros Hm Hk st. unfold bind.
  specialize (Hm st). destruct (m st) as [a st'|e st']; simpl in *.
  - etrans; [exact Hm | apply Hk].
  - exact Hm.
Qed.

Lemma preserves_try_catch {A} (body : M A) (handler : js_error → M A) :
  preserves P body → (∀ e, preserves P (handler e)) →
  preserves P (try_catch body handler).
Proof.
  intros Hm Hk st. unfold try_catch.
  specialize (Hm st). destruct (body st) as [a st'|e st']; simpl in *.
  - exact Hm.
  - etrans; [exact Hm | apply Hk].
Qed.

Lemma preserves_mapM {A B} (f : A → M B) (l : list A) :
  Forall (λ x, preserves P (f x)) l → preserves P (mapM f l).
Proof.
  induction 1 as [|x l Hx _ IH]; simpl.
  - apply preserves_ret.
  - apply preserves_bind; [exact Hx | intros y].
    apply preserves_bind; [exact IH | intros ys]. apply preserves_ret.
Qed.

Lemma preserves_iterM {A} (f : A → M unit) (l : list A) :
  (∀ x, preserves P (f x)) → preserves P (iterM f l).
Proof.
  intros Hf. induction l as [|x l IH]; simpl.
  - apply preserves_ret.
  - apply preserves_bind; [apply Hf | intros _; exact IH].
Qed.

(** The marshaller changes the state through [addStub] only. *)
Lemma preserves_marshalArgument :
  (∀ obj, preserves P (addStub obj)) →
  ∀ arg, preserves P (_marshalArgument arg).
Proof.
  intros Hadd arg.
  induction arg as [| | b | n | s | xs IH | r | id] using value_ind;
    try apply preserves_ret.
  - simpl. apply preserves_bind; [|intros ys; apply preserves_ret].
    apply preserves_mapM, IH.
  - simpl. apply preserves_bind; [apply preserves_get_state | intros st0].
    destruct (heap st0 !! r ≫= o_rpcId) as [rpcId|].
    + destruct (_knownProxies st0 !! rpcId);
        [apply preserves_ret | apply preserves_throw].
    + destruct (rpcMethods_of (heap st0) r); [|apply preserves_ret].
      apply preserves_bind; [apply Hadd | intros i; apply preserves_ret].
  - simpl. apply preserves_bind; [apply preserves_get_state | intros st0].
    simpl. destruct (_knownProxies st0 !! id);
      [apply preserves_ret | apply preserves_throw].
Qed.

(** Unmarshalling only reads. *)
Lemma preserves_unmarshalArgument arg : preserves P (_unmarshalArgument arg).
Proof.
  induction arg as [| | b | n | s | xs IH | r | id] using value_ind;
    try apply preserves_ret.
  - simpl. apply preserves_bind; [|intros ys; apply preserves_ret].
    apply preserves_mapM, IH.
  - simpl. apply preserves_bind; [apply preserves_get_state | intros st0].
    destruct (heap st0 !! r ≫= o_rpcId) as [rpcId|]; [|apply preserves_ret].
    destruct (_knownStubIds st0 !! rpcId); [apply preserves_ret|].
    destruct (_knownProxies st0 !! rpcId);
      [apply preserves_ret | apply preserves_throw].
  - simpl. apply preserves_bind; [apply preserves_get_state | intros st0].
    simpl. destruct (_knownStubIds st0 !! id); [apply preserves_ret|].
    destruct (_knownProxies st0 !! id);
      [apply preserves_ret | apply preserves_throw].
Qed.

End preserves.

(** One step of a proof that a piece of straight-line code preserves a
    relation: peel a combinator, or split on the scrutinee of a match. *)
Ltac preorder_goal :=
  try match goal with |- PreOrder _ => apply _ end.

Ltac preserves_step :=
  first
    [ apply preserves_ret; preorder_goal
    | apply preserves_throw; preorder_goal
    | apply preserves_get_state; preorder_goal
    | apply preserves_unmarshalArgument; preorder_goal
    | apply preserves_bind; preorder_goal; [|intros ?]
    | apply preserves_try_catch; preorder_goal; [|intros ?]
    | apply preserves_iterM; preorder_goal; intros ?
    | apply preserves_mapM; preorder_goal; apply Forall_forall; intros ? _
    | match goal with
      | |- preserves _ (match ?x with _ => _ end) => destruct x
      | |- preserves _ (let _ := _ in _) => cbv zeta
      end ].

(** Unmarshalling leaves the endpoint as it found it. *)
Lemma unmarshalArgument_state arg st :
  final_state (_unmarshalArgument arg st) = st.
Proof. symmetry. apply (preserves_unmarshalArgument eq). Qed.


(** ** Frame conditions *)

Ltac frame_modify :=
  apply preserves_modify; preorder_goal; intros ?;
  first [ apply frame_knownStubs | apply frame_knownStubIds
        | apply frame_knownProxies | apply frame_pendingCalls
        | apply frame_newObjects | apply frame_ended | apply frame_heap
        | apply frame_wire; reflexivity | apply frame_settled
        | apply frame_emitted
        | apply frame_stubCnt | apply frame_callId ].

Create HintDb frame discriminated.

Ltac frame_auto :=
  repeat first [ solve [auto 1 with frame nocore] | preserves_step | frame_modify ].

Section frame.
Context (P : relation RpcSocket) `{!Frame P}.

Lemma frame_sendMetadata stub : preserves P (_sendMetadata stub).
Proof. unfold _sendMetadata. frame_auto. Qed.
Hint Resolve frame_sendMetadata : frame.

Lemma frame_addStub obj : preserves P (addStub obj).
Proof. unfold addStub, make_free. frame_auto. Qed.
Hint Resolve frame_addStub : frame.

Lemma frame_marshalArgument arg : preserves P (_marshalArgument arg).
Proof. apply preserves_marshalArgument; [apply _ | apply frame_addStub]. Qed.
Hint Resolve frame_marshalArgument : frame.

Lemma frame_failAllCalls : preserves P _failAllCalls.
Proof. unfold _failAllCalls, reject. frame_auto. Qed.
Hint Resolve frame_failAllCalls : frame.

Lemma frame_freeProxy id : preserves P (freeProxy id).
Proof. unfold freeProxy. frame_auto. Qed.
Hint Resolve frame_freeProxy : frame.

Lemma frame_validateCall stub method : preserves P (Stub._validateCall stub method).
Proof. unfold Stub._validateCall. frame_auto. Qed.
Hint Resolve frame_validateCall : frame.

Lemma frame_handleCall_dispatch msg : preserves P (_handleCall_dispatch msg).
Proof.
  unfold _handleCall_dispatch, Stub.get, Stub.set, Stub.call. frame_auto.
Qed.
Hint Resolve frame_handleCall_dispatch : frame.

Lemma frame_handleCall_catch id error : preserves P (_handleCall_catch id error).
Proof. unfold _handleCall_catch. frame_auto. Qed.
Hint Resolve frame_handleCall_catch : frame.

Lemma frame_handleCall_reply id reply : preserves P (_handleCall_reply id reply).
Proof. unfold _handleCall_reply. frame_auto. Qed.
Hint Resolve frame_handleCall_reply : frame.

Lemma frame_handleCall msg : preserves P (_handleCall msg).
Proof. unfold _handleCall. frame_auto. Qed.
Hint Resolve frame_handleCall : frame.

Lemma frame_handleCall_resume id c : preserves P (_handleCall_resume id c).
Proof. unfold _handleCall_resume. frame_auto. Qed.

Lemma frame_handleReply msg : preserves P (_handleReply msg).
Proof. unfold _handleReply, resolve, reject. frame_auto. Qed.
Hint Resolve frame_handleReply : frame.

Lemma frame_handleFree msg : preserves P (_handleFree msg).
Proof. unfold _handleFree. frame_auto. Qed.
Hint Resolve frame_handleFree : frame.

Lemma frame_handleMessage msg : preserves P (_handleMessage msg).
Proof. unfold _handleMessage, RpcProxy_new. frame_auto. Qed.

Lemma frame_run_free f : ∀ bound, preserves P (run_free bound f).
Proof.
  induction f as [| id | id prev IH] using free_fn_ind; intros bound; simpl.
  - frame_auto.
  - frame_auto.
  - apply preserves_bind; preorder_goal; [frame_auto | intros _].
    destruct IH as [|prev_free IH]; [frame_auto | apply IH].
Qed.
Hint Resolve frame_run_free : frame.

Lemma frame_invoke_free obj : preserves P (invoke_free obj).
Proof. unfold invoke_free. frame_auto. Qed.

Lemma frame_on_error err : preserves P (on_error err).
Proof. unfold on_error, emit. frame_auto. Qed.

Lemma frame_on_end : preserves P on_end.
Proof. unfold on_end, emit. frame_auto. Qed.

Lemma frame_on_close hadError : preserves P (on_close hadError).
Proof. unfold on_close, emit. frame_auto. Qed.

(** [call] is the one method that writes [_inCall] and call frames. *)
Lemma frame_call obj method args :
  (∀ st b, P st (set_inCall b st)) →
  (∀ st m, P st (set_wire (wire st ++ [MCall m]) st)) →
  preserves P (call obj method args).
Proof.
  intros HinCall Hframe. unfold call.
  frame_auto; apply preserves_modify; intros ?;
    first [apply HinCall | apply Hframe].
Qed.

(** Every operation other than an outbound call. *)
Lemma frame_exec o st :
  (∀ obj method args, o ≠ OpCall obj method args) → P st (exec o st).
Proof.
  intros Ho. destruct o; simpl.
  - apply frame_heap.
  - apply frame_addStub.
  - destruct (Ho obj method args eq_refl).
  - apply frame_freeProxy.
  - apply frame_invoke_free.
  - apply frame_handleMessage.
  - apply frame_handleCall_resume.
  - apply frame_on_error.
  - apply frame_on_end.
  - apply frame_on_close.
Qed.

End frame.

#[export] Instance R_mono_preorder : PreOrder R_mono.
Proof.
  split.
  - intros st. unfold R_mono. auto.
  - intros st1 st2 st3 (?&?&?) (?&?&?). unfold R_mono.
    split; [congruence | lia].
Qed.

#[export] Instance R_mono_frame : Frame R_mono.
Proof. split; try apply _; intros; unfold R_mono; simpl; auto. Qed.

#[export] Instance R_stuck_preorder : PreOrder R_stuck.
Proof.
  split.
  - intros st H. by split.
  - intros st1 st2 st3 H12 H23 H.
    destruct (H12 H) as [H2 Hw12]. destruct (H23 H2) as [H3 Hw23].
    split; [done|]. auto.
Qed.

#[export] Instance R_stuck_frame : Frame R_stuck.
Proof.
  split; try apply _; intros; unfold R_stuck; simpl; auto.
  intros HinCall. split; [done|].
  intros m [Hin|Hin%list_elem_of_singleton]%elem_of_app; [done|].
  by subst msg.
Qed.

#[export] Instance R_log_preorder : PreOrder R_log.
Proof.
  split.
  - intros st. unfold R_log. reflexivity.
  - intros st1 st2 st3 H12 H23. unfold R_log in *. by etrans.
Qed.

#[export] Instance R_log_frame : Frame R_log.
Proof.
  split; try apply _; intros; unfold R_log; simpl; try reflexivity.
  by apply prefix_app_r.
Qed.

#[export] Instance R_marshal_preorder : PreOrder R_marshal.
Proof.
  split.
  - intros st. split; auto; reflexivity.
  - intros st1 st2 st3 H12 H23.
    split.
    1-8: etrans; [eapply H23 | eapply H12].
    + etrans; [eapply H12 | eapply H23].
    + intros Hc. rewrite (rm_wire _ _ H23), (rm_wire _ _ H12); auto.
      by rewrite (rm_inCall _ _ H12).
    + etrans; [eapply H12 | eapply H23].
Qed.

Lemma exec_mono o st : R_mono st (exec o st).
Proof.
  destruct (o) as [| | obj method args | | | | | | |] eqn:Ho;
    try (rewrite <- Ho; apply (frame_exec R_mono); intros; subst; discriminate).
  apply (frame_call R_mono); intros; unfold R_mono; simpl; auto.
Qed.

Lemma run_mono ops st : R_mono st (run ops st).
Proof.
  revert st. induction ops as [|o ops IH]; intros st; simpl.
  - reflexivity.
  - etrans; [apply exec_mono | apply IH].
Qed.

Lemma exec_log o st : R_log st (exec o st).
Proof.
  destruct (o) as [| | obj method args | | | | | | |] eqn:Ho;
    try (rewrite <- Ho; apply (frame_exec R_log); intros; subst; discriminate).
  apply (frame_call R_log); intros; unfold R_log; simpl; reflexivity.
Qed.

Lemma run_log ops st : R_log st (run ops st).
Proof.
  revert st. induction ops as [|o ops IH]; intros st; simpl.
  - reflexivity.
  - etrans; [apply exec_log | apply IH].
Qed.

(** The first test of [call]. *)
Lemma call_reentrant obj method args st :
  _inCall st = true →
  call obj method args st =
    Throw (TypeError "Re-entrant calls are not supported") st.
Proof. intros H. unfold call, bind, get_state. rewrite H. reflexivity. Qed.

Lemma exec_stuck o st : R_stuck st (exec o st).
Proof.
  destruct (o) as [| | obj method args | | | | | | |] eqn:Ho;
    try (rewrite <- Ho; apply (frame_exec R_stuck); intros; subst; discriminate).
  intros H. simpl. rewrite call_reentrant by exact H. by split.
Qed.

Lemma run_stuck ops st : R_stuck st (run ops st).
Proof.
  revert st. induction ops as [|o ops IH]; intros st; simpl.
  - reflexivity.
  - etrans; [apply exec_stuck | apply IH].
Qed.

Lemma sendMetadata_marshal stub : preserves R_marshal (_sendMetadata stub).
Proof.
  intros st. unfold _sendMetadata, bind, get_state, socket_write, modify.
  destruct (_inCall st) eqn:HinCall; simpl; split; simpl; auto;
    try done; try congruence.
  by apply prefix_app_r.
Qed.

Lemma addStub_marshal obj : preserves R_marshal (addStub obj).
Proof.
  unfold addStub, make_free.
  repeat first
    [ apply sendMetadata_marshal
    | preserves_step
    | apply preserves_modify; preorder_goal; intros ?; split; simpl; auto;
      try done; set_solver ].
Qed.

Lemma marshalArgument_marshal arg : preserves R_marshal (_marshalArgument arg).
Proof. apply preserves_marshalArgument; [apply _ | apply addStub_marshal]. Qed.

Lemma mapM_marshalArgument_marshal args :
  preserves R_marshal (mapM _marshalArgument args).
Proof.
  apply preserves_mapM; [apply _|]. apply Forall_forall. intros arg _.
  apply marshalArgument_marshal.
Qed.

Lemma addStub_from_marshal_ok obj st methods :
  rpcMethods_of (heap st) obj = Some methods →
  ∃ id st', addStub obj st = Ret id st'.
Proof.
  intros Hm. unfold addStub, bind, get_state. simpl.
  destruct (_knownStubs st !! obj) as [stub|].
  - destruct (_knownStubIds st !! stub_rpcId stub); simpl.
    + eauto.
    + unfold _sendMetadata, bind, get_state, modify, socket_write. simpl.
      destruct (_inCall st); simpl; eauto.
  - rewrite Hm. unfold _sendMetadata, bind, get_state, modify, socket_write,
      make_free. simpl.
    destruct (_inCall st); simpl; eauto.
Qed.

Lemma marshalArgument_throws arg :
  ∀ st e st', _marshalArgument arg st = Throw e st' → is_invalid_object st e.
Proof.
  induction arg as [| | b | n | s | xs IH | r | id] using value_ind;
    intros st e st' H; try discriminate.
  - simpl in H. unfold bind in H.
    destruct (mapM _marshalArgument xs st) as [ys st1|e1 st1] eqn:Hxs;
      [discriminate|]. injection H as -> ->.
    clear -IH Hxs. revert st Hxs.
    induction IH as [|x xs Hx _ IHxs]; intros st Hxs; [discriminate|].
    simpl in Hxs. unfold bind in Hxs.
    destruct (_marshalArgument x st) as [y st1|e1 st1] eqn:Hy.
    + destruct (mapM _marshalArgument xs st1) as [ys st2|e2 st2] eqn:Hys;
        [discriminate|]. injection Hxs as -> ->.
      destruct (IHxs _ Hys) as (rpcId & Hnone & ->).
      exists rpcId. split; [|done].
      pose proof (marshalArgument_marshal x st) as Hm.
      rewrite Hy in Hm. simpl in Hm. by rewrite <- (rm_knownProxies _ _ Hm).
    + injection Hxs as -> ->. eapply Hx, Hy.
  - simpl in H. unfold bind, get_state in H.
    destruct (heap st !! r ≫= o_rpcId) as [rpcId|].
    + destruct (_knownProxies st !! rpcId) eqn:Hp; [discriminate|].
      injection H as <- <-. by exists rpcId.
    + destruct (rpcMethods_of (heap st) r) as [methods|] eqn:Hm; [|discriminate].
      destruct (addStub_from_marshal_ok r st methods Hm) as (i & st1 & Hadd).
      rewrite Hadd in H. discriminate.
  - simpl in H. unfold bind, get_state in H. simpl in H.
    destruct (_knownProxies st !! id) eqn:Hp; [discriminate|].
    injection H as <- <-. by exists id.
Qed.

Lemma mapM_marshalArgument_throws args :
  ∀ st e st',
    mapM _marshalArgument args st = Throw e st' → is_invalid_object st e.
Proof.
  intros st e st' H.
  apply (marshalArgument_throws (VArray args) st e st').
  simpl. unfold bind. by rewrite H.
Qed.

(** ** The two halves of an outbound call *)

Lemma iterM_socket_write objs st :
  iterM (λ obj, socket_write (MNewObject obj)) objs st =
    Ret () (set_wire (wire st ++ (MNewObject <$> objs)) st).
Proof.
  revert st. induction objs as [|obj objs IH]; intros st; simpl.
  - unfold ret. rewrite app_nil_r. by destruct st.
  - unfold bind, socket_write, modify. rewrite IH. simpl.
    by rewrite <- app_assoc.
Qed.

Lemma call_unfold obj method args st :
  _inCall st = false → _ended st = false →
  call obj method args st =
    match mapM _marshalArgument args (set_inCall true st) with
    | Ret marshalled st1 =>
        Ret (PromisePending (_callId st1)) (call_commit obj method marshalled st1)
    | Throw e st1 => Throw e st1
    end.
Proof.
  intros HinCall Hended. unfold call, bind, get_state. rewrite HinCall, Hended.
  unfold modify at 1.
  destruct (mapM _marshalArgument args (set_inCall true st)) as [ys st1|e st1];
    [|reflexivity].
  rewrite iterM_socket_write. unfold modify, socket_write, ret, call_commit.
  simpl. rewrite <- app_assoc. reflexivity.
Qed.

Lemma call_closed obj method args st :
  _inCall st = false → _ended st = true →
  call obj method args st = Ret (PromiseRejected SocketClosedError) st.
Proof.
  intros HinCall Hended. unfold call, bind, get_state.
  by rewrite HinCall, Hended.
Qed.

(** With [_inCall] clear, [call] throws only out of the marshaller. *)
Lemma call_throw_inv obj method args st e st1 :
  _inCall st = false →
  call obj method args st = Throw e st1 →
  _ended st = false ∧
  mapM _marshalArgument args (set_inCall true st) = Throw e st1.
Proof.
  intros HinCall Hcall. destruct (_ended st) eqn:Hended.
  - rewrite call_closed in Hcall by done. discriminate.
  - split; [done|]. rewrite call_unfold in Hcall by done.
    destruct (mapM _marshalArgument args (set_inCall true st));
      [discriminate | by injection Hcall as -> ->].
Qed.

(** * Invariants of the endpoint *)

Lemma sendMetadata_eq stub st :
  _sendMetadata stub st =
    Ret () (announce {| n_obj := stub_rpcId stub;
                        n_methods := stub_methods stub |} st).
Proof.
  unfold _sendMetadata, announce, bind, get_state, modify, socket_write.
  by destruct (_inCall st).
Qed.

#[export] Instance R_inv_preorder : PreOrder R_inv.
Proof.
  split.
  - intros st H. exact H.
  - intros st1 st2 st3 H12 H23 H. auto.
Qed.

Lemma inv_new sid h : inv (RpcSocket_new sid h).
Proof.
  split; simpl; try done.
  - by intros call ?%elem_of_nil.
  - constructor.
Qed.

Lemma inv_set_knownProxies x st : inv st → inv (set_knownProxies x st).
Proof. intros []. by split. Qed.

Lemma inv_set_ended x st : inv st → inv (set_ended x st).
Proof. intros []. by split. Qed.

Lemma inv_set_emitted x st : inv st → inv (set_emitted x st).
Proof. intros []. by split. Qed.

Lemma inv_set_inCall_true st : inv st → inv (set_inCall true st).
Proof. intros []. by split. Qed.

Lemma inv_wire_app l st : inv st → inv (set_wire (wire st ++ l) st).
Proof.
  intros []. split; simpl; try done.
  intros id obj Hid. destruct (inv_announced0 id obj Hid) as (m & Hm & [Hw|Hq]).
  - exists m. split; [done|]. left. apply elem_of_app. by left.
  - exists m. split; [done|]. by right.
Qed.

Lemma inv_heap_app l st : inv st → inv (set_heap (heap st ++ l) st).
Proof.
  intros []. split; simpl; try done.
  intros obj stub Hs. destruct (inv_free0 obj stub Hs) as (o & prev & Ho & Hf).
  exists o, prev. split; [|done]. by apply lookup_app_l_Some.
Qed.

Lemma inv_ids_delete id st :
  inv st → inv (set_knownStubIds (delete id (_knownStubIds st)) st).
Proof.
  intros []. split; simpl; try done.
  - intros id' obj [_ Hid]%lookup_delete_Some. eauto.
  - intros id' obj [_ Hid]%lookup_delete_Some. eauto.
Qed.

(** Installing the id of a registered object and announcing it. *)
Lemma inv_install st obj stub methods :
  inv st → _knownStubs st !! obj = Some stub →
  inv (announce {| n_obj := stub_rpcId stub; n_methods := methods |}
         (set_knownStubIds (<[stub_rpcId stub := obj]> (_knownStubIds st)) st)).
Proof.
  intros [] Hs. unfold announce. simpl.
  destruct (_inCall st) eqn:HinCall; split; simpl; try done; try congruence.
  - intros id obj' [[<- <-]|[_ Hid]]%lookup_insert_Some.
    + by exists stub.
    + by apply inv_ids0.
  - intros id obj' [[<- <-]|[_ Hid]]%lookup_insert_Some.
    + exists {| n_obj := stub_rpcId stub; n_methods := methods |}.
      split; [done|]. right. apply elem_of_app. right. apply list_elem_of_singleton. done.
    + destruct (inv_announced0 id obj' Hid) as (m & Hm & [Hw|Hq]);
        exists m; (split; [done|]); [by left|].
      right. apply elem_of_app. by left.
  - intros id obj' [[<- <-]|[_ Hid]]%lookup_insert_Some.
    + by exists stub.
    + by apply inv_ids0.
  - intros id obj' [[<- <-]|[_ Hid]]%lookup_insert_Some.
    + exists {| n_obj := stub_rpcId stub; n_methods := methods |}.
      split; [done|]. left. apply elem_of_app. right. apply list_elem_of_singleton. done.
    + destruct (inv_announced0 id obj' Hid) as (m & Hm & [Hw|Hq]);
        exists m; (split; [done|]); [|by right].
      left. apply elem_of_app. by left.
  - auto.
Qed.

Lemma fresh_id_ne sid cnt cnt' :
  (cnt' < cnt)%nat → sid +:+ pretty cnt' ≠ sid +:+ pretty cnt.
Proof.
  intros Hlt Heq. apply String.app_inj in Heq.
  apply (inj pretty) in Heq. lia.
Qed.

Lemma inv_register st obj methods :
  inv st → _knownStubs st !! obj = None →
  rpcMethods_of (heap st) obj = Some methods →
  inv (register obj methods st).
Proof.
  intros [] Hnone Hm. unfold register, make_free, modify. simpl.
  split; simpl; try done.
  - intros id obj' Hid. destruct (inv_ids0 id obj' Hid) as (stub & Hs & Hrpc).
    exists stub. split; [|done]. rewrite lookup_insert_ne; [done|].
    intros <-. congruence.
  - intros obj' stub [[<- <-]|[_ Hs]]%lookup_insert_Some.
    + exists (_stubCnt st). split; [lia|done].
    + destruct (inv_alloc0 obj' stub Hs) as (cnt & Hlt & Hrpc).
      exists cnt. split; [lia|done].
  - intros obj1 obj2 stub1 stub2
      [[<- <-]|[Hne1 Hs1]]%lookup_insert_Some
      [[<- <-]|[Hne2 Hs2]]%lookup_insert_Some Heq; simpl in *; try done.
    + destruct (inv_alloc0 obj2 stub2 Hs2) as (cnt & Hlt & Hrpc).
      rewrite Hrpc in Heq. symmetry in Heq. by apply fresh_id_ne in Heq.
    + destruct (inv_alloc0 obj1 stub1 Hs1) as (cnt & Hlt & Hrpc).
      rewrite Hrpc in Heq. by apply fresh_id_ne in Heq.
    + eauto.
  - intros obj' stub [[<- <-]|[Hne Hs]]%lookup_insert_Some; simpl.
    + unfold rpcMethods_of in Hm.
      destruct (heap st !! obj) as [o|] eqn:Ho; [|done].
      rewrite list_lookup_alter_eq, Ho. simpl.
      destruct (o_free o) as [prev|]; eauto.
    + rewrite list_lookup_alter_ne by done. eauto.
Qed.

Lemma addStub_unfold obj st :
  addStub obj st =
    match _knownStubs st !! obj with
    | Some stub =>
        match _knownStubIds st !! stub_rpcId stub with
        | Some _ => Ret (stub_rpcId stub) st
        | None =>
            Ret (stub_rpcId stub)
              (announce {| n_obj := stub_rpcId stub;
                           n_methods := stub_methods stub |}
                 (set_knownStubIds
                    (<[stub_rpcId stub := obj]> (_knownStubIds st)) st))
        end
    | None =>
        match rpcMethods_of (heap st) obj with
        | None => Throw (TypeError "Invalid stub object") st
        | Some methods =>
            let rpcId := _socketId st +:+ pretty (_stubCnt st) in
            Ret rpcId
              (announce {| n_obj := rpcId; n_methods := methods |}
                 (set_knownStubIds
                    (<[rpcId := obj]> (_knownStubIds (register obj methods st)))
                    (register obj methods st)))
        end
    end.
Proof.
  unfold addStub, bind, get_state. simpl.
  destruct (_knownStubs st !! obj) as [stub|].
  - destruct (_knownStubIds st !! stub_rpcId stub); [done|].
    unfold modify. by rewrite sendMetadata_eq.
  - destruct (rpcMethods_of (heap st) obj) as [methods|]; [|done].
    unfold modify, make_free. simpl. by rewrite sendMetadata_eq.
Qed.

Lemma addStub_inv obj : preserves R_inv (addStub obj).
Proof.
  intros st Hinv. rewrite addStub_unfold.
  destruct (_knownStubs st !! obj) as [stub|] eqn:Hs.
  - destruct (_knownStubIds st !! stub_rpcId stub); [done|]. simpl.
    by apply inv_install.
  - destruct (rpcMethods_of (heap st) obj) as [methods|] eqn:Hm; [|done].
    simpl.
    apply (inv_install (register obj methods st) obj
             {| stub_rpcId := _socketId st +:+ pretty (_stubCnt st);
                stub_object := obj; stub_methods := methods |}).
    + by apply inv_register.
    + unfold register. simpl. by rewrite lookup_insert_eq.
Qed.

Lemma marshalArgument_inv arg : preserves R_inv (_marshalArgument arg).
Proof. apply preserves_marshalArgument; [apply _ | apply addStub_inv]. Qed.

Lemma mapM_marshalArgument_inv args : preserves R_inv (mapM _marshalArgument args).
Proof.
  apply preserves_mapM; [apply _|]. apply Forall_forall. intros arg _.
  apply marshalArgument_inv.
Qed.

Lemma inv_call_commit obj method marshalled st1 :
  inv st1 → inv (call_commit obj method marshalled st1).
Proof.
  intros []. unfold call_commit. split; simpl; try done.
  - intros id obj' Hid.
    destruct (inv_announced0 id obj' Hid) as (m & Hm & [Hw|Hq]);
      exists m; (split; [done|]); left; apply elem_of_app.
    + by left.
    + right. apply elem_of_app. left. apply list_elem_of_fmap. by exists m.
  - intros id call [[<- <-]|[_ Hp]]%lookup_insert_Some.
    + split; [done|]. split; [lia|]. intros Hin%inv_settled0. lia.
    + destruct (inv_pending0 id call Hp) as (? & ? & ?).
      split; [done|]. split; [lia|done].
  - intros call Hin%inv_settled0. lia.
Qed.

Lemma call_inv obj method args : preserves R_inv (call obj method args).
Proof.
  intros st Hinv. destruct (_inCall st) eqn:HinCall.
  - by rewrite call_reentrant.
  - destruct (_ended st) eqn:Hended.
    + by rewrite call_closed.
    + rewrite call_unfold by done.
      pose proof (mapM_marshalArgument_inv args (set_inCall true st)
                    (inv_set_inCall_true st Hinv)) as Hinv1.
      destruct (mapM _marshalArgument args (set_inCall true st))
        as [marshalled st1|e st1]; simpl in *; [|done].
      by apply inv_call_commit.
Qed.

(** ** Settling promises *)

Lemma handleReply_unfold msg st :
  _handleReply msg st =
    Ret ()
      match r_id msg with
      | IdNum id =>
          match _pendingCalls st !! id with
          | Some call =>
              let st1 := set_pendingCalls (delete id (_pendingCalls st)) st in
              settle call (reply_settlement msg st1) st1
          | None => st
          end
      | _ => st
      end.
Proof.
  unfold _handleReply. destruct (r_id msg) as [| |id]; try done.
  unfold bind at 1. unfold get_state at 1.
  destruct (_pendingCalls st !! id) as [call|]; [|done].
  unfold bind at 1. unfold modify at 1. unfold try_catch, reply_settlement.
  set (st1 := set_pendingCalls _ st).
  destruct (truthy (r_error msg)); [done|].
  unfold bind.
  pose proof (unmarshalArgument_state (r_reply msg) st1) as Hst.
  destruct (_unmarshalArgument (r_reply msg) st1) as [v st2|e st2];
    simpl in Hst; by subst st2.
Qed.

Lemma inv_settle st id call s :
  inv st → _pendingCalls st !! id = Some call →
  inv (settle call s (set_pendingCalls (delete id (_pendingCalls st)) st)).
Proof.
  intros [] Hp. destruct (inv_pending0 id call Hp) as (-> & Hlt & Hnew).
  unfold settle. split; simpl; try done.
  - intros id' call' [Hne Hp']%lookup_delete_Some.
    destruct (inv_pending0 id' call' Hp') as (-> & Hlt' & Hnew').
    split; [done|]. split; [done|].
    rewrite fmap_app. simpl. intros [Hin|Hin%list_elem_of_singleton]%elem_of_app;
      [done|congruence].
  - intros call. rewrite fmap_app. simpl.
    intros [Hin|Hin%list_elem_of_singleton]%elem_of_app; [auto|by subst].
  - rewrite fmap_app. simpl. apply NoDup_app. split; [done|]. split.
    + intros call Hin Hin'%list_elem_of_singleton. by subst.
    + apply NoDup_singleton.
Qed.

Lemma handleReply_inv msg : preserves R_inv (_handleReply msg).
Proof.
  intros st Hinv. rewrite handleReply_unfold. simpl.
  destruct (r_id msg) as [| |id]; try done.
  destruct (_pendingCalls st !! id) as [call|] eqn:Hp; [|done].
  by apply inv_settle.
Qed.

Lemma iterM_reject err calls st :
  iterM (λ call, reject call err) calls st =
    Ret () (set_settled (settled st ++ ((λ call, (call, Rejected err)) <$> calls)) st).
Proof.
  revert st. induction calls as [|call calls IH]; intros st; simpl.
  - unfold ret. rewrite app_nil_r. by destruct st.
  - unfold bind, reject, modify. rewrite IH. simpl.
    by rewrite <- app_assoc.
Qed.

Lemma failAllCalls_unfold st :
  _failAllCalls st =
    Ret ()
      (set_pendingCalls ∅
         (set_settled
            (settled st ++
             ((λ call, (call, Rejected SocketClosedError)) <$> pending_resolvers st))
            st)).
Proof.
  unfold _failAllCalls, bind, get_state. by rewrite iterM_reject.
Qed.

Lemma pending_resolvers_spec st call :
  call ∈ pending_resolvers st ↔ ∃ id, _pendingCalls st !! id = Some call.
Proof.
  unfold pending_resolvers. rewrite list_elem_of_fmap. split.
  - intros ([id call'] & -> & Hin%elem_of_map_to_list). by exists id.
  - intros (id & Hp). exists (id, call). split; [done|].
    by apply elem_of_map_to_list.
Qed.

Lemma pending_resolvers_NoDup st : inv st → NoDup (pending_resolvers st).
Proof.
  intros Hinv. unfold pending_resolvers.
  assert ((map_to_list (_pendingCalls st)).*2 = (map_to_list (_pendingCalls st)).*1)
    as ->; [|apply NoDup_fst_map_to_list].
  apply list_fmap_ext. intros i [id call] Hin. simpl.
  apply list_elem_of_lookup_2, elem_of_map_to_list in Hin.
  by destruct (inv_pending st Hinv id call Hin) as (-> & _).
Qed.

Lemma fmap_fst_rejected err calls :
  ((λ call : PromiseResolver, (call, Rejected err)) <$> calls).*1 = calls.
Proof. rewrite <- list_fmap_compose. apply list_fmap_id. Qed.

Lemma failAllCalls_inv : preserves R_inv _failAllCalls.
Proof.
  intros st Hinv. rewrite failAllCalls_unfold. simpl.
  pose proof (pending_resolvers_NoDup st Hinv) as Hnodup.
  destruct Hinv. split; simpl; try done.
  - intros call. rewrite fmap_app, fmap_fst_rejected.
    intros [Hin|(id & Hp)%pending_resolvers_spec]%elem_of_app; [auto|].
    by destruct (inv_pending0 id call Hp) as (-> & ? & _).
  - rewrite fmap_app, fmap_fst_rejected. apply NoDup_app.
    split; [done|]. split; [|done].
    intros call Hin (id & Hp)%pending_resolvers_spec.
    by destruct (inv_pending0 id call Hp) as (-> & _ & ?).
Qed.

(** ** Every operation keeps the invariants *)

Create HintDb inv_pres discriminated.

#[export] Hint Resolve addStub_inv marshalArgument_inv call_inv
  handleReply_inv failAllCalls_inv : inv_pres.

Ltac inv_modify :=
  apply preserves_modify; preorder_goal; intros ? ?;
  first [ by apply inv_set_knownProxies | by apply inv_set_ended
        | by apply inv_set_emitted | by apply inv_ids_delete
        | by apply (inv_wire_app [_]) | by apply (inv_heap_app [_]) ].

Ltac inv_auto :=
  repeat first [ solve [auto 1 with inv_pres nocore] | preserves_step | inv_modify ].

Lemma socket_write_inv msg : preserves R_inv (socket_write msg).
Proof. unfold socket_write. inv_auto. Qed.
#[export] Hint Resolve socket_write_inv : inv_pres.

Lemma freeProxy_inv id : preserves R_inv (freeProxy id).
Proof. unfold freeProxy. inv_auto. Qed.
#[export] Hint Resolve freeProxy_inv : inv_pres.

Lemma handleCall_catch_inv id error : preserves R_inv (_handleCall_catch id error).
Proof. unfold _handleCall_catch. inv_auto. Qed.
#[export] Hint Resolve handleCall_catch_inv : inv_pres.

Lemma handleCall_inv msg : preserves R_inv (_handleCall msg).
Proof.
  unfold _handleCall, _handleCall_dispatch, Stub.get, Stub.set, Stub.call,
    Stub._validateCall.
  inv_auto.
Qed.
#[export] Hint Resolve handleCall_inv : inv_pres.

Lemma handleCall_resume_inv id c : preserves R_inv (_handleCall_resume id c).
Proof. unfold _handleCall_resume, _handleCall_reply. inv_auto. Qed.

Lemma handleFree_inv msg : preserves R_inv (_handleFree msg).
Proof. unfold _handleFree. inv_auto. Qed.
#[export] Hint Resolve handleFree_inv : inv_pres.

Lemma handleMessage_inv msg : preserves R_inv (_handleMessage msg).
Proof. unfold _handleMessage, RpcProxy_new. inv_auto. Qed.

Lemma run_free_inv f : ∀ bound, preserves R_inv (run_free bound f).
Proof.
  induction f as [| id | id prev IH] using free_fn_ind; intros bound; simpl.
  - inv_auto.
  - inv_auto.
  - apply preserves_bind; preorder_goal; [inv_auto | intros _].
    destruct IH as [|prev_free IH]; [inv_auto | apply IH].
Qed.
#[export] Hint Resolve run_free_inv : inv_pres.

Lemma invoke_free_inv obj : preserves R_inv (invoke_free obj).
Proof. unfold invoke_free. inv_auto. Qed.

Lemma on_error_inv err : preserves R_inv (on_error err).
Proof. unfold on_error, emit. inv_auto. Qed.

Lemma on_end_inv : preserves R_inv on_end.
Proof. unfold on_end, emit. inv_auto. Qed.

Lemma on_close_inv hadError : preserves R_inv (on_close hadError).
Proof. unfold on_close, emit. inv_auto. Qed.

Lemma exec_inv o st : inv st → inv (exec o st).
Proof.
  intros Hinv. destruct o; simpl.
  - by apply (inv_heap_app [_]).
  - by apply addStub_inv.
  - by apply call_inv.
  - by apply freeProxy_inv.
  - by apply invoke_free_inv.
  - by apply handleMessage_inv.
  - by apply handleCall_resume_inv.
  - by apply on_error_inv.
  - by apply on_end_inv.
  - by apply on_close_inv.
Qed.

Lemma run_inv ops st : inv st → inv (run ops st).
Proof.
  revert st. induction ops as [|o ops IH]; intros st Hinv; simpl.
  - exact Hinv.
  - apply IH, exec_inv, Hinv.
Qed.

Lemma reachable_inv st : reachable st → inv st.
Proof.
  induction 1 as [sid h|o st _ IH].
  - apply inv_new.
  - by apply exec_inv.
Qed.

Lemma reachable_run ops st : reachable st → reachable (run ops st).
Proof.
  revert st. induction ops as [|o ops IH]; intros st Hst; simpl.
  - exact Hst.
  - apply IH. by constructor.
Qed.

(** ** A promise is settled at most once *)

Lemma filter_settled_absent (l : list (PromiseResolver * settlement)) call :
  call ∉ l.*1 → filter (λ p, p.1 = call) l = [].
Proof.
  induction l as [|[call' s'] l IH]; [done|]. simpl.
  intros Hnotin. rewrite filter_cons. simpl.
  destruct (decide (call' = call)) as [->|Hne].
  - exfalso. apply Hnotin. by left.
  - apply IH. intros Hin. apply Hnotin. by right.
Qed.

Lemma settled_once (l : list (PromiseResolver * settlement)) call s :
  NoDup l.*1 → (call, s) ∈ l → filter (λ p, p.1 = call) l = [(call, s)].
Proof.
  induction l as [|[call' s'] l IH]; intros Hnodup Hin.
  - by apply elem_of_nil in Hin.
  - simpl in Hnodup. apply NoDup_cons in Hnodup as [Hnotin Hnodup].
    rewrite filter_cons. simpl.
    apply elem_of_cons in Hin as [[= <- <-]|Hin].
    + rewrite decide_True by done. f_equal. by apply filter_settled_absent.
    + rewrite decide_False; [by apply IH|].
      intros ->. apply Hnotin. apply list_elem_of_fmap. by exists (call, s).
Qed.

(** Once a resolver has been invoked, the record of its settlements never
    changes again. *)
Lemma settled_forever st call s ops :
  reachable st → (call, s) ∈ settled st →
  filter (λ p, p.1 = call) (settled (run ops st)) = [(call, s)].
Proof.
  intros Hst Hin. apply settled_once.
  - apply inv_settled_once, run_inv, reachable_inv, Hst.
  - destruct (run_log ops st) as [l ->]. apply elem_of_app. by left.
Qed.

Lemma on_error_unfold err st :
  on_error err st =
    Ret ()
      (set_emitted (emitted st ++ [EvError err])
         (set_pendingCalls ∅
            (set_settled
               (settled st ++
                ((λ call, (call, Rejected SocketClosedError)) <$>
                   pending_resolvers st))
               st))).
Proof. unfold on_error, bind. by rewrite failAllCalls_unfold. Qed.

(** ** Names and arities of inbound calls *)

Lemma substring_0_length s : String.substring 0 (String.length s) s = s.
Proof. induction s as [|a s IH]; simpl; [done|]. by rewrite IH. Qed.

(** A method that starts with a four-character prefix is that prefix
    followed by [substr(4)]. *)
Lemma substr_split method :
  String.length (substr_0_4 method) = 4 →
  substr_0_4 method +:+ substr_4 method = method.
Proof.
  unfold substr_0_4, substr_4.
  destruct method as [|a1 [|a2 [|a3 [|a4 rest]]]]; try discriminate.
  intros _. simpl.
  assert (String.substring 0 0 rest = "") as -> by by destruct rest.
  simpl. by rewrite Nat.sub_0_r, substring_0_length.
Qed.

Lemma get_name_split method :
  substr_0_4 method = "get " → "get " +:+ substr_4 method = method.
Proof. intros H. rewrite <- H at 1. apply substr_split. by rewrite H. Qed.

Lemma validateCall_ok stub method st :
  method ∈ stub_methods stub → Stub._validateCall stub method st = Ret () st.
Proof. intros H. unfold Stub._validateCall. by rewrite bool_decide_eq_true_2. Qed.

Lemma validateCall_fail stub method st :
  method ∉ stub_methods stub →
  Stub._validateCall stub method st =
    Throw (TypeError ("Invalid method " +:+ method)) st.
Proof. intros H. unfold Stub._validateCall. by rewrite bool_decide_eq_false_2. Qed.

(** ** Replies *)

Lemma reply_error_classified msg error :
  r_error msg = Some error → classified msg (reply_error msg error).
Proof.
  intros Herr. unfold classified, reply_error, with_stack, with_code.
  rewrite Herr.
  destruct (String.eqb_spec error "SyntaxError") as [->|Hs];
    [|destruct (String.eqb_spec error "TypeError") as [->|Ht]];
    destruct (r_code msg), (truthy (r_stack msg)); simpl;
    repeat split; intros; simplify_eq; done.
Qed.

(** ** Releasing a stub *)

#[export] Instance R_release_preorder : PreOrder R_release.
Proof.
  split.
  - intros st. by split.
  - intros st1 st2 st3 [H12 H12'] [H23 H23']. split; [congruence|auto].
Qed.

Lemma run_free_release f : ∀ bound, preserves R_release (run_free bound f).
Proof.
  assert (∀ id, preserves R_release
            (modify (λ st, set_knownStubIds (delete id (_knownStubIds st)) st)))
    as Hdel.
  { intros id st. split; simpl; [done|].
    intros id' Hnone. apply lookup_delete_None. by right. }
  induction f as [| id | id prev IH] using free_fn_ind; intros bound; simpl.
  - apply preserves_ret; apply _.
  - destruct bound; [|apply preserves_throw; apply _].
    unfold freeProxy, socket_write.
    repeat first
      [ preserves_step
      | apply preserves_modify; preorder_goal; intros ?; by split ].
  - apply preserves_bind; preorder_goal; [apply Hdel | intros _].
    destruct IH as [|prev_free IH]; [apply preserves_ret; apply _ | apply IH].
Qed.

(** [obj.$free()] on a registered object takes its id out of the id map. *)
Lemma invoke_free_releases st obj stub :
  inv st → _knownStubs st !! obj = Some stub →
  _knownStubs (final_state (invoke_free obj st)) = _knownStubs st ∧
  _knownStubIds (final_state (invoke_free obj st)) !! stub_rpcId stub = None.
Proof.
  intros Hinv Hs.
  destruct (inv_free st Hinv obj stub Hs) as (o & prev & Ho & Hfree).
  unfold invoke_free, bind, get_state. rewrite Ho. simpl. rewrite Hfree.
  simpl. unfold bind, modify. simpl.
  set (st1 := set_knownStubIds _ st).
  assert (_knownStubIds st1 !! stub_rpcId stub = None) as Hgone
    by apply lookup_delete_eq.
  destruct prev as [prev_free|]; [|done].
  destruct (run_free_release prev_free false st1) as [Hstubs Hids].
  destruct (run_free false prev_free st1) as [[] st2|e st2]; simpl in *; auto.
Qed.

(** ** Values that cross the wire and come back *)

#[export] Instance ext_preorder : PreOrder ext.
Proof.
  split.
  - intros st. by split.
  - intros st1 st2 st3 [] []. split; try congruence. by etrans.
Qed.

Lemma round_trip_value_ext st st' v :
  ext st st' → round_trip_value st' v = round_trip_value st v.
Proof.
  intros [Hheap Hstubs Hproxies _].
  induction v as [| | b | n | s | xs IH | r | id] using value_ind; try done.
  - simpl. induction IH as [|x xs Hx _ IHxs]; [done|]. simpl.
    by rewrite Hx, IHxs.
  - simpl. by rewrite Hheap, Hstubs, Hproxies.
Qed.

Lemma registries_disjoint_ext st st' :
  ext st st' → registries_disjoint st → registries_disjoint st'.
Proof.
  intros [_ Hstubs Hproxies _]. unfold registries_disjoint.
  by rewrite Hstubs, Hproxies.
Qed.

(** With the registries disjoint, an oid of the proxy registry is not in the
    id map. *)
Lemma proxy_id_not_stub st id proxy :
  inv st → registries_disjoint st →
  _knownProxies st !! id = Some proxy → _knownStubIds st !! id = None.
Proof.
  intros Hinv Hdisj Hp.
  destruct (_knownStubIds st !! id) as [obj|] eqn:Hid; [|done].
  destruct (inv_ids st Hinv id obj Hid) as (stub & Hs & <-).
  apply (map_Forall_lookup_1 _ _ _ _ Hdisj) in Hs. simpl in Hs. congruence.
Qed.

Lemma unmarshal_marker_stub st id obj :
  _knownStubIds st !! id = Some obj →
  _unmarshalArgument (VMarker id) st = Ret (VObj obj) st.
Proof. intros H. simpl. unfold bind, get_state. simpl. by rewrite H. Qed.

Lemma unmarshal_marker_proxy st id proxy :
  _knownStubIds st !! id = None → _knownProxies st !! id = Some proxy →
  _unmarshalArgument (VMarker id) st = Ret (VObj proxy) st.
Proof.
  intros Hid Hp. simpl. unfold bind, get_state. simpl. by rewrite Hid, Hp.
Qed.

Lemma mapM_round_trips xs :
  Forall (λ v, ∀ st, inv st → registries_disjoint st →
                     round_trip_value st v = true → round_trips st v) xs →
  ∀ st, inv st → registries_disjoint st →
        forallb (round_trip_value st) xs = true →
        ∃ ws st',
          mapM _marshalArgument xs st = Ret ws st' ∧ ext st st' ∧ inv st' ∧
          ∀ st'', ext st' st'' → inv st'' → registries_disjoint st'' →
                  mapM _unmarshalArgument ws st'' = Ret xs st''.
Proof.
  induction 1 as [|x xs Hx _ IH]; intros st Hinv Hdisj Hok; simpl.
  - exists [], st. split; [done|]. split; [reflexivity|]. by split.
  - simpl in Hok. apply andb_true_iff in Hok as [Hokx Hokxs].
    destruct (Hx st Hinv Hdisj Hokx) as (w & st1 & Hw & Hext1 & Hinv1 & Hback1).
    destruct (IH st1 Hinv1 (registries_disjoint_ext _ _ Hext1 Hdisj))
      as (ws & st2 & Hws & Hext2 & Hinv2 & Hback2).
    { pose proof (round_trip_value_ext st st1 (VArray xs) Hext1) as Hxs.
      simpl in Hxs. by rewrite Hxs. }
    exists (w :: ws), st2. unfold bind. rewrite Hw, Hws.
    split; [done|]. split; [by etrans|]. split; [done|].
    intros st'' Hext'' Hinv'' Hdisj''. simpl. unfold bind.
    rewrite (Hback1 st'') by (done || by etrans).
    by rewrite (Hback2 st'').
Qed.

Lemma marshal_round_trips v :
  ∀ st, inv st → registries_disjoint st →
        round_trip_value st v = true → round_trips st v.
Proof.
  induction v as [| | b | n | s | xs IH | r | id] using value_ind;
    intros st Hinv Hdisj Hok; try done;
    try (eexists _, st; split; [done|]; split; [reflexivity|]; by split).
  - destruct (mapM_round_trips xs IH st Hinv Hdisj Hok)
      as (ws & st' & Hws & Hext & Hinv' & Hback).
    exists (VArray ws), st'. simpl. unfold bind. rewrite Hws.
    split; [done|]. split; [done|]. split; [done|].
    intros st'' Hext'' Hinv'' Hdisj''. simpl. unfold bind.
    by rewrite (Hback st'').
  - simpl in Hok. destruct (heap st !! r) as [o|] eqn:Ho; [|done].
    destruct (o_rpcId o) as [id|] eqn:Hid.
    + (* a proxy *)
      apply bool_decide_eq_true in Hok.
      exists (VMarker id), st. simpl. unfold bind, get_state. rewrite Ho. simpl.
      rewrite Hid, Hok. split; [done|]. split; [reflexivity|]. split; [done|].
      intros st'' Hext'' Hinv'' Hdisj''.
      assert (_knownProxies st'' !! id = Some r) as Hp
        by by rewrite (ext_knownProxies _ _ Hext'').
      apply unmarshal_marker_proxy; [|done].
      by eapply proxy_id_not_stub.
    + destruct (o_rpcMethods o) as [methods|] eqn:Hm.
      * (* a registered stubbable object *)
        apply bool_decide_eq_true in Hok as [stub Hs].
        assert (∃ st', addStub r st = Ret (stub_rpcId stub) st' ∧ ext st st' ∧
                       inv st' ∧ _knownStubIds st' !! stub_rpcId stub = Some r)
          as (st' & Hadd & Hext & Hinv' & Hlive).
        { rewrite addStub_unfold, Hs.
          destruct (_knownStubIds st !! stub_rpcId stub) as [obj|] eqn:Hlive.
          - exists st. split; [done|]. split; [reflexivity|]. split; [done|].
            destruct (inv_ids st Hinv _ _ Hlive) as (stub' & Hs' & Heq).
            by rewrite (inv_inj st Hinv obj r stub' stub Hs' Hs Heq) in Hlive.
          - eexists. split; [done|]. split; [|split].
            + unfold announce. simpl.
              destruct (_inCall st); split; simpl; try done;
                by apply insert_subseteq.
            + by apply inv_install.
            + unfold announce. simpl. destruct (_inCall st); simpl;
                apply lookup_insert_eq. }
        exists (VMarker (stub_rpcId stub)), st'.
        simpl. unfold bind, get_state. rewrite Ho. simpl.
        rewrite Hid. unfold rpcMethods_of. rewrite Ho. simpl. rewrite Hm, Hadd.
        split; [done|]. split; [done|]. split; [done|].
        intros st'' Hext'' Hinv'' Hdisj''. apply unmarshal_marker_stub.
        by apply (lookup_weaken _ _ _ _ Hlive), ext_knownStubIds.
      * (* plain data *)
        exists (VObj r), st. simpl. unfold bind, get_state. rewrite Ho. simpl.
        rewrite Hid. unfold rpcMethods_of. rewrite Ho. simpl. rewrite Hm.
        split; [done|]. split; [reflexivity|]. split; [done|].
        intros st'' Hext'' Hinv'' Hdisj''.
        rewrite (ext_heap _ _ Hext''), Ho. simpl. by rewrite Hid.
Qed.

Lemma marshal_plain_data v :
  ∀ st, plain_data st v = true → _marshalArgument v st = Ret v st.
Proof.
  induction v as [| | b | n | s | xs IH | r | id] using value_ind;
    intros st Hok; try done.
  - simpl. unfold bind.
    assert (mapM _marshalArgument xs st = Ret xs st) as ->; [|done].
    simpl in Hok. induction IH as [|x xs Hx _ IHxs]; [done|]. simpl.
    simpl in Hok. apply andb_true_iff in Hok as [Hokx Hokxs].
    unfold bind. by rewrite Hx, IHxs.
  - simpl in *. unfold bind, get_state. simpl. unfold rpcMethods_of.
    destruct (heap st !! r) as [o|]; [|done]. simpl.
    by destruct (o_rpcId o), (o_rpcMethods o).
Qed.

(** ** Announcements and the call frame *)

#[export] Instance R_queue_preorder : PreOrder R_queue.
Proof.
  split.
  - intros st HinCall. split; [done|]. split; [done|].
    intros id Hnone [obj Hsome]. congruence.
  - intros st1 st2 st3 H12 H23 HinCall.
    destruct (H12 HinCall) as (HinCall2 & Hpre12 & Hq12).
    destruct (H23 HinCall2) as (HinCall3 & Hpre23 & Hq23).
    split; [done|]. split; [by etrans|].
    intros id Hnone Hsome.
    destruct (_knownStubIds st2 !! id) as [obj|] eqn:Hid2.
    + destruct (Hq12 id Hnone) as (m & Hin & Hm); [by eexists|].
      exists m. split; [|done]. destruct Hpre23 as [l ->].
      apply elem_of_app. by left.
    + by apply Hq23.
Qed.

Lemma addStub_queue obj : preserves R_queue (addStub obj).
Proof.
  intros st HinCall. rewrite addStub_unfold.
  destruct (_knownStubs st !! obj) as [stub|].
  - destruct (_knownStubIds st !! stub_rpcId stub) eqn:Hid; simpl.
    + by apply (reflexivity (R:=R_queue)).
    + unfold announce. simpl. rewrite HinCall. simpl.
      split; [done|]. split; [by apply prefix_app_r|].
      intros id Hnone [obj' [[<- <-]|[_ Hsome]]%lookup_insert_Some];
        [|congruence].
      eexists. split; [apply elem_of_app; right; by left|done].
  - destruct (rpcMethods_of (heap st) obj) as [methods|]; simpl.
    + unfold announce, register. simpl. rewrite HinCall. simpl.
      split; [done|]. split; [by apply prefix_app_r|].
      intros id Hnone [obj' [[<- <-]|[_ Hsome]]%lookup_insert_Some];
        [|congruence].
      eexists. split; [apply elem_of_app; right; by left|done].
    + by apply (reflexivity (R:=R_queue)).
Qed.

Lemma mapM_marshalArgument_queue args :
  preserves R_queue (mapM _marshalArgument args).
Proof.
  apply preserves_mapM; [apply _|]. apply Forall_forall. intros arg _.
  apply preserves_marshalArgument; [apply _ | apply addStub_queue].
Qed.

Lemma addStub_installs obj st id st' :
  addStub obj st = Ret id st' → is_Some (_knownStubIds st' !! id).
Proof.
  rewrite addStub_unfold. intros Hadd.
  destruct (_knownStubs st !! obj) as [stub|].
  - destruct (_knownStubIds st !! stub_rpcId stub) eqn:Hid.
    + injection Hadd as <- <-. by eexists.
    + injection Hadd as <- <-. unfold announce. simpl.
      destruct (_inCall st); simpl; rewrite lookup_insert_eq; by eexists.
  - destruct (rpcMethods_of (heap st) obj) as [methods|]; [|done].
    injection Hadd as <- <-. unfold announce. simpl.
    destruct (_inCall st); simpl; rewrite lookup_insert_eq; by eexists.
Qed.

Lemma oids_known_later st st1 st2 w :
  R_marshal st1 st2 → oids_known st st1 w → oids_known st st2 w.
Proof.
  intros Hm Hw id Hin. destruct (Hw id Hin) as [Hp|Hs]; [by left|right].
  apply elem_of_dom. apply (rm_knownStubIds _ _ Hm). by apply elem_of_dom.
Qed.

Lemma oids_known_earlier st0 st1 st' w :
  R_marshal st0 st1 → oids_known st1 st' w → oids_known st0 st' w.
Proof.
  intros Hm Hw id Hin. destruct (Hw id Hin) as [Hp|Hs]; [left|by right].
  by rewrite <- (rm_knownProxies _ _ Hm).
Qed.

Lemma marshalArgument_oids arg :
  ∀ st w st', _marshalArgument arg st = Ret w st' → oids_known st st' w.
Proof.
  induction arg as [| | b | n | s | xs IH | r | id] using value_ind;
    intros st w st' Hw;
    try (injection Hw as <- <-; by intros id' Hin%elem_of_nil).
  - simpl in Hw. unfold bind in Hw.
    destruct (mapM _marshalArgument xs st) as [ws st1|e st1] eqn:Hws;
      [|discriminate].
    injection Hw as <- <-. revert st ws st1 Hws.
    induction IH as [|x xs Hx _ IHxs]; intros st ws st2 Hws.
    + injection Hws as <- <-. by intros id' Hin%elem_of_nil.
    + simpl in Hws. unfold bind in Hws.
      destruct (_marshalArgument x st) as [w st1|e st1] eqn:Hw; [|discriminate].
      destruct (mapM _marshalArgument xs st1) as [ws' st2'|e st2'] eqn:Hws';
        [|discriminate].
      injection Hws as <- <-.
      pose proof (marshalArgument_marshal x st) as Hm1.
      rewrite Hw in Hm1. simpl in Hm1.
      pose proof (mapM_marshalArgument_marshal xs st1) as Hm2.
      rewrite Hws' in Hm2. simpl in Hm2.
      intros id' Hin. simpl in Hin. apply elem_of_app in Hin as [Hin|Hin].
      * by apply (oids_known_later st st1 st2' w Hm2 (Hx _ _ _ Hw)).
      * by apply (oids_known_earlier st st1 st2' (VArray ws') Hm1
                    (IHxs _ _ _ Hws')).
  - simpl in Hw. unfold bind, get_state in Hw.
    destruct (heap st !! r ≫= o_rpcId) as [rpcId|].
    + destruct (_knownProxies st !! rpcId) eqn:Hp; [|discriminate].
      injection Hw as <- <-. intros id' ->%list_elem_of_singleton.
      left. by eexists.
    + destruct (rpcMethods_of (heap st) r) as [methods|].
      * destruct (addStub r st) as [i st1|e st1] eqn:Hadd; [|discriminate].
        injection Hw as <- <-. intros id' ->%list_elem_of_singleton.
        right. by eapply addStub_installs.
      * injection Hw as <- <-. by intros id' Hin%elem_of_nil.
  - simpl in Hw. unfold bind, get_state in Hw. simpl in Hw.
    destruct (_knownProxies st !! id) eqn:Hp; [|discriminate].
    injection Hw as <- <-. intros id' ->%list_elem_of_singleton.
    left. by eexists.
Qed.

Lemma call_pending_inv obj method args st id st' :
  call obj method args st = Ret (PromisePending id) st' →
  _inCall st = false ∧ _ended st = false.
Proof.
  intros Hcall. destruct (_inCall st) eqn:HinCall.
  - by rewrite call_reentrant in Hcall.
  - destruct (_ended st) eqn:Hended; [|done].
    by rewrite call_closed in Hcall.
Qed.

(** ** Values without object references *)

Lemma prim_data_plain st v : prim_data v = true → plain_data st v = true.
Proof.
  induction v as [| | b | n | s | xs IH | r | id] using value_ind; try done.
  simpl. induction IH as [|x xs Hx _ IHxs]; [done|]. simpl.
  intros [Hokx Hokxs]%andb_true_iff. by rewrite Hx, IHxs.
Qed.

Lemma marshal_prim v st : prim_data v = true → _marshalArgument v st = Ret v st.
Proof. intros H. by apply marshal_plain_data, prim_data_plain. Qed.

Lemma mapM_marshal_prim args st :
  forallb prim_data args = true → mapM _marshalArgument args st = Ret args st.
Proof.
  intros H. pose proof (marshal_prim (VArray args) st H) as Hm.
  simpl in Hm. unfold bind in Hm.
  destruct (mapM _marshalArgument args st) as [ys st'|e st']; [|done].
  by injection Hm as -> ->.
Qed.

Lemma unmarshal_prim v : ∀ st, prim_data v = true → _unmarshalArgument v st = Ret v st.
Proof.
  induction v as [| | b | n | s | xs IH | r | id] using value_ind;
    intros st Hok; try done.
  simpl. unfold bind.
  assert (mapM _unmarshalArgument xs st = Ret xs st) as ->; [|done].
  simpl in Hok. induction IH as [|x xs Hx _ IHxs]; [done|]. simpl.
  simpl in Hok. apply andb_true_iff in Hok as [Hokx Hokxs].
  unfold bind. by rewrite Hx, IHxs.
Qed.

Lemma mapM_unmarshal_prim args st :
  forallb prim_data args = true → mapM _unmarshalArgument args st = Ret args st.
Proof.
  intros H. pose proof (unmarshal_prim (VArray args) st H) as Hm.
  simpl in Hm. unfold bind in Hm.
  destruct (mapM _unmarshalArgument args st) as [ys st'|e st']; [|done].
  by injection Hm as -> ->.
Qed.

(** The dispatch of a method that is neither a getter nor a setter. *)
Lemma dispatch_method st msg target stub params args :
  _knownStubIds st !! c_obj msg = Some target →
  _knownStubs st !! target = Some stub →
  c_params msg = VArray params →
  mapM _unmarshalArgument params st = Ret args st →
  substr_0_4 (c_method msg) ≠ "get " → substr_0_4 (c_method msg) ≠ "set " →
  c_method msg ∈ stub_methods stub →
  _handleCall_dispatch msg st =
    Ret (InvCall (stub_object stub) (c_method msg) args) st.
Proof.
  intros Hid Hstub Hparams Hargs Hget%String.eqb_neq Hset%String.eqb_neq Hin.
  unfold _handleCall_dispatch, bind, get_state.
  rewrite Hid, Hparams, Hargs, Hget, Hset, Hstub.
  unfold Stub.call, bind. by rewrite validateCall_ok.
Qed.

Lemma handleCall_awaiting msg st n inv :
  c_id msg = IdNum n →
  _handleCall_dispatch msg st = Ret inv st →
  _handleCall msg st = Ret (Awaiting (IdNum n) inv) st.
Proof.
  intros Hid Hd. unfold _handleCall. rewrite Hid.
  unfold try_catch, bind. by rewrite Hd.
Qed.

Lemma call_fresh_pending st id call :
  inv st → _pendingCalls st !! id = Some call → (id < _callId st)%nat.
Proof. intros Hinv Hp. by destruct (inv_pending st Hinv id call Hp) as (_ & ? & _). Qed.

Lemma callId_not_pending st : inv st → _pendingCalls st !! _callId st = None.
Proof.
  intros Hinv. destruct (_pendingCalls st !! _callId st) as [call|] eqn:Hp; [|done].
  apply (call_fresh_pending st _ _ Hinv) in Hp. lia.
Qed.

Lemma handleMessage_new_object m st :
  _knownProxies st !! n_obj m = None →
  _handleMessage (MNewObject m) st =
    Ret ()
      (set_knownProxies (<[n_obj m := length (heap st)]> (_knownProxies st))
         (set_heap (heap st ++ [{| o_rpcId := Some (n_obj m);
                                   o_rpcMethods := None;
                                   o_free := Some (FreeProxy (n_obj m)) |}]) st)).
Proof.
  intros Hp. unfold _handleMessage, bind, get_state. rewrite Hp.
  reflexivity.
Qed.

Lemma handleMessage_new_object_known m st proxy :
  _knownProxies st !! n_obj m = Some proxy →
  _handleMessage (MNewObject m) st = Ret () st.
Proof. intros Hp. unfold _handleMessage, bind, get_state. by rewrite Hp. Qed.

(** ** Relations every operation satisfies *)

Create HintDb stepwise discriminated.

Ltac stepwise_modify :=
  apply preserves_modify; preorder_goal; intros ?;
  first [ apply stepwise_alloc
        | apply stepwise_reply; reflexivity
        | apply stepwise_same; by split ].

Ltac stepwise_prim :=
  first [ apply stepwise_addStub | apply stepwise_call | apply stepwise_freeProxy
        | apply stepwise_handleCall_catch | apply stepwise_on_close ].

Ltac stepwise_auto :=
  repeat first [ solve [auto 1 with stepwise nocore] | stepwise_prim
               | preserves_step | stepwise_modify ].

Section stepwise.
Context (P : relation RpcSocket) `{!Stepwise P}.

Lemma stepwise_marshalArgument arg : preserves P (_marshalArgument arg).
Proof. apply preserves_marshalArgument; [apply _ | apply stepwise_addStub]. Qed.
Hint Resolve stepwise_marshalArgument : stepwise.

Lemma stepwise_handleCall msg : preserves P (_handleCall msg).
Proof.
  unfold _handleCall, _handleCall_dispatch, Stub.get, Stub.set, Stub.call,
    Stub._validateCall.
  stepwise_auto.
Qed.
Hint Resolve stepwise_handleCall : stepwise.

Lemma stepwise_handleCall_resume id c : preserves P (_handleCall_resume id c).
Proof. unfold _handleCall_resume, _handleCall_reply, socket_write. stepwise_auto. Qed.

Lemma stepwise_handleReply msg : preserves P (_handleReply msg).
Proof. unfold _handleReply, resolve, reject. stepwise_auto. Qed.
Hint Resolve stepwise_handleReply : stepwise.

Lemma stepwise_handleFree msg : preserves P (_handleFree msg).
Proof. unfold _handleFree. stepwise_auto. Qed.
Hint Resolve stepwise_handleFree : stepwise.

Lemma stepwise_handleMessage msg : preserves P (_handleMessage msg).
Proof. unfold _handleMessage, RpcProxy_new. stepwise_auto. Qed.

Lemma stepwise_run_free f : ∀ bound, preserves P (run_free bound f).
Proof.
  induction f as [| id | id prev IH] using free_fn_ind; intros bound; simpl.
  - stepwise_auto.
  - stepwise_auto.
  - apply preserves_bind; preorder_goal; [stepwise_auto | intros _].
    destruct IH as [|prev_free IH]; [stepwise_auto | apply IH].
Qed.
Hint Resolve stepwise_run_free : stepwise.

Lemma stepwise_invoke_free obj : preserves P (invoke_free obj).
Proof. unfold invoke_free. stepwise_auto. Qed.

Lemma stepwise_on_error err : preserves P (on_error err).
Proof. unfold on_error, _failAllCalls, reject, emit. stepwise_auto. Qed.

Lemma stepwise_on_end : preserves P on_end.
Proof. unfold on_end, emit. stepwise_auto. Qed.

Lemma stepwise_exec o st : P st (exec o st).
Proof.
  destruct o; simpl.
  - apply stepwise_alloc.
  - apply stepwise_addStub.
  - apply stepwise_call.
  - apply stepwise_freeProxy.
  - apply stepwise_invoke_free.
  - apply stepwise_handleMessage.
  - apply stepwise_handleCall_resume.
  - apply stepwise_on_error.
  - apply stepwise_on_end.
  - apply stepwise_on_close.
Qed.

Lemma stepwise_run ops st : P st (run ops st).
Proof.
  revert st. induction ops as [|o ops IH]; intros st; simpl.
  - reflexivity.
  - etrans; [apply stepwise_exec | apply IH].
Qed.

End stepwise.

(** ** The stub map and the heap only grow *)

Lemma R_grow_same st st' :
  heap st' = heap st → _knownStubs st' = _knownStubs st → R_grow st st'.
Proof.
  intros Hheap Hstubs. split.
  - by rewrite Hstubs.
  - intros r o Ho. exists o. rewrite Hheap. auto.
Qed.

#[export] Instance R_grow_preorder : PreOrder R_grow.
Proof.
  split.
  - intros st. by apply R_grow_same.
  - intros st1 st2 st3 [Hs12 Hh12] [Hs23 Hh23]. split; [by etrans|].
    intros r o1 Ho1.
    destruct (Hh12 r o1 Ho1) as (o2 & Ho2 & Hid12 & Hm12 & Hf12).
    destruct (Hh23 r o2 Ho2) as (o3 & Ho3 & Hid23 & Hm23 & Hf23).
    exists o3. split; [done|]. split; [congruence|]. split; [congruence|].
    destruct Hf12 as [Hf12|(Hnone1 & stub & Hstub2 & Hf12)],
             Hf23 as [Hf23|(Hnone2 & stub' & Hstub3 & Hf23)].
    + left. congruence.
    + right. split.
      * destruct (_knownStubs st1 !! r) as [stub1|] eqn:Hs1; [|done].
        apply (lookup_weaken _ _ _ _ Hs1) in Hs12. congruence.
      * exists stub'. split; [done|]. congruence.
    + right. split; [done|]. exists stub. split; [|congruence].
      by apply (lookup_weaken _ _ _ _ Hstub2).
    + congruence.
Qed.

Ltac grow_modify :=
  apply preserves_modify; preorder_goal; intros ?;
  apply R_grow_same; reflexivity.

Lemma R_grow_register obj methods st :
  _knownStubs st !! obj = None →
  R_grow st (register obj methods st).
Proof.
  intros Hnone. unfold register, make_free, modify. simpl. split; simpl.
  - by apply insert_subseteq.
  - intros r o Ho. destruct (decide (r = obj)) as [->|Hne].
    + rewrite list_lookup_alter_eq, Ho. simpl. eexists. split; [done|].
      simpl. split; [done|]. split; [done|]. right. split; [done|].
      eexists. rewrite lookup_insert_eq. split; [done|]. simpl.
      by destruct (o_free o).
    + rewrite list_lookup_alter_ne by done. exists o. auto.
Qed.

Lemma addStub_grow obj : preserves R_grow (addStub obj).
Proof.
  intros st. rewrite addStub_unfold.
  destruct (_knownStubs st !! obj) as [stub|] eqn:Hs.
  - destruct (_knownStubIds st !! stub_rpcId stub); simpl; [reflexivity|].
    unfold announce. simpl. destruct (_inCall st); by apply R_grow_same.
  - destruct (rpcMethods_of (heap st) obj) as [methods|]; simpl;
      [|reflexivity].
    etrans; [by apply (R_grow_register obj methods)|].
    unfold announce. simpl. destruct (_inCall st); by apply R_grow_same.
Qed.

#[export] Instance R_grow_stepwise : Stepwise R_grow.
Proof.
  split.
  - apply _.
  - intros st st' []. by apply R_grow_same.
  - intros st o. split; simpl; [done|].
    intros r o' Ho. exists o'. split; [by apply lookup_app_l_Some|]. auto.
  - intros st m _. by apply R_grow_same.
  - apply addStub_grow.
  - intros obj method args. unfold call, socket_write.
    repeat first
      [ apply preserves_marshalArgument; preorder_goal; apply addStub_grow
      | preserves_step | grow_modify ].
  - intros id. unfold freeProxy, socket_write.
    repeat first [ preserves_step | grow_modify ].
  - intros id error. unfold _handleCall_catch, socket_write.
    repeat first [ preserves_step | grow_modify ].
  - intros hadError. unfold on_close, emit.
    repeat first [ preserves_step | grow_modify ].
Qed.

(** ** A closed endpoint *)

#[export] Instance R_closed_preorder : PreOrder R_closed.
Proof.
  split.
  - intros st H. split; [done|]. auto.
  - intros st1 st2 st3 H12 H23 H.
    destruct (H12 H) as [H2 Hw12]. destruct (H23 H2) as [H3 Hw23].
    split; [done|]. intros msg [Hin|Hq]%Hw23; [auto|by right].
Qed.

Lemma R_closed_same st st' :
  _ended st' = _ended st → wire st' = wire st → R_closed st st'.
Proof. intros He Hw H. rewrite He, Hw. auto. Qed.

Lemma R_closed_quiet st st' msg :
  _ended st' = _ended st → wire st' = (wire st ++ [msg])%list →
  quiet_frame msg = true → R_closed st st'.
Proof.
  intros He Hw Hq H. rewrite He, Hw. split; [done|].
  intros msg' [Hin|Hin%list_elem_of_singleton]%elem_of_app; [auto|].
  subst msg'. by right.
Qed.

Lemma R_closed_open st st' : _ended st = false → R_closed st st'.
Proof. intros He H. congruence. Qed.

Lemma addStub_closed obj : preserves R_closed (addStub obj).
Proof.
  intros st. rewrite addStub_unfold.
  destruct (_knownStubs st !! obj) as [stub|] eqn:Hs.
  - destruct (_knownStubIds st !! stub_rpcId stub); simpl; [reflexivity|].
    unfold announce. simpl. destruct (_inCall st).
    + by apply R_closed_same.
    + by eapply R_closed_quiet.
  - destruct (rpcMethods_of (heap st) obj) as [methods|]; simpl;
      [|reflexivity].
    unfold announce, register. simpl. destruct (_inCall st).
    + by apply R_closed_same.
    + by eapply R_closed_quiet.
Qed.

#[export] Instance R_closed_stepwise : Stepwise R_closed.
Proof.
  split.
  - apply _.
  - intros st st' []. by apply R_closed_same.
  - intros st o. by apply R_closed_same.
  - intros st m Hm. eapply R_closed_quiet; [done..|]. simpl. by rewrite Hm.
  - apply addStub_closed.
  - intros obj method args st.
    destruct (_inCall st) eqn:HinCall; [by rewrite call_reentrant|].
    destruct (_ended st) eqn:Hended; [by rewrite call_closed|].
    by apply R_closed_open.
  - intros id st. unfold freeProxy, bind, modify, get_state. simpl.
    destruct (_ended st) eqn:Hended; simpl.
    + by apply R_closed_same.
    + by apply R_closed_open.
  - intros id error st. unfold _handleCall_catch, bind, get_state.
    destruct (_ended st) eqn:Hended; simpl; [reflexivity|].
    by apply R_closed_open.
  - intros hadError st H. split; [done|]. simpl. auto.
Qed.

(** ** Announcements describe stubs *)

#[export] Instance R_wire_preorder : PreOrder R_wire.
Proof.
  split.
  - intros st H. exact H.
  - intros st1 st2 st3 H12 H23 H. auto.
Qed.

Lemma inv_wire_new sid h : inv_wire (RpcSocket_new sid h).
Proof.
  split; simpl; [done|].
  intros m [Hin|Hin]; by apply elem_of_nil in Hin.
Qed.

Lemma inv_wire_same st st' :
  _knownStubs st' = _knownStubs st → heap st' = heap st →
  wire st' = wire st → _newObjects st' = _newObjects st →
  inv_wire st → inv_wire st'.
Proof.
  intros Hs Hh Hw Hq [Hobj Hfr]. split.
  - rewrite Hs, Hh. done.
  - rewrite Hs, Hw, Hq. done.
Qed.

(** Writing a frame that is not an announcement. *)
Lemma inv_wire_write msg st st' :
  (∀ m, msg ≠ MNewObject m) →
  _knownStubs st' = _knownStubs st → heap st' = heap st →
  wire st' = (wire st ++ [msg])%list → _newObjects st' = _newObjects st →
  inv_wire st → inv_wire st'.
Proof.
  intros Hmsg Hs Hh Hw Hq [Hobj Hfr]. split.
  - rewrite Hs, Hh. done.
  - rewrite Hs, Hw, Hq.
    intros m [[Hin|Hin%list_elem_of_singleton]%elem_of_app|Hin]; eauto.
    by destruct (Hmsg m).
Qed.

(** Announcing a stub of the endpoint. *)
Lemma inv_wire_announce st obj stub :
  _knownStubs st !! obj = Some stub →
  inv_wire st →
  inv_wire (announce {| n_obj := stub_rpcId stub;
                        n_methods := stub_methods stub |} st).
Proof.
  intros Hs [Hobj Hfr]. unfold announce.
  destruct (_inCall st); split; simpl; try done.
  - intros m [Hin|[Hin|Hin%list_elem_of_singleton]%elem_of_app]; eauto.
    subst m. eauto.
  - intros m [[Hin|Hin%list_elem_of_singleton]%elem_of_app|Hin]; eauto.
    injection Hin as ->. eauto.
Qed.

Lemma inv_wire_register obj methods st :
  _knownStubs st !! obj = None →
  rpcMethods_of (heap st) obj = Some methods →
  inv_wire st → inv_wire (register obj methods st).
Proof.
  intros Hnone Hm [Hobj Hfr]. unfold register, make_free, modify. simpl.
  assert (∀ r, rpcMethods_of
                 (alter (λ o, {| o_rpcId := o_rpcId o;
                                 o_rpcMethods := o_rpcMethods o;
                                 o_free := match o_free o with
                                           | Some prev_free =>
                                               Some (FreeStub (_socketId st +:+ pretty (_stubCnt st)) (Some prev_free))
                                           | None => Some (FreeStub (_socketId st +:+ pretty (_stubCnt st)) None)
                                           end |}) obj (heap st)) r =
               rpcMethods_of (heap st) r) as Halter.
  { intros r. unfold rpcMethods_of. destruct (decide (r = obj)) as [->|Hne].
    - rewrite list_lookup_alter_eq. by destruct (heap st !! obj).
    - by rewrite list_lookup_alter_ne. }
  split; simpl.
  - intros obj' stub [[<- <-]|[Hne Hs]]%lookup_insert_Some; simpl;
      rewrite Halter; [done|]. by apply Hobj.
  - intros m Hin. destruct (Hfr m Hin) as (obj' & stub & Hs & ? & ?).
    exists obj', stub. split; [|done].
    rewrite lookup_insert_ne; [done|]. intros <-. congruence.
Qed.

Lemma addStub_wire obj : preserves R_wire (addStub obj).
Proof.
  intros st Hinv. rewrite addStub_unfold.
  destruct (_knownStubs st !! obj) as [stub|] eqn:Hs.
  - destruct (_knownStubIds st !! stub_rpcId stub); simpl; [done|].
    apply (inv_wire_announce _ obj stub); [done|].
    by apply (inv_wire_same st).
  - destruct (rpcMethods_of (heap st) obj) as [methods|] eqn:Hm; simpl;
      [|done].
    apply (inv_wire_announce _ obj
             {| stub_rpcId := _socketId st +:+ pretty (_stubCnt st);
                stub_object := obj; stub_methods := methods |}).
    + unfold register. simpl. by rewrite lookup_insert_eq.
    + apply (inv_wire_same (register obj methods st)); try done.
      by apply inv_wire_register.
Qed.

Lemma inv_wire_call_commit obj method marshalled st1 :
  inv_wire st1 → inv_wire (call_commit obj method marshalled st1).
Proof.
  intros [Hobj Hfr]. unfold call_commit. split; simpl; [done|].
  intros m [Hin|Hin]; [|by apply elem_of_nil in Hin].
  apply elem_of_app in Hin as [Hin|Hin]; [eauto|].
  apply elem_of_app in Hin as [Hin|Hin%list_elem_of_singleton]; [|done].
  apply list_elem_of_fmap in Hin as (m' & [= ->] & Hin). eauto.
Qed.

#[export] Instance R_wire_stepwise : Stepwise R_wire.
Proof.
  split.
  - apply _.
  - intros st st' [] Hinv. by apply (inv_wire_same st).
  - intros st o [Hobj Hfr]. split; simpl; [|done].
    intros obj stub Hs. destruct (Hobj obj stub Hs) as [Hkey Hm].
    split; [done|]. unfold rpcMethods_of in *.
    destruct (heap st !! obj) as [o'|] eqn:Ho; [|done].
    by rewrite (lookup_app_l_Some _ _ _ _ Ho).
  - intros st m _ Hinv. by eapply (inv_wire_write (MReply m) st).
  - apply addStub_wire.
  - intros obj method args st Hinv.
    destruct (_inCall st) eqn:HinCall; [by rewrite call_reentrant|].
    destruct (_ended st) eqn:Hended; [by rewrite call_closed|].
    rewrite call_unfold by done.
    assert (preserves R_wire (mapM _marshalArgument args)) as Hm.
    { apply preserves_mapM; [apply _|]. apply Forall_forall. intros arg _.
      apply preserves_marshalArgument; [apply _ | apply addStub_wire]. }
    specialize (Hm (set_inCall true st)
                  (inv_wire_same st (set_inCall true st) eq_refl eq_refl
                     eq_refl eq_refl Hinv)).
    destruct (mapM _marshalArgument args (set_inCall true st))
      as [marshalled st1|e st1]; simpl in *; [|done].
    by apply inv_wire_call_commit.
  - intros id st Hinv. unfold freeProxy, bind, modify, get_state. simpl.
    destruct (_ended st); simpl.
    + by apply (inv_wire_same st).
    + by eapply (inv_wire_write (MFree _) st).
  - intros id error st Hinv. unfold _handleCall_catch, bind, get_state.
    destruct (_ended st); simpl; [done|].
    destruct id; simpl; try done; by eapply (inv_wire_write (MReply _) st).
  - intros hadError st Hinv. by apply (inv_wire_same st).
Qed.

Lemma reachable_inv_wire st : reachable st → inv_wire st.
Proof.
  induction 1 as [sid h|o st _ IH].
  - apply inv_wire_new.
  - by apply (stepwise_exec R_wire).
Qed.

(** ** An endpoint whose [_inCall] flag is set *)

#[export] Instance R_wedged_preorder : PreOrder R_wedged.
Proof.
  split.
  - intros st H. by split.
  - intros st1 st2 st3 H12 H23 H.
    destruct (H12 H) as [H2 Hw12]. destruct (H23 H2) as [H3 Hw23].
    split; [done|]. congruence.
Qed.

Lemma R_wedged_same st st' :
  _inCall st' = _inCall st → wire st' = wire st → R_wedged st st'.
Proof. intros Hc Hw H. rewrite Hc, Hw. by split. Qed.

Lemma R_wedged_write st st' msg :
  (∀ m, msg ≠ MNewObject m) →
  _inCall st' = _inCall st → wire st' = (wire st ++ [msg])%list →
  R_wedged st st'.
Proof.
  intros Hmsg Hc Hw H. rewrite Hc, Hw. split; [done|].
  unfold announcements. rewrite omap_app. simpl.
  destruct msg as [| | |m|]; try apply app_nil_r. by destruct (Hmsg m).
Qed.

#[export] Instance R_wedged_stepwise : Stepwise R_wedged.
Proof.
  split.
  - apply _.
  - intros st st' []. by apply R_wedged_same.
  - intros st o. by apply R_wedged_same.
  - intros st m _. by eapply (R_wedged_write _ _ (MReply m)).
  - intros obj st HinCall. rewrite addStub_unfold.
    destruct (_knownStubs st !! obj) as [stub|].
    + destruct (_knownStubIds st !! stub_rpcId stub); simpl; [by split|].
      unfold announce. simpl. rewrite HinCall. by split.
    + destruct (rpcMethods_of (heap st) obj) as [methods|]; simpl; [|by split].
      unfold announce, register. simpl. rewrite HinCall. by split.
  - intros obj method args st HinCall. rewrite call_reentrant by done.
    by split.
  - intros id st. unfold freeProxy, bind, modify, get_state. simpl.
    destruct (_ended st); simpl.
    + by apply R_wedged_same.
    + by eapply (R_wedged_write _ _ (MFree _)).
  - intros id error st. unfold _handleCall_catch, bind, get_state.
    destruct (_ended st); simpl; [reflexivity|].
    destruct id; simpl; try reflexivity;
      by eapply (R_wedged_write _ _ (MReply _)).
  - intros hadError st. by apply R_wedged_same.
Qed.

(** ** Inbound calls *)

Lemma validateCall_state stub method st :
  final_state (Stub._validateCall stub method st) = st.
Proof. unfold Stub._validateCall. by destruct (bool_decide _). Qed.







(** ** Errors that cross the wire *)

Lemma handleCall_resume_thrown id e st :
  _ended st = false → id ≠ IdNull →
  _handleCall_resume id (Thrown e) st =
    Ret () (set_wire (wire st ++ [MReply (error_reply id e)]) st).
Proof.
  intros Hended Hid. unfold _handleCall_resume, try_catch, throw,
    _handleCall_catch, bind, get_state.
  rewrite Hended. by destruct id.
Qed.

Lemma eqb_false_ne (s t : string) : s ≠ t → String.eqb s t = false.
Proof. by intros ?%String.eqb_neq. Qed.

Lemma error_reply_id id e : r_id (error_reply id e) = id.
Proof. unfold error_reply. by repeat destruct (String.eqb _ _). Qed.

Lemma error_reply_reply id e : r_reply (error_reply id e) = VUndefined.
Proof. unfold error_reply. by repeat destruct (String.eqb _ _). Qed.

Lemma reply_error_fields msg error :
  let e' := reply_error msg error in
  e_objectId e' = None ∧
  e_name e' = (if String.eqb error "SyntaxError" then "SyntaxError"
               else if String.eqb error "TypeError" then "TypeError"
               else "Error") ∧
  e_message e' = (if String.eqb error "SyntaxError" then default "" (r_message msg)
                  else if String.eqb error "TypeError" then default "" (r_message msg)
                  else error) ∧
  e_code e' = r_code msg.
Proof.
  unfold reply_error, with_stack, with_code.
  destruct (truthy (r_stack msg)), (r_code msg),
    (String.eqb error "SyntaxError"), (String.eqb error "TypeError"); done.
Qed.

(** The [error] field of the frame built for a thrown error. *)
Lemma error_reply_error id e :
  r_error (error_reply id e) =
    Some (if String.eqb (e_name e) "SyntaxError" then "SyntaxError"
          else if String.eqb (e_name e) "TypeError" then "TypeError"
          else if String.eqb (e_message e) "" then error_to_string e
          else e_message e).
Proof.
  unfold error_reply.
  destruct (String.eqb (e_name e) "SyntaxError"); [done|].
  destruct (String.eqb (e_name e) "TypeError"); [done|].
  by destruct (String.eqb (e_message e) "").
Qed.

(** ** Released stubs *)

Lemma handleCall_unknown_object st msg n :
  c_id msg = IdNum n → _ended st = false →
  _knownStubIds st !! c_obj msg = None →
  _handleCall msg st =
    Ret Failed
      (set_wire
         (wire st ++
          [MReply (error_reply (IdNum n)
                     (InvalidObjectError (c_obj msg)
                        ("Invalid object 0x" +:+ c_obj msg)))]) st).
Proof.
  intros Hid Hended Hnone.
  unfold _handleCall. rewrite Hid.
  unfold try_catch, bind, _handleCall_dispatch, bind, get_state.
  rewrite Hnone. unfold throw, _handleCall_catch, bind, get_state.
  by rewrite Hended.
Qed.

Lemma handleFree_unfold msg st :
  _handleFree msg st =
    Ret ()
      match _knownStubIds st !! f_id msg with
      | Some _ => set_knownStubIds (delete (f_id msg) (_knownStubIds st)) st
      | None => set_knownProxies (delete (f_id msg) (_knownProxies st)) st
      end.
Proof.
  unfold _handleFree, bind, get_state.
  by destruct (_knownStubIds st !! f_id msg).
Qed.

(** [$free] never closes or reopens the endpoint. *)
Lemma run_free_ended f :
  ∀ bound st, _ended (final_state (run_free bound f st)) = _ended st.
Proof.
  induction f as [| id | id prev IH] using free_fn_ind; intros bound st; simpl.
  - done.
  - destruct bound; [|done].
    unfold freeProxy, bind, modify, get_state, socket_write. simpl.
    by destruct (_ended st) eqn:Hended.
  - unfold bind, modify. destruct IH as [|prev_free IH]; [done|].
    by rewrite IH.
Qed.

Lemma invoke_free_ended obj st :
  _ended (final_state (invoke_free obj st)) = _ended st.
Proof.
  unfold invoke_free, bind, get_state.
  destruct (heap st !! obj ≫= o_free); [apply run_free_ended | done].
Qed.

(** ** Proxies *)

Lemma marshal_proxy st p o id :
  heap st !! p = Some o → o_rpcId o = Some id →
  _marshalArgument (VObj p) st =
    match _knownProxies st !! id with
    | Some _ => Ret (VMarker id) st
    | None =>
        Throw (InvalidObjectError id
                 ("Invalid object " +:+ id +:+
                  ", likely a proxy from a different socket")) st
    end.
Proof.
  intros Ho Hid. simpl. unfold bind, get_state. rewrite Ho. simpl.
  rewrite Hid. by destruct (_knownProxies st !! id).
Qed.

Lemma exec_new_object m st :
  exec (OpData (MNewObject m)) st =
    match _knownProxies st !! n_obj m with
    | Some _ => st
    | None =>
        set_knownProxies (<[n_obj m := length (heap st)]> (_knownProxies st))
          (set_heap (heap st ++ [{| o_rpcId := Some (n_obj m);
                                    o_rpcMethods := None;
                                    o_free := Some (FreeProxy (n_obj m)) |}]) st)
    end.
Proof.
  unfold exec. destruct (_knownProxies st !! n_obj m) as [p|] eqn:Hp.
  - by rewrite (handleMessage_new_object_known m st p Hp).
  - by rewrite handleMessage_new_object.
Qed.


(** An announcement written or queued describes a stub: its oid, its
    methods, and the object that lists them. *)
Lemma announced_stub st m :
  reachable st →
  MNewObject m ∈ wire st ∨ m ∈ _newObjects st →
  ∃ obj stub,
    _knownStubs st !! obj = Some stub ∧
    stub_object stub = obj ∧
    stub_rpcId stub = n_obj m ∧
    stub_methods stub = n_methods m ∧
    rpcMethods_of (heap st) obj = Some (n_methods m).
Proof.
  intros Hst Hin.
  destruct (iw_frames st (reachable_inv_wire st Hst) m Hin)
    as (obj & stub & Hs & Hid & Hm).
  destruct (iw_object st (reachable_inv_wire st Hst) obj stub Hs) as [Hobj Hms].
  exists obj, stub. by rewrite <- Hm.
Qed.

(** ** Marshalling as a substitution *)

#[export] Instance R_reg_preorder : PreOrder R_reg.
Proof.
  split.
  - intros st. split; reflexivity.
  - intros st1 st2 st3 [Hg12 Hl12] [Hg23 Hl23]. split; [by etrans|congruence].
Qed.

Lemma addStub_reg obj : preserves R_reg (addStub obj).
Proof.
  intros st. split; [apply addStub_grow|].
  rewrite addStub_unfold.
  destruct (_knownStubs st !! obj) as [stub|].
  - destruct (_knownStubIds st !! stub_rpcId stub); simpl; [done|].
    unfold announce. simpl. by destruct (_inCall st).
  - destruct (rpcMethods_of (heap st) obj) as [methods|]; simpl; [|done].
    unfold announce, register, make_free, modify. simpl.
    destruct (_inCall st); simpl; by rewrite length_alter.
Qed.

Lemma marshalArgument_reg arg : preserves R_reg (_marshalArgument arg).
Proof. apply preserves_marshalArgument; [apply _ | apply addStub_reg]. Qed.

Lemma mapM_marshalArgument_reg args : preserves R_reg (mapM _marshalArgument args).
Proof.
  apply preserves_mapM; [apply _|]. apply Forall_forall. intros arg _.
  apply marshalArgument_reg.
Qed.

(** The stub of the object just registered carries the oid returned. *)
Lemma addStub_registers obj st id st' :
  addStub obj st = Ret id st' →
  ∃ stub, _knownStubs st' !! obj = Some stub ∧ stub_rpcId stub = id.
Proof.
  rewrite addStub_unfold. intros Hadd.
  destruct (_knownStubs st !! obj) as [stub|] eqn:Hs.
  - exists stub. destruct (_knownStubIds st !! stub_rpcId stub).
    + by injection Hadd as <- <-.
    + injection Hadd as <- <-. unfold announce. simpl.
      by destruct (_inCall st).
  - destruct (rpcMethods_of (heap st) obj) as [methods|]; [|done].
    injection Hadd as <- <-. eexists. unfold announce, register. simpl.
    destruct (_inCall st); simpl; by rewrite lookup_insert_eq.
Qed.

Lemma R_reg_lookup st st' r o :
  R_reg st st' → heap st !! r = Some o →
  ∃ o', heap st' !! r = Some o' ∧
        o_rpcId o' = o_rpcId o ∧ o_rpcMethods o' = o_rpcMethods o.
Proof.
  intros [Hg _] Ho. destruct (grow_heap _ _ Hg r o Ho) as (o' & ? & ? & ? & _).
  by exists o'.
Qed.

Lemma R_reg_dangling st st' r :
  R_reg st st' → heap st !! r = None → heap st' !! r = None.
Proof.
  intros [_ Hl] Ho. apply lookup_ge_None. apply lookup_ge_None in Ho. lia.
Qed.

Lemma marshal_to_wire arg :
  ∀ st w st', _marshalArgument arg st = Ret w st' →
  ∀ st'', R_reg st' st'' →
    w = to_wire st'' arg ∧
    ∀ r, r ∈ refs w →
         oid_of st'' r = None ∧ rpcMethods_of (heap st'') r = None.
Proof.
  induction arg as [| | b | n | s | xs IH | r | id] using value_ind;
    intros st w st' Hw st'' Hreg;
    try (injection Hw as <- <-; split; [done|]; by intros r Hin%elem_of_nil).
  - simpl in Hw. unfold bind in Hw.
    destruct (mapM _marshalArgument xs st) as [ws st1|e st1] eqn:Hws;
      [|discriminate].
    injection Hw as <- <-. simpl.
    assert (ws = map (to_wire st'') xs ∧
            ∀ r, r ∈ concat (map refs ws) →
                 oid_of st'' r = None ∧ rpcMethods_of (heap st'') r = None)
      as [-> Hrefs]; [|done].
    revert st ws st1 Hws Hreg.
    induction IH as [|x xs Hx _ IHxs]; intros st ws st2 Hws Hreg.
    + injection Hws as <- <-. split; [done|]. by intros r Hin%elem_of_nil.
    + simpl in Hws. unfold bind in Hws.
      destruct (_marshalArgument x st) as [w st1|e st1] eqn:Hw; [|discriminate].
      destruct (mapM _marshalArgument xs st1) as [ws' st2'|e st2'] eqn:Hws';
        [|discriminate].
      injection Hws as <- <-.
      pose proof (mapM_marshalArgument_reg xs st1) as Hreg1.
      rewrite Hws' in Hreg1. simpl in Hreg1.
      destruct (Hx _ _ _ Hw st'') as [-> Hrx]; [by etrans|].
      destruct (IHxs _ _ _ Hws' Hreg) as [-> Hrxs].
      split; [done|]. simpl. intros r [Hin|Hin]%elem_of_app; auto.
  - simpl in Hw. unfold bind, get_state in Hw. simpl. unfold oid_of.
    destruct (heap st !! r) as [o|] eqn:Ho; simpl in Hw.
    + destruct (o_rpcId o) as [rpcId|] eqn:Hid.
      * destruct (_knownProxies st !! rpcId); [|discriminate].
        injection Hw as <- <-.
        destruct (R_reg_lookup _ _ r o Hreg Ho) as (o' & -> & Hid' & _).
        simpl. rewrite Hid', Hid. split; [done|]. by intros ? ?%elem_of_nil.
      * unfold rpcMethods_of in Hw. rewrite Ho in Hw. simpl in Hw.
        destruct (o_rpcMethods o) as [methods|] eqn:Hm.
        -- destruct (addStub r st) as [i st1|e st1] eqn:Hadd; [|discriminate].
           injection Hw as <- <-.
           destruct (addStub_registers _ _ _ _ Hadd) as (stub & Hs & <-).
           pose proof (addStub_reg r st) as Hreg0. rewrite Hadd in Hreg0.
           simpl in Hreg0.
           destruct (R_reg_lookup st st'' r o) as (o' & -> & Hid' & Hm');
             [by etrans | done |].
           simpl. rewrite Hid', Hid, Hm', Hm.
           rewrite (lookup_weaken _ _ _ _ Hs (grow_stubs _ _ (reg_grow _ _ Hreg))).
           split; [done|]. by intros ? ?%elem_of_nil.
        -- injection Hw as <- <-.
           destruct (R_reg_lookup _ _ r o Hreg Ho) as (o' & Ho' & Hid' & Hm').
           rewrite Ho'. simpl. rewrite Hid', Hid, Hm', Hm.
           split; [done|]. intros r' ->%list_elem_of_singleton.
           unfold rpcMethods_of. rewrite Ho'. simpl.
           by rewrite Hid', Hid, Hm', Hm.
    + unfold rpcMethods_of in Hw. rewrite Ho in Hw. simpl in Hw.
      injection Hw as <- <-.
      rewrite (R_reg_dangling _ _ r Hreg Ho). simpl.
      split; [done|]. intros r' ->%list_elem_of_singleton.
      unfold rpcMethods_of. by rewrite (R_reg_dangling _ _ r Hreg Ho).
  - simpl in Hw. unfold bind, get_state in Hw. simpl in Hw.
    destruct (_knownProxies st !! id); [|discriminate].
    injection Hw as <- <-. split; [done|]. by intros ? ?%elem_of_nil.
Qed.

(** ** Unmarshalling as a substitution *)

Lemma unmarshal_ref st arg :
  match arg with VObj _ | VMarker _ => True | _ => False end →
  _unmarshalArgument arg st =
    match rpcId_of (heap st) arg with
    | Some id =>
        match resolve_oid st id with
        | Some r => Ret (VObj r) st
        | None => Throw (TypeError ("Invalid object " +:+ id)) st
        end
    | None => Ret arg st
    end.
Proof.
  intros Harg. unfold resolve_oid.
  destruct arg; try done; simpl; unfold bind, get_state; simpl.
  - destruct (heap st !! r ≫= o_rpcId) as [id|]; [|done].
    destruct (_knownStubIds st !! id); [done|].
    by destruct (_knownProxies st !! id).
  - destruct (_knownStubIds st !! id); [done|].
    by destruct (_knownProxies st !! id).
Qed.

Lemma resolve_oid_None st id :
  resolve_oid st id = None ↔
  _knownStubIds st !! id = None ∧ _knownProxies st !! id = None.
Proof.
  unfold resolve_oid. destruct (_knownStubIds st !! id) as [stub|].
  - split; [done | by intros [? _]].
  - split; [done | by intros [_ ?]].
Qed.

Lemma unmarshal_from_wire arg :
  ∀ st,
    match _unmarshalArgument arg st with
    | Ret v st' =>
        st' = st ∧ v = from_wire st arg ∧ oids v = [] ∧
        ∀ id, id ∈ rpc_ids (heap st) arg → is_Some (resolve_oid st id)
    | Throw e st' =>
        st' = st ∧
        ∃ id, id ∈ rpc_ids (heap st) arg ∧ resolve_oid st id = None ∧
              e = TypeError ("Invalid object " +:+ id)
    end.
Proof.
  induction arg as [| | b | n | s | xs IH | r | id] using value_ind;
    intros st;
    try (simpl; split; [done|]; split; [done|]; split; [done|];
         by intros ? ?%elem_of_nil).
  - simpl. unfold bind.
    assert (match mapM _unmarshalArgument xs st with
            | Ret vs st' =>
                st' = st ∧ vs = map (from_wire st) xs ∧
                concat (map oids vs) = [] ∧
                ∀ id, id ∈ concat (map (rpc_ids (heap st)) xs) →
                      is_Some (resolve_oid st id)
            | Throw e st' =>
                st' = st ∧
                ∃ id, id ∈ concat (map (rpc_ids (heap st)) xs) ∧
                      resolve_oid st id = None ∧
                      e = TypeError ("Invalid object " +:+ id)
            end) as Hxs.
    { induction IH as [|x xs Hx _ IHxs]; simpl.
      - split; [done|]. split; [done|]. split; [done|].
        by intros ? ?%elem_of_nil.
      - unfold bind. specialize (Hx st).
        destruct (_unmarshalArgument x st) as [v st1|e st1].
        + destruct Hx as (-> & -> & Hov & Hkx).
          destruct (mapM _unmarshalArgument xs st) as [vs st2|e st2].
          * destruct IHxs as (-> & -> & Hovs & Hkxs).
            split; [done|]. split; [done|]. simpl. rewrite Hov, Hovs.
            split; [done|]. intros id [Hin|Hin]%elem_of_app; auto.
          * destruct IHxs as (-> & id & Hin & Hnone & ->).
            split; [done|]. exists id. split; [|done].
            apply elem_of_app. by right.
        + destruct Hx as (-> & id & Hin & Hnone & ->).
          split; [done|]. exists id. split; [|done].
          apply elem_of_app. by left. }
    destruct (mapM _unmarshalArgument xs st) as [vs st1|e st1]; simpl.
    + destruct Hxs as (-> & -> & Hovs & Hk). done.
    + done.
  - rewrite unmarshal_ref by done. simpl.
    destruct (heap st !! r ≫= o_rpcId) as [id|]; simpl.
    + destruct (resolve_oid st id) as [r'|] eqn:Hr.
      * split; [done|]. split; [done|]. split; [done|].
        intros id' ->%list_elem_of_singleton. by rewrite Hr.
      * split; [done|]. exists id. split; [by left|done].
    + split; [done|]. split; [done|]. split; [done|].
      by intros ? ?%elem_of_nil.
  - rewrite unmarshal_ref by done. simpl.
    destruct (resolve_oid st id) as [r'|] eqn:Hr.
    + split; [done|]. split; [done|]. split; [done|].
      intros id' ->%list_elem_of_singleton. by rewrite Hr.
    + split; [done|]. exists id. split; [by left|done].
Qed.

(** ** Announcements and the reply frame *)

#[export] Instance R_direct_preorder : PreOrder R_direct.
Proof.
  split.
  - intros st H. split; [done|]. split; [done|]. exists [].
    by rewrite app_nil_r.
  - intros st1 st2 st3 H12 H23 H.
    destruct (H12 H) as (H2 & Hq12 & l12 & Hw12).
    destruct (H23 H2) as (H3 & Hq23 & l23 & Hw23).
    split; [done|]. split; [congruence|]. exists (l12 ++ l23)%list.
    by rewrite Hw23, Hw12, fmap_app, app_assoc.
Qed.

Lemma addStub_direct obj : preserves R_direct (addStub obj).
Proof.
  intros st HinCall. rewrite addStub_unfold.
  destruct (_knownStubs st !! obj) as [stub|].
  - destruct (_knownStubIds st !! stub_rpcId stub); simpl.
    + by apply (reflexivity (R:=R_direct)).
    + unfold announce. simpl. rewrite HinCall. simpl.
      split; [done|]. split; [done|]. by eexists [_].
  - destruct (rpcMethods_of (heap st) obj) as [methods|]; simpl.
    + unfold announce, register. simpl. rewrite HinCall. simpl.
      split; [done|]. split; [done|]. by eexists [_].
    + by apply (reflexivity (R:=R_direct)).
Qed.

Lemma marshalArgument_direct arg : preserves R_direct (_marshalArgument arg).
Proof. apply preserves_marshalArgument; [apply _ | apply addStub_direct]. Qed.

(** ** The accessors of a proxy *)

Lemma substr_0_4_get name : substr_0_4 ("get " +:+ name) = "get ".
Proof. unfold substr_0_4. simpl. by destruct name. Qed.

Lemma substr_4_get name : substr_4 ("get " +:+ name) = name.
Proof.
  unfold substr_4. simpl. rewrite Nat.sub_0_r. apply substring_0_length.
Qed.

Lemma RpcProxy_properties_snoc id methods method :
  RpcProxy_properties id (methods ++ [method]) =
    <[accessor_key method := accessor_of method]>
      (RpcProxy_properties id methods).
Proof.
  unfold RpcProxy_properties, accessor_key, accessor_of.
  rewrite foldl_snoc. by destruct (String.eqb _ _).
Qed.

(** The last listed method of a property name defines the property. *)
Lemma RpcProxy_properties_lookup id methods key :
  RpcProxy_properties id methods !! key =
    match last (filter (λ method, accessor_key method = key) methods) with
    | Some method => Some (accessor_of method)
    | None => proxy_fields id !! key
    end.
Proof.
  induction methods as [|method methods IH] using rev_ind; [done|].
  rewrite RpcProxy_properties_snoc, filter_app.
  destruct (decide (accessor_key method = key)) as [<-|Hne].
  - rewrite lookup_insert_eq, filter_cons_True by done.
    by rewrite filter_nil, last_snoc.
  - rewrite lookup_insert_ne, filter_cons_False by done.
    by rewrite filter_nil, app_nil_r.
Qed.

Lemma last_filter_elem {A} (P : A → Prop) `{!∀ x, Decision (P x)} l x :
  last (filter P l) = Some x → x ∈ l ∧ P x.
Proof.
  intros Hlast. apply last_Some in Hlast as [l' Hl'].
  assert (x ∈ filter P l) as Hin.
  { rewrite Hl'. apply elem_of_app. right. by left. }
  apply list_elem_of_filter in Hin as [? ?]. done.
Qed.

Lemma accessor_of_request method args :
  accessor_request (accessor_of method) args =
    Some (if String.eqb (substr_0_4 method) "get " then (method, [])
          else (method, args)).
Proof.
  unfold accessor_of.
  destruct (String.eqb_spec (substr_0_4 method) "get ") as [Hget|Hget]; simpl;
    [|done].
  by rewrite (get_name_split _ Hget).
Qed.

(** A property of a proxy is the accessor of a listed method, or one of the
    two fields when no listed method takes its name. *)
Lemma proxy_property_cases id methods key p :
  RpcProxy_properties id methods !! key = Some p →
  (∃ method, method ∈ methods ∧ accessor_key method = key ∧
             p = accessor_of method) ∨
  (proxy_fields id !! key = Some p ∧
   ∀ method, method ∈ methods → accessor_key method ≠ key).
Proof.
  rewrite RpcProxy_properties_lookup.
  destruct (last (filter _ methods)) as [method|] eqn:Hlast.
  - intros [= <-]. left. exists method.
    by destruct (last_filter_elem _ _ _ Hlast).
  - intros Hf. right. split; [done|]. intros method Hin Hkey.
    apply last_None in Hlast.
    assert (method ∈ filter (λ method, accessor_key method = key) methods)
      as Hin' by by apply list_elem_of_filter.
    rewrite Hlast in Hin'. by apply elem_of_nil in Hin'.
Qed.

Lemma proxy_fields_request id key p args :
  proxy_fields id !! key = Some p → accessor_request p args = None.
Proof.
  unfold proxy_fields.
  intros [[_ <-]|[_ Hf]]%lookup_insert_Some; [done|].
  by apply lookup_insert_Some in Hf as [[_ <-]|[_ Hf]].
Qed.

(** The announcement of a stub whose oid enters the id map while the
    arguments of a call are marshalled is written before the call frame. *)
Lemma call_flushes_announcement st obj stub obj' method args cid st' :
  reachable st →
  _knownStubs st !! obj = Some stub →
  _knownStubIds st !! stub_rpcId stub = None →
  call obj' method args st = Ret (PromisePending cid) st' →
  is_Some (_knownStubIds st' !! stub_rpcId stub) →
  ∃ marshalled before after,
    wire st' =
      (wire st ++ (MNewObject <$> before) ++
       MNewObject {| n_obj := stub_rpcId stub;
                     n_methods := stub_methods stub |} ::
       (MNewObject <$> after) ++
       [MCall {| c_id := IdNum cid; c_obj := obj'; c_method := method;
                 c_params := VArray marshalled |}])%list.
Proof.
  intros Hst Hs Hfreed Hcall Hlive.
  pose proof (reachable_inv st Hst) as Hinv.
  destruct (call_pending_inv _ _ _ _ _ _ Hcall) as [HinCall Hended].
  rewrite call_unfold in Hcall by done.
  pose proof (mapM_marshalArgument_marshal args (set_inCall true st)) as Hm.
  pose proof (mapM_marshalArgument_queue args (set_inCall true st) eq_refl) as Hq.
  pose proof (mapM_marshalArgument_inv args (set_inCall true st)
                (inv_set_inCall_true st Hinv)) as Hinv1.
  assert (preserves R_wire (mapM _marshalArgument args)) as Hw.
  { apply preserves_mapM; [apply _|]. apply Forall_forall. intros arg _.
    apply (stepwise_marshalArgument R_wire). }
  specialize (Hw (set_inCall true st)
                (inv_wire_same st (set_inCall true st) eq_refl eq_refl eq_refl
                   eq_refl (reachable_inv_wire st Hst))).
  assert (preserves R_grow (mapM _marshalArgument args)) as Hg.
  { apply preserves_mapM; [apply _|]. apply Forall_forall. intros arg _.
    apply (stepwise_marshalArgument R_grow). }
  specialize (Hg (set_inCall true st)).
  destruct (mapM _marshalArgument args (set_inCall true st))
    as [marshalled st1|e st1]; [|discriminate].
  simpl in Hm, Hq, Hinv1, Hw, Hg. injection Hcall as <- <-.
  destruct Hq as (_ & _ & Hq).
  destruct (Hq (stub_rpcId stub) Hfreed Hlive) as (m & Hin & Hobj).
  destruct (iw_frames st1 Hw m (or_intror Hin)) as (obj1 & stub1 & Hs1 & Hid1 & Hm1).
  assert (_knownStubs st1 !! obj = Some stub) as Hs'
    by apply (lookup_weaken _ _ _ _ Hs (grow_stubs _ _ Hg)).
  assert (obj1 = obj) as ->.
  { apply (inv_inj st1 Hinv1 obj1 obj stub1 stub); congruence. }
  assert (stub1 = stub) as -> by congruence.
  assert (m = {| n_obj := stub_rpcId stub; n_methods := stub_methods stub |})
    as Hmsg by (destruct m; simpl in *; congruence).
  apply list_elem_of_split in Hin as (before & after & Hsplit).
  exists marshalled, before, after. unfold call_commit. simpl.
  rewrite (rm_wire _ _ Hm eq_refl), (rm_callId _ _ Hm), Hsplit, Hmsg.
  simpl. rewrite fmap_app. simpl. by rewrite <- !app_assoc.
Qed.

(** The cascade of the ['error'] handler: each call that was pending is
    rejected, and nothing settles its promise again. *)
Lemma on_error_rejects_forever st err id call ops :
  reachable st → _pendingCalls st !! id = Some call →
  rejected_once call (run ops (exec (OpError err) st)).
Proof.
  intros Hst Hp. apply settled_forever; [by constructor|].
  simpl. rewrite on_error_unfold. simpl.
  apply elem_of_app. right. apply list_elem_of_fmap. exists call.
  split; [done|]. apply pending_resolvers_spec. by exists id.
Qed.

Lemma on_error_cascade st err :
  reachable st → cascade st (exec (OpError err) st).
Proof.
  intros Hst. split.
  - simpl. by rewrite on_error_unfold.
  - intros id call Hp. by apply (on_error_rejects_forever st err id call []).
Qed.

(** * Properties of the engine *)

(** C1. Ordering of announcements (amended).  When [call] writes a call
    frame, the frames it adds to the transport are the new-object
    announcements queued while the arguments were marshalled, in queue
    order, followed by the call frame; every stub whose oid entered the id
    map during that marshalling has its announcement in that queue; and
    every oid in the params of the call frame either is an oid of the proxy
    registry (introduced by the peer, in the other direction) or is
    introduced by a new-object frame written before the call frame. *)
Theorem announcements_precede_call st obj method args id st' :
  reachable st →
  call obj method args st = Ret (PromisePending id) st' →
  ∃ marshalled st1,
    mapM _marshalArgument args (set_inCall true st) = Ret marshalled st1 ∧
    _newObjects st = [] ∧
    wire st' =
      (wire st ++ (MNewObject <$> _newObjects st1) ++
       [MCall {| c_id := IdNum id; c_obj := obj; c_method := method;
                 c_params := VArray marshalled |}])%list ∧
    (∀ oid, _knownStubIds st !! oid = None →
            is_Some (_knownStubIds st1 !! oid) →
            ∃ m, m ∈ _newObjects st1 ∧ n_obj m = oid) ∧
    (∀ oid, oid ∈ oids (VArray marshalled) →
            is_Some (_knownProxies st !! oid) ∨
            announced_on (wire st ++ (MNewObject <$> _newObjects st1)) oid).
Proof.
  intros Hst Hcall. pose proof (reachable_inv st Hst) as Hinv.
  destruct (call_pending_inv _ _ _ _ _ _ Hcall) as [HinCall Hended].
  rewrite call_unfold in Hcall by done.
  pose proof (mapM_marshalArgument_marshal args (set_inCall true st)) as Hm.
  pose proof (mapM_marshalArgument_queue args (set_inCall true st) eq_refl) as Hq.
  pose proof (mapM_marshalArgument_inv args (set_inCall true st)
                (inv_set_inCall_true st Hinv)) as Hinv1.
  pose proof (marshalArgument_oids (VArray args) (set_inCall true st)) as Hoids.
  simpl in Hoids. unfold bind in Hoids.
  destruct (mapM _marshalArgument args (set_inCall true st))
    as [marshalled st1|e st1]; [|discriminate].
  simpl in Hm, Hq, Hinv1. injection Hcall as <- <-.
  exists marshalled, st1. split; [done|].
  split; [by apply (inv_buffer st Hinv)|].
  assert (wire st1 = wire st) as Hwire by by apply (rm_wire _ _ Hm).
  split; [|split].
  - unfold call_commit. simpl. by rewrite Hwire, (rm_callId _ _ Hm).
  - intros oid Hnone Hsome. by apply Hq.
  - intros oid Hin.
    destruct (Hoids _ _ eq_refl oid Hin) as [Hp|[stub Hs]]; [by left|right].
    destruct (inv_announced st1 Hinv1 oid stub Hs) as (m & Hobj & [Hw|Hb]);
      exists m; (split; [|done]); apply elem_of_app.
    + left. by rewrite <- Hwire.
    + right. apply list_elem_of_fmap. by exists m.
Qed.

(** A call with a proxy, a new stubbable object and a number: the one
    announcement is written before the call frame. *)
Lemma announcements_precede_call_witness :
  let st := run [OpData (MNewObject {| n_obj := "host-2:0:1";
                                       n_methods := ["getValue"] |})]
              (RpcSocket_new "host-1:0:"
                 [{| o_rpcId := None; o_rpcMethods := Some ["getValue"];
                     o_free := None |}]) in
  let args := [VObj 1; VObj 0; VNum 7] in
  let st' := final_state (call "host-2:0:0" "checkObject" args st) in
  call "host-2:0:0" "checkObject" args st = Ret (PromisePending 0) st' ∧
  wire st' =
    [MNewObject {| n_obj := "host-1:0:0"; n_methods := ["getValue"] |};
     MCall {| c_id := IdNum 0; c_obj := "host-2:0:0";
              c_method := "checkObject";
              c_params := VArray [VMarker "host-2:0:1";
                                  VMarker "host-1:0:0"; VNum 7] |}].
Proof.
  intros st args st'.
  assert (call "host-2:0:0" "checkObject" args st = Ret (PromisePending 0) st')
    as Hcall by (vm_compute; reflexivity).
  split; [exact Hcall|].
  destruct (announcements_precede_call st "host-2:0:0" "checkObject" args 0 st'
              (reachable_run _ _ (reachable_new _ _)) Hcall)
    as (marshalled & st1 & Hm & _ & Hwire & _).
  vm_compute in Hm. injection Hm as <- <-. exact Hwire.
Defined.

(** C1, as stated, fails when an argument is a proxy: its oid appears in the
    params of the call frame, and the frames the endpoint has written hold
    no new-object frame for it. *)
Lemma announcements_precede_call_counterexample :
  let st := run [OpData (MNewObject {| n_obj := "host-2:0:1";
                                       n_methods := ["getValue"] |});
                 OpCall "host-2:0:0" "checkObject" [VObj 0]]
              (RpcSocket_new "host-1:0:" []) in
  wire st = [MCall {| c_id := IdNum 0; c_obj := "host-2:0:0";
                      c_method := "checkObject";
                      c_params := VArray [VMarker "host-2:0:1"] |}] ∧
  ¬ params_introduced st.
Proof.
  intros st. split; [reflexivity|].
  intros H.
  destruct (H [] {| c_id := IdNum 0; c_obj := "host-2:0:0";
                    c_method := "checkObject";
                    c_params := VArray [VMarker "host-2:0:1"] |} []
              eq_refl "host-2:0:1") as (m & Hin & _).
  - simpl. by left.
  - by apply elem_of_nil in Hin.
Qed.

(** C2. Marshal/unmarshal round-trip (amended).  At an endpoint none of
    whose stubs has an oid that is also a key of the proxy registry, every
    value built from primitives, arrays, plain data objects, stubbable
    objects registered at the endpoint and proxies present in its proxy
    registry marshals without error, and unmarshalling the result at the
    same endpoint gives back the value: the same registered objects and the
    same proxies, in the same structure.  Primitives and plain data are
    marshalled to themselves and leave the endpoint untouched. *)
Theorem marshal_unmarshal_round_trip st v :
  reachable st → registries_disjoint st →
  round_trip_value st v = true →
  (∃ w st', _marshalArgument v st = Ret w st' ∧
            _unmarshalArgument w st' = Ret v st') ∧
  (plain_data st v = true → _marshalArgument v st = Ret v st).
Proof.
  intros Hst Hdisj Hok. split; [|apply marshal_plain_data].
  destruct (marshal_round_trips v st (reachable_inv st Hst) Hdisj Hok)
    as (w & st' & Hw & Hext & Hinv' & Hback).
  exists w, st'. split; [done|].
  apply Hback; [done | done | by eapply registries_disjoint_ext].
Qed.

(** The payload of the marshalling test: a proxy, a registered object whose
    oid was freed, an array of both with a number, a plain object and a
    string. *)
Lemma marshal_unmarshal_round_trip_witness :
  let st := run [OpAlloc {| o_rpcId := None; o_rpcMethods := None;
                            o_free := None |};
                 OpAddStub 0; OpFree 0;
                 OpData (MNewObject {| n_obj := "host-2:0:1";
                                       n_methods := ["get owner"; "getValue"] |})]
              (RpcSocket_new "host-1:0:"
                 [{| o_rpcId := None; o_rpcMethods := Some ["getValue"];
                     o_free := None |}]) in
  let v := VArray [VObj 2; VObj 0; VArray [VObj 2; VObj 0; VNum 7]; VObj 1;
                   VStr "72"] in
  ∃ w st', _marshalArgument v st = Ret w st' ∧
           _unmarshalArgument w st' = Ret v st'.
Proof.
  intros st v.
  refine (proj1 (marshal_unmarshal_round_trip st v
                   (reachable_run _ _ (reachable_new _ _)) _ eq_refl)).
  apply (bool_decide_unpack _). vm_compute. exact I.
Defined.

(** C2, as stated, fails at an endpoint where the peer has announced an oid
    that the endpoint has itself given to a stub: the proxy created for that
    announcement is in the proxy registry, and marshalling it and
    unmarshalling the result yields the stub's object. *)
Lemma marshal_unmarshal_round_trip_counterexample :
  let st := run [OpAddStub 0;
                 OpData (MNewObject {| n_obj := "host-1:0:0";
                                       n_methods := ["getValue"] |})]
              (RpcSocket_new "host-1:0:"
                 [{| o_rpcId := None; o_rpcMethods := Some ["getValue"];
                     o_free := None |}]) in
  round_trip_value st (VObj 1) = true ∧
  _marshalArgument (VObj 1) st = Ret (VMarker "host-1:0:0") st ∧
  _unmarshalArgument (VMarker "host-1:0:0") st = Ret (VObj 0) st.
Proof. intros st. repeat split; reflexivity. Qed.

(** C3. addStub idempotence and re-announce (amended).  For an object
    already registered at the endpoint: while its oid is in the id map,
    [addStub] returns that oid and changes nothing, so no announcement is
    sent; [$free] on the object takes the oid out of the id map; once the
    oid is out of the id map, [addStub] returns the same oid, puts it back in
    the id map and announces it again with a new-object message, which is
    written to the transport at once when [_inCall] is clear and appended
    to the queue when [_inCall] is set; and when the oid comes back into the
    id map while the arguments of a call are marshalled and the marshalling
    completes, that message is written to the transport before the frame of
    the call.  For an object
    not registered yet, with the counter below 2^53, the oid is the
    endpoint's name followed by the current value of the counter, which then
    advances by one; the oid differs from the oid of every object registered
    before, and from every oid allocated afterwards while the counter is
    below 2^53.  The counter never goes down. *)
Theorem addStub_idempotence st :
  reachable st →
  (∀ obj stub,
     _knownStubs st !! obj = Some stub →
     let id := stub_rpcId stub in
     let msg := {| n_obj := id; n_methods := stub_methods stub |} in
     (is_Some (_knownStubIds st !! id) → addStub obj st = Ret id st) ∧
     (_knownStubs (exec (OpFree obj) st) !! obj = Some stub ∧
      _knownStubIds (exec (OpFree obj) st) !! id = None) ∧
     (_knownStubIds st !! id = None →
        ∃ st', addStub obj st = Ret id st' ∧
               _knownStubIds st' = <[id := obj]> (_knownStubIds st) ∧
               if _inCall st
               then _newObjects st' = (_newObjects st ++ [msg])%list ∧
                    wire st' = wire st
               else wire st' = (wire st ++ [MNewObject msg])%list ∧
                    _newObjects st' = _newObjects st) ∧
     (_knownStubIds st !! id = None →
      ∀ obj' method args cid st',
        call obj' method args st = Ret (PromisePending cid) st' →
        is_Some (_knownStubIds st' !! id) →
        ∃ marshalled before after,
          wire st' =
            (wire st ++ (MNewObject <$> before) ++
             MNewObject msg :: (MNewObject <$> after) ++
             [MCall {| c_id := IdNum cid; c_obj := obj'; c_method := method;
                       c_params := VArray marshalled |}])%list)) ∧
  (∀ obj methods,
     _knownStubs st !! obj = None →
     rpcMethods_of (heap st) obj = Some methods →
     safe_counter (_stubCnt st) →
     let id := _socketId st +:+ pretty (_stubCnt st) in
     ∃ st', addStub obj st = Ret id st' ∧
            _stubCnt st' = S (_stubCnt st) ∧
            _knownStubIds st' !! id = Some obj ∧
            (∀ obj0 stub0,
               _knownStubs st !! obj0 = Some stub0 → stub_rpcId stub0 ≠ id) ∧
            (∀ ops obj2 id2 st2,
               safe_counter (_stubCnt (run ops st')) →
               _knownStubs (run ops st') !! obj2 = None →
               addStub obj2 (run ops st') = Ret id2 st2 → id2 ≠ id)) ∧
  (∀ ops, (_stubCnt st ≤ _stubCnt (run ops st))%nat).
Proof.
  intros Hst. pose proof (reachable_inv st Hst) as Hinv.
  split; [|split].
  - intros obj stub Hs id msg. split; [|split; [|split]].
    + intros [obj' Hid]. rewrite addStub_unfold, Hs. subst id. by rewrite Hid.
    + destruct (invoke_free_releases st obj stub Hinv Hs) as [Hstubs Hids].
      simpl. by rewrite Hstubs.
    + intros Hid. rewrite addStub_unfold, Hs. subst id msg. rewrite Hid.
      eexists. split; [done|]. unfold announce. simpl.
      by destruct (_inCall st).
    + intros Hid obj' method args cid st' Hcall Hlive.
      by apply (call_flushes_announcement st obj stub obj' method args cid st').
  - intros obj methods Hnone Hm _ id. rewrite addStub_unfold, Hnone, Hm.
    eexists. split; [done|].
    split; [|split; [|split]].
    + unfold announce, register. simpl. by destruct (_inCall st).
    + unfold announce, register. simpl.
      destruct (_inCall st); simpl; apply lookup_insert_eq.
    + intros obj0 stub0 Hs0.
      destruct (inv_alloc st Hinv obj0 stub0 Hs0) as (cnt & Hlt & ->).
      by apply fresh_id_ne.
    + intros ops obj2 id2 st2 _ Hnone2 Hadd2.
      set (st' := announce _ _) in *.
      assert (_stubCnt st' = S (_stubCnt st) ∧ _socketId st' = _socketId st)
        as [Hcnt Hsid].
      { subst st'. unfold announce, register. simpl. by destruct (_inCall st). }
      destruct (run_mono ops st') as (Hsid' & Hcnt' & _).
      rewrite addStub_unfold, Hnone2 in Hadd2.
      destruct (rpcMethods_of (heap (run ops st')) obj2); [|done].
      injection Hadd2 as <- _. subst id. rewrite Hsid', Hsid.
      intros Heq%String.app_inj%(inj pretty). lia.
  - intros ops. by destruct (run_mono ops st) as (_ & ? & _).
Qed.

(** An object registered, freed and registered again keeps its oid and is
    announced again. *)
Lemma addStub_idempotence_witness :
  let st := run [OpAddStub 0; OpFree 0]
              (RpcSocket_new "host-1:0:"
                 [{| o_rpcId := None; o_rpcMethods := Some ["getValue"];
                     o_free := None |}]) in
  ∃ st', addStub 0 st = Ret "host-1:0:0" st' ∧
         _knownStubIds st' = <["host-1:0:0" := 0]> (_knownStubIds st) ∧
         wire st' = (wire st ++
                     [MNewObject {| n_obj := "host-1:0:0";
                                    n_methods := ["getValue"] |}])%list.
Proof.
  intros st.
  destruct (addStub_idempotence st (reachable_run _ _ (reachable_new _ _)))
    as (Hregistered & _ & _).
  destruct (Hregistered 0 {| stub_rpcId := "host-1:0:0"; stub_object := 0;
                             stub_methods := ["getValue"] |} eq_refl)
    as (_ & _ & Hfreed & _).
  destruct (Hfreed eq_refl) as (st' & Hadd & Hids & Hwire & _).
  exists st'. exact (conj Hadd (conj Hids Hwire)).
Defined.

(** C3, as stated, fails on an endpoint whose [_inCall] flag was left set
    by a marshalling error: [addStub] on the freed object returns the oid and
    puts it back in the id map, but the new-object message stays in the
    queue; whatever happens next, the announcements written to the
    transport are the one of the first registration and no other. *)
Lemma addStub_idempotence_counterexample :
  let st := run [OpAddStub 0; OpFree 0;
                 OpCall "host-2:0:0" "checkObject" [VMarker "host-3:0:0"]]
              (RpcSocket_new "host-1:0:"
                 [{| o_rpcId := None; o_rpcMethods := Some ["getValue"];
                     o_free := None |}]) in
  let msg := {| n_obj := "host-1:0:0"; n_methods := ["getValue"] |} in
  wire st = [MNewObject msg] ∧
  _knownStubIds st !! "host-1:0:0" = None ∧
  ∃ st', addStub 0 st = Ret "host-1:0:0" st' ∧
         _knownStubIds st' !! "host-1:0:0" = Some 0 ∧
         ∀ ops, announcements (wire (run ops st')) = [msg].
Proof.
  intros st msg. split; [reflexivity|]. split; [reflexivity|].
  eexists. split; [reflexivity|]. split; [reflexivity|].
  intros ops.
  match goal with
  | |- announcements (wire (run ops ?st')) = _ =>
      destruct (stepwise_run R_wedged ops st' eq_refl) as [_ ->]
  end.
  reflexivity.
Qed.

(** C4. Closure cascade: the code does not do this when the transport ends
    and closes without an error.  With one call pending, after the end and
    close events the endpoint is closed, the call is still in the
    pending-call table and nothing has settled its promise; the same holds
    after the close event alone.  On the same endpoint the error handler
    does run the cascade, and a call made after the closure is rejected with
    the closed-endpoint error. *)
Theorem closure_leaves_calls_pending :
  let st := run [OpCall "host-2:0:0" "frobnicate" [VStr "x"]]
              (RpcSocket_new "host-1:0:" []) in
  let st' := run [OpEnd; OpClose false] st in
  _pendingCalls st !! 0 = Some 0 ∧
  _ended st' = true ∧
  _pendingCalls st' !! 0 = Some 0 ∧ settled st' = [] ∧
  ¬ cascade st st' ∧ ¬ cascade st (exec (OpClose false) st) ∧
  cascade st (exec (OpError (Error "read ECONNRESET")) st) ∧
  call "host-2:0:0" "frobnicate" [VStr "x"] st' =
    Ret (PromiseRejected SocketClosedError) st'.
Proof.
  intros st st'. split; [reflexivity|]. split; [reflexivity|].
  split; [reflexivity|]. split; [reflexivity|].
  split; [|split; [|split; [|reflexivity]]].
  - intros [Hempty _].
    apply (f_equal (λ m : gmap nat nat, m !! 0)) in Hempty.
    vm_compute in Hempty. discriminate.
  - intros [Hempty _].
    apply (f_equal (λ m : gmap nat nat, m !! 0)) in Hempty.
    vm_compute in Hempty. discriminate.
  - apply on_error_cascade, reachable_run, reachable_new.
Qed.

(** C5. Closed-endpoint call (amended): on an endpoint whose closed flag is
    set and whose [_inCall] flag is clear, [call] returns a promise rejected
    with the closed-endpoint error, whose code is ERR_SOCKET_CLOSED; the
    endpoint is left exactly as it was, so nothing is written to the
    transport and the pending-call table and the callId counter are
    unchanged. *)
Theorem call_on_closed_endpoint obj method args st :
  _ended st = true → _inCall st = false →
  call obj method args st = Ret (PromiseRejected SocketClosedError) st ∧
  e_code SocketClosedError = Some (CodeStr "ERR_SOCKET_CLOSED") ∧
  wire (final_state (call obj method args st)) = wire st ∧
  _pendingCalls (final_state (call obj method args st)) = _pendingCalls st ∧
  _callId (final_state (call obj method args st)) = _callId st.
Proof.
  intros Hended HinCall.
  rewrite (call_closed obj method args st HinCall Hended). by simpl.
Qed.

(** A call on an endpoint whose transport has closed. *)
Lemma call_on_closed_endpoint_witness :
  let st := exec (OpClose false) (RpcSocket_new "host-1:0:" []) in
  call "host-2:0:0" "frobnicate" [VStr "x"] st =
    Ret (PromiseRejected SocketClosedError) st.
Proof.
  intros st.
  exact (proj1 (call_on_closed_endpoint "host-2:0:0" "frobnicate" [VStr "x"] st
                  eq_refl eq_refl)).
Defined.

(** C5, as stated, fails on a closed endpoint whose [_inCall] flag was left
    set by a marshalling error: no marshalling is in progress, and [call]
    throws the re-entrancy TypeError instead of returning a rejected
    promise. *)
Lemma call_on_closed_endpoint_counterexample :
  let st := run [OpCall "host-2:0:0" "checkObject" [VMarker "host-3:0:0"];
                 OpClose false]
              (RpcSocket_new "host-1:0:" []) in
  _ended st = true ∧
  call "host-2:0:0" "frobnicate" [VStr "x"] st =
    Throw (TypeError "Re-entrant calls are not supported") st.
Proof. intros st. split; reflexivity. Qed.

(** C6. Re-entrancy rule: on an endpoint whose [_inCall] flag is set, [call]
    throws a TypeError synchronously: it returns no promise, and the endpoint
    (transport included) is left exactly as it was. *)
Theorem call_reentrancy_rule obj method args st :
  _inCall st = true →
  call obj method args st =
    Throw (TypeError "Re-entrant calls are not supported") st ∧
  e_name (TypeError "Re-entrant calls are not supported") = "TypeError" ∧
  final_state (call obj method args st) = st.
Proof.
  intros HinCall. rewrite (call_reentrant obj method args st HinCall). by simpl.
Qed.

(** A call on an endpoint that a marshalling error has left with [_inCall]
    set. *)
Lemma call_reentrancy_rule_witness :
  let st := run [OpCall "host-2:0:0" "checkObject" [VMarker "host-3:0:0"]]
              (RpcSocket_new "host-1:0:" []) in
  call "host-2:0:0" "frobnicate" [VStr "x"] st =
    Throw (TypeError "Re-entrant calls are not supported") st.
Proof.
  intros st.
  exact (proj1 (call_reentrancy_rule "host-2:0:0" "frobnicate" [VStr "x"] st
                  eq_refl)).
Defined.

(** C7. Invocation contract (amended).  For an inbound call on a live stub
    whose parameters unmarshal: a method 'get NAME' fails with the
    wrong-arity error unless it has no argument, and a method 'set NAME'
    unless it has exactly one; once the arity is right, 'get NAME' and
    'set NAME' are both authorised by 'get NAME' being in the snapshot and
    fail with the invalid-method error otherwise; any other method is
    authorised by its own name being in the snapshot, fails with the
    invalid-method error otherwise, and receives its arguments verbatim. *)
Theorem invocation_contract st msg target stub params args :
  _knownStubIds st !! c_obj msg = Some target →
  _knownStubs st !! target = Some stub →
  c_params msg = VArray params →
  mapM _unmarshalArgument params st = Ret args st →
  let method := c_method msg in
  let name := substr_4 method in
  let result := _handleCall_dispatch msg st in
  (substr_0_4 method = "get " →
     "get " +:+ name = method ∧
     (args ≠ [] →
        result = Throw (TypeError "Wrong number of arguments, expected 0") st) ∧
     (args = [] → method ∈ stub_methods stub →
        result = Ret (InvGet (stub_object stub) name) st) ∧
     (args = [] → method ∉ stub_methods stub →
        result = Throw (TypeError ("Invalid method " +:+ method)) st)) ∧
  (substr_0_4 method = "set " →
     (length args ≠ 1 →
        result = Throw (TypeError "Wrong number of arguments, expected 1") st) ∧
     (∀ v, args = [v] → "get " +:+ name ∈ stub_methods stub →
        result = Ret (InvSet (stub_object stub) name v) st) ∧
     (∀ v, args = [v] → "get " +:+ name ∉ stub_methods stub →
        result = Throw (TypeError ("Invalid method " +:+ ("get " +:+ name))) st)) ∧
  (substr_0_4 method ≠ "get " → substr_0_4 method ≠ "set " →
     (method ∈ stub_methods stub →
        result = Ret (InvCall (stub_object stub) method args) st) ∧
     (method ∉ stub_methods stub →
        result = Throw (TypeError ("Invalid method " +:+ method)) st)).
Proof.
  intros Hid Hstub Hparams Hargs method name result.
  subst result method name.
  unfold _handleCall_dispatch, bind, get_state.
  rewrite Hid, Hparams, Hargs, Hstub.
  unfold Stub.get, Stub.set, Stub.call, bind, ret, throw.
  split; [|split].
  - intros Hget. rewrite Hget. simpl.
    pose proof (get_name_split _ Hget) as Hname. rewrite Hname.
    split; [done|]. split; [|split].
    + by destruct args.
    + intros -> Hin. by rewrite validateCall_ok.
    + intros -> Hnotin. by rewrite validateCall_fail.
  - intros Hset. rewrite Hset. simpl. split; [|split].
    + by destruct args as [|v [|v' args]].
    + intros v -> Hin. by rewrite validateCall_ok.
    + intros v -> Hnotin. by rewrite validateCall_fail.
  - intros Hget%String.eqb_neq Hset%String.eqb_neq. rewrite Hget, Hset.
    split.
    + intros Hin. by rewrite validateCall_ok.
    + intros Hnotin. by rewrite validateCall_fail.
Qed.

(** 'set owner' with one argument on a stub that lists 'get owner'. *)
Lemma invocation_contract_witness :
  let st := run [OpAddStub 0]
              (RpcSocket_new "host-1:0:"
                 [{| o_rpcId := None;
                     o_rpcMethods := Some ["get owner"; "frobnicate"];
                     o_free := None |}]) in
  let msg := {| c_id := IdNum 7; c_obj := "host-1:0:0";
                c_method := "set owner"; c_params := VArray [VNum 2] |} in
  _handleCall_dispatch msg st = Ret (InvSet 0 "owner" (VNum 2)) st.
Proof.
  intros st msg.
  pose proof (invocation_contract st msg 0
                {| stub_rpcId := "host-1:0:0"; stub_object := 0;
                   stub_methods := ["get owner"; "frobnicate"] |}
                [VNum 2] [VNum 2] eq_refl eq_refl eq_refl eq_refl)
    as (_ & Hset & _).
  destruct (Hset eq_refl) as (_ & Hok & _).
  apply (Hok (VNum 2) eq_refl).
  change ("get owner" ∈ ["get owner"; "frobnicate"]). apply list_elem_of_here.
Defined.

(** C7, as stated, fails for a 'get NAME' that is not in the snapshot and
    comes with an argument: the call fails with the wrong-arity error, not
    with the invalid-method error. *)
Lemma invocation_contract_counterexample :
  let st := run [OpAddStub 0]
              (RpcSocket_new "host-1:0:"
                 [{| o_rpcId := None; o_rpcMethods := Some ["frobnicate"];
                     o_free := None |}]) in
  let msg := {| c_id := IdNum 7; c_obj := "host-1:0:0";
                c_method := "get owner"; c_params := VArray [VNum 1] |} in
  _handleCall_dispatch msg st =
    Throw (TypeError "Wrong number of arguments, expected 0") st ∧
  ¬ rejects_unlisted_method msg st.
Proof.
  intros st msg. split; [reflexivity|].
  intros H.
  destruct (H 0 {| stub_rpcId := "host-1:0:0"; stub_object := 0;
                   stub_methods := ["frobnicate"] |} eq_refl eq_refl)
    as (st' & Hthrow).
  - simpl. by intros Hin%list_elem_of_singleton.
  - vm_compute in Hthrow. discriminate.
Qed.

(** C8. Reply matching (amended).  A reply whose id matches a pending call
    removes the entry and settles the promise, once and for all: when the
    error field is a non-empty string the promise is rejected with a
    SyntaxError or a TypeError carrying the message field, or else with a
    generic error whose message is the error string, and the error takes the
    code field when it is defined and the stack field when it is non-empty;
    otherwise (no error field, or an empty one) the reply field is
    unmarshalled and resolves the promise, to undefined when it is absent,
    and a failure of the unmarshalling rejects the promise.  A reply whose id
    matches no pending call leaves the endpoint as it is. *)
Theorem reply_matching st msg :
  reachable st →
  (∀ id call,
     r_id msg = IdNum id → _pendingCalls st !! id = Some call →
     let st1 := set_pendingCalls (delete id (_pendingCalls st)) st in
     let s := reply_settlement msg st1 in
     _handleReply msg st = Ret () (settle call s st1) ∧
     (∀ ops, filter (λ p, p.1 = call) (settled (run ops (settle call s st1)))
               = [(call, s)]) ∧
     (truthy (r_error msg) = true →
        ∃ e, s = Rejected e ∧ classified msg e) ∧
     (truthy (r_error msg) = false → r_reply msg = VUndefined →
        s = Resolved VUndefined) ∧
     (truthy (r_error msg) = false → ∀ v st2,
        _unmarshalArgument (r_reply msg) st1 = Ret v st2 → s = Resolved v) ∧
     (truthy (r_error msg) = false → ∀ e st2,
        _unmarshalArgument (r_reply msg) st1 = Throw e st2 → s = Rejected e)) ∧
  ((∀ id, r_id msg = IdNum id → _pendingCalls st !! id = None) →
   _handleReply msg st = Ret () st).
Proof.
  intros Hst. split.
  - intros id call Hid Hp st1 s.
    assert (_handleReply msg st = Ret () (settle call s st1)) as Heq.
    { rewrite handleReply_unfold, Hid, Hp. done. }
    split; [exact Heq|]. split; [|split; [|split; [|split]]].
    + intros ops. apply settled_forever.
      * replace (settle call s st1) with (exec (OpData (MReply msg)) st).
        { by constructor. }
        simpl. by rewrite Heq.
      * unfold settle. simpl. apply elem_of_app. right. by left.
    + intros Htruthy. subst s. unfold reply_settlement. rewrite Htruthy.
      eexists. split; [done|].
      destruct (r_error msg) as [error|] eqn:Herr; [|done].
      by apply reply_error_classified.
    + intros Hfalsy Hreply. subst s. unfold reply_settlement.
      by rewrite Hfalsy, Hreply.
    + intros Hfalsy v st2 Hv. subst s. unfold reply_settlement.
      by rewrite Hfalsy, Hv.
    + intros Hfalsy e st2 He. subst s. unfold reply_settlement.
      by rewrite Hfalsy, He.
  - intros Hnone. rewrite handleReply_unfold.
    destruct (r_id msg) as [| |id]; try done.
    by rewrite (Hnone id eq_refl).
Qed.

(** The reply to a method that threw an error with a code. *)
Lemma reply_matching_witness :
  let st := run [OpCall "host-2:0:0" "withCode" []]
              (RpcSocket_new "host-1:0:" []) in
  let msg := {| r_id := IdNum 0; r_error := Some "my error message";
                r_message := None; r_stack := Some "Error: my error message";
                r_code := Some (CodeStr "E_FOO_BAR_ERROR");
                r_reply := VUndefined |} in
  settled (final_state (_handleReply msg st)) =
    [(0, Rejected {| e_name := "Error"; e_message := "my error message";
                     e_code := Some (CodeStr "E_FOO_BAR_ERROR");
                     e_stack := Some "Error: my error message";
                     e_objectId := None |})].
Proof.
  intros st msg.
  destruct (reply_matching st msg (reachable_run _ _ (reachable_new _ _)))
    as [Hmatch _].
  destruct (Hmatch 0 0 eq_refl eq_refl) as (Heq & _).
  rewrite Heq. reflexivity.
Defined.

(** C8, as stated, fails for a reply whose error field is present but
    empty, the frame the peer's [_handleCall] builds for a thrown value with
    no name and no message: the promise is resolved with the unmarshalled
    reply field. *)
Lemma reply_matching_counterexample :
  let st := run [OpCall "host-2:0:0" "frobnicate" []]
              (RpcSocket_new "host-1:0:" []) in
  let thrown := {| e_name := ""; e_message := ""; e_code := None;
                   e_stack := None; e_objectId := None |} in
  let msg := error_reply (IdNum 0) thrown in
  _pendingCalls st !! 0 = Some 0 ∧
  r_error msg = Some "" ∧
  settled (final_state (_handleReply msg st)) = [(0, Resolved VUndefined)].
Proof. intros st thrown msg. repeat split; reflexivity. Qed.

(** C9. Marshalling-error atomicity toward the wire: when marshalling the
    arguments of an outbound call throws, [call] throws that same error to
    its caller; the error is the invalid-object error (code ENXIO) for an
    oid absent from the proxy registry; no frame has been written, no callId
    has been consumed and the pending-call table is unchanged. *)
Theorem marshalling_error_atomicity obj method args st e st1 :
  _inCall st = false → _ended st = false →
  mapM _marshalArgument args (set_inCall true st) = Throw e st1 →
  call obj method args st = Throw e st1 ∧
  is_invalid_object st e ∧
  e_code e = Some (CodeStr "ENXIO") ∧
  wire st1 = wire st ∧
  _callId st1 = _callId st ∧
  _pendingCalls st1 = _pendingCalls st.
Proof.
  intros HinCall Hended Hthrow.
  pose proof (mapM_marshalArgument_marshal args (set_inCall true st)) as Hm.
  rewrite Hthrow in Hm. simpl in Hm.
  pose proof (mapM_marshalArgument_throws _ _ _ _ Hthrow) as Hinv.
  split; [by rewrite call_unfold, Hthrow by done|].
  split; [exact Hinv|].
  split; [by destruct Hinv as (rpcId & _ & ->)|].
  split; [by apply (rm_wire _ _ Hm)|].
  split; [apply (rm_callId _ _ Hm) | apply (rm_pendingCalls _ _ Hm)].
Qed.

(** The second argument carries an oid the proxy registry does not know;
    the announcement of the first stays in the queue. *)
Lemma marshalling_error_atomicity_witness :
  let st := RpcSocket_new "host-1:0:"
              [{| o_rpcId := None; o_rpcMethods := Some ["getValue"];
                  o_free := None |}] in
  ∃ st1,
    call "host-2:0:0" "checkObject" [VObj 0; VMarker "host-3:0:0"] st =
      Throw (InvalidObjectError "host-3:0:0"
               "Invalid object host-3:0:0, likely a proxy from a different socket")
            st1 ∧
    wire st1 = [] ∧ _callId st1 = 0 ∧ _pendingCalls st1 = ∅.
Proof.
  intros st. eexists.
  pose proof (marshalling_error_atomicity "host-2:0:0" "checkObject"
                [VObj 0; VMarker "host-3:0:0"] st _ _ eq_refl eq_refl eq_refl)
    as (Hcall & _ & _ & Hwire & Hid & Hpending).
  exact (conj Hcall (conj Hwire (conj Hid Hpending))).
Defined.

(** C10. When marshalling an argument of [call] throws, [_inCall] is left
    set; from then on, whatever happens to the endpoint, every [call], with
    any arguments, throws the re-entrancy TypeError, and the endpoint never
    writes a call frame again. *)
Theorem marshalling_error_wedges_endpoint obj method args st e st1 :
  _inCall st = false →
  call obj method args st = Throw e st1 →
  is_invalid_object st e ∧
  _inCall st1 = true ∧
  (∀ ops obj' method' args',
     call obj' method' args' (run ops st1) =
       Throw (TypeError "Re-entrant calls are not supported") (run ops st1)) ∧
  (∀ ops m, MCall m ∈ wire (run ops st1) → MCall m ∈ wire st).
Proof.
  intros HinCall Hcall.
  destruct (call_throw_inv _ _ _ _ _ _ HinCall Hcall) as [Hended Hthrow].
  pose proof (mapM_marshalArgument_marshal args (set_inCall true st)) as Hm.
  rewrite Hthrow in Hm. simpl in Hm.
  assert (_inCall st1 = true) as Hstuck by apply (rm_inCall _ _ Hm).
  split; [exact (mapM_marshalArgument_throws _ _ _ _ Hthrow)|].
  split; [exact Hstuck|]. split.
  - intros ops obj' method' args'.
    apply call_reentrant. by apply (run_stuck ops st1).
  - intros ops m Hin. destruct (run_stuck ops st1 Hstuck) as [_ Hwire].
    apply Hwire in Hin. by rewrite (rm_wire _ _ Hm eq_refl) in Hin.
Qed.

(** After a marshalling error, and the end of the transport, a call without
    arguments still throws. *)
Lemma marshalling_error_wedges_endpoint_witness :
  let st := RpcSocket_new "host-1:0:" [] in
  ∃ e st1,
    call "host-2:0:0" "checkObject" [VMarker "host-3:0:0"] st = Throw e st1 ∧
    call "host-2:0:0" "frobnicate" [] (run [OpEnd] st1) =
      Throw (TypeError "Re-entrant calls are not supported") (run [OpEnd] st1).
Proof.
  intros st. eexists _, _. split; [reflexivity|].
  exact (proj1 (proj2 (proj2 (marshalling_error_wedges_endpoint
                                "host-2:0:0" "checkObject"
                                [VMarker "host-3:0:0"] st _ _ eq_refl eq_refl)))
           [OpEnd] "host-2:0:0" "frobnicate" []).
Defined.

(** * Further properties of the code *)

(** X1. A call and its reply, end to end, for arguments and a result
    without object references.  On a reachable endpoint A whose [_inCall]
    flag is clear and that is not closed, [call] parks a resolver under the
    current call id and writes one frame, the call frame.  An endpoint B where the oid names
    a live stub that lists the method (neither a getter nor a setter)
    dispatches that frame to the stub's object with the same arguments and
    is left untouched up to there; when the target returns, B writes one
    reply frame with the same id.  On that frame A resolves the promise with
    the value returned, writes nothing, and its pending-call table is again
    what it was before the call. *)
Theorem call_reply_round_trip A B obj method args target stub reply :
  reachable A → _inCall A = false → _ended A = false →
  forallb prim_data args = true → prim_data reply = true →
  _knownStubIds B !! obj = Some target →
  _knownStubs B !! target = Some stub →
  method ∈ stub_methods stub →
  substr_0_4 method ≠ "get " → substr_0_4 method ≠ "set " →
  let id := _callId A in
  let request := {| c_id := IdNum id; c_obj := obj; c_method := method;
                    c_params := VArray args |} in
  let answer := {| r_id := IdNum id; r_error := None; r_message := None;
                   r_stack := None; r_code := None; r_reply := reply |} in
  ∃ A1 A2,
    call obj method args A = Ret (PromisePending id) A1 ∧
    wire A1 = (wire A ++ [MCall request])%list ∧
    _pendingCalls A1 !! id = Some id ∧
    _handleCall request B =
      Ret (Awaiting (IdNum id) (InvCall (stub_object stub) method args)) B ∧
    _handleCall_resume (IdNum id) (Returned reply) B =
      Ret () (set_wire (wire B ++ [MReply answer]) B) ∧
    _handleMessage (MReply answer) A1 = Ret () A2 ∧
    settled A2 = (settled A ++ [(id, Resolved reply)])%list ∧
    _pendingCalls A2 = _pendingCalls A ∧
    wire A2 = wire A1.
Proof.
  intros HA HinCall Hended Hargs Hreply Hid Hstub Hin Hget Hset id request answer.
  pose proof (reachable_inv A HA) as Hinv.
  eexists _, _. split.
  { rewrite call_unfold by done. by rewrite mapM_marshal_prim. }
  unfold call_commit. simpl.
  rewrite (inv_buffer A Hinv HinCall). simpl.
  split; [done|]. split; [by rewrite lookup_insert_eq|]. split.
  { apply handleCall_awaiting; [done|].
    by apply (dispatch_method B request target stub args args);
      [| | | apply mapM_unmarshal_prim | | |]. }
  split.
  { unfold _handleCall_resume, try_catch, _handleCall_reply, bind.
    by rewrite marshal_prim. }
  split.
  { simpl. rewrite handleReply_unfold. simpl. rewrite lookup_insert_eq.
    reflexivity. }
  unfold settle, reply_settlement. simpl.
  rewrite unmarshal_prim by done.
  split; [done|]. split; [|done].
  rewrite delete_insert_id; [done|]. by apply callId_not_pending.
Qed.

(** The basic test: [frobnicate('x')] answered with 42. *)
Lemma call_reply_round_trip_witness :
  let A := RpcSocket_new "host-1:0:" [] in
  let B := run [OpAddStub 0]
             (RpcSocket_new "host-2:0:"
                [{| o_rpcId := None; o_rpcMethods := Some ["frobnicate"];
                    o_free := None |}]) in
  let request := {| c_id := IdNum 0; c_obj := "host-2:0:0";
                    c_method := "frobnicate"; c_params := VArray [VStr "x"] |} in
  let answer := {| r_id := IdNum 0; r_error := None; r_message := None;
                   r_stack := None; r_code := None; r_reply := VNum 42 |} in
  ∃ A1 A2,
    call "host-2:0:0" "frobnicate" [VStr "x"] A = Ret (PromisePending 0) A1 ∧
    _handleCall request B =
      Ret (Awaiting (IdNum 0) (InvCall 0 "frobnicate" [VStr "x"])) B ∧
    _handleMessage (MReply answer) A1 = Ret () A2 ∧
    settled A2 = [(0, Resolved (VNum 42))].
Proof.
  intros A B request answer.
  destruct (call_reply_round_trip A B "host-2:0:0" "frobnicate" [VStr "x"] 0
              {| stub_rpcId := "host-2:0:0"; stub_object := 0;
                 stub_methods := ["frobnicate"] |} (VNum 42)
              (reachable_new _ _) eq_refl eq_refl eq_refl eq_refl
              eq_refl eq_refl (list_elem_of_here _ _)
              ltac:(discriminate) ltac:(discriminate))
    as (A1 & A2 & Hcall & _ & _ & Hdispatch & _ & Hreply & Hsettled & _).
  exists A1, A2. exact (conj Hcall (conj Hdispatch (conj Hreply Hsettled))).
Defined.

(** X2. Passing a stubbable object.  When a reachable endpoint A, whose
    [_inCall] flag is clear and that is not closed, calls with an argument
    that is a stubbable object it has not registered yet, it allocates the next oid for it and
    writes the announcement of that oid and then the call frame, whose
    parameter is the literal [{$rpcId: oid}].  An endpoint B that knows the
    oid neither as a stub nor as a proxy and handles the two frames in that
    order creates a proxy for the oid (the list of methods taking no name
    of a member of the proxy) and dispatches the call with that proxy as the
    argument. *)
Theorem stub_argument_becomes_proxy A B obj method o ob methods target stub :
  reachable A → _inCall A = false → _ended A = false →
  heap A !! o = Some ob → o_rpcId ob = None → o_rpcMethods ob = Some methods →
  _knownStubs A !! o = None →
  keeps_members methods = true →
  let oid := _socketId A +:+ pretty (_stubCnt A) in
  _knownStubIds B !! oid = None → _knownProxies B !! oid = None →
  _knownStubIds B !! obj = Some target →
  _knownStubs B !! target = Some stub →
  method ∈ stub_methods stub →
  substr_0_4 method ≠ "get " → substr_0_4 method ≠ "set " →
  let id := _callId A in
  let announcement := {| n_obj := oid; n_methods := methods |} in
  let request := {| c_id := IdNum id; c_obj := obj; c_method := method;
                    c_params := VArray [VMarker oid] |} in
  let proxy := length (heap B) in
  ∃ A1 B1,
    call obj method [VObj o] A = Ret (PromisePending id) A1 ∧
    wire A1 = (wire A ++ [MNewObject announcement; MCall request])%list ∧
    _knownStubIds A1 !! oid = Some o ∧
    _handleMessage (MNewObject announcement) B = Ret () B1 ∧
    heap B1 = (heap B ++ [{| o_rpcId := Some oid; o_rpcMethods := None;
                             o_free := Some (FreeProxy oid) |}])%list ∧
    getProxy oid B1 = Some proxy ∧
    _handleCall request B1 =
      Ret (Awaiting (IdNum id) (InvCall (stub_object stub) method [VObj proxy])) B1.
Proof.
  intros HA HinCall Hended Ho Hid Hm Hnew _ oid HBids HBproxies Htarget Hstub
    Hin Hget Hset id announcement request proxy.
  pose proof (reachable_inv A HA) as Hinv.
  assert (rpcMethods_of (heap A) o = Some methods) as Hmethods.
  { unfold rpcMethods_of. rewrite Ho. done. }
  eexists _, _. split.
  { rewrite call_unfold by done. simpl. unfold bind, get_state. simpl.
    rewrite Ho. simpl. rewrite Hid. simpl. rewrite Hmethods.
    rewrite addStub_unfold. simpl. rewrite Hnew, Hmethods. simpl.
    reflexivity. }
  split.
  { unfold call_commit, announce, register. simpl.
    rewrite (inv_buffer A Hinv HinCall). reflexivity. }
  split.
  { unfold call_commit, announce, register. simpl. by rewrite lookup_insert_eq. }
  split; [by apply handleMessage_new_object|].
  split; [done|].
  split; [unfold getProxy; simpl; by rewrite lookup_insert_eq|].
  set (B1 := set_knownProxies _ _).
  apply handleCall_awaiting; [done|].
  apply (dispatch_method B1 request target stub [VMarker oid] [VObj proxy]);
    try done.
  simpl. unfold bind, get_state. simpl. rewrite HBids.
  by rewrite lookup_insert_eq.
Qed.

(** A call whose argument is a new stubbable object. *)
Lemma stub_argument_becomes_proxy_witness :
  let A := RpcSocket_new "host-1:0:"
             [{| o_rpcId := None; o_rpcMethods := Some ["getValue"];
                 o_free := None |}] in
  let B := run [OpAddStub 0]
             (RpcSocket_new "host-2:0:"
                [{| o_rpcId := None; o_rpcMethods := Some ["checkObject"];
                    o_free := None |}]) in
  let request := {| c_id := IdNum 0; c_obj := "host-2:0:0";
                    c_method := "checkObject";
                    c_params := VArray [VMarker "host-1:0:0"] |} in
  ∃ A1 B1,
    call "host-2:0:0" "checkObject" [VObj 0] A = Ret (PromisePending 0) A1 ∧
    wire A1 = [MNewObject {| n_obj := "host-1:0:0"; n_methods := ["getValue"] |};
               MCall request] ∧
    _handleCall request B1 =
      Ret (Awaiting (IdNum 0) (InvCall 0 "checkObject" [VObj 1])) B1.
Proof.
  intros A B request.
  destruct (stub_argument_becomes_proxy A B "host-2:0:0" "checkObject" 0
              {| o_rpcId := None; o_rpcMethods := Some ["getValue"];
                 o_free := None |} ["getValue"] 0
              {| stub_rpcId := "host-2:0:0"; stub_object := 0;
                 stub_methods := ["checkObject"] |}
              (reachable_new _ _) eq_refl eq_refl eq_refl eq_refl eq_refl
              eq_refl eq_refl eq_refl eq_refl eq_refl eq_refl
              (list_elem_of_here _ _) ltac:(discriminate) ltac:(discriminate))
    as (A1 & B1 & Hcall & Hwire & _ & _ & _ & _ & Hdispatch).
  exists A1, B1. exact (conj Hcall (conj Hwire Hdispatch)).
Defined.

(** X3. An error thrown by the target reaches the caller.  When the
    target of a call with a numeric id throws an error that has a name or a
    message, an endpoint B that is not closed writes one reply frame; on any
    frame with the id, error, message, code and reply fields of that frame
    (whatever its stack), an endpoint A where the id is pending removes the
    entry and rejects the promise, with an error that has no objectId and
    whose name, message and code are: those of a SyntaxError or TypeError,
    name and message kept and code dropped; for another error with a
    message, the name Error, the message and the code; an error whose
    message is the string SyntaxError or TypeError arrives as an error of
    that name with an empty message; an error with a name and no message
    arrives as an Error whose message is the name. *)
Theorem thrown_error_rejects_caller A B id call e :
  _ended B = false →
  _pendingCalls A !! id = Some call →
  e_name e ≠ "" ∨ e_message e ≠ "" →
  let A1 := set_pendingCalls (delete id (_pendingCalls A)) A in
  (∃ answer,
     reply_fields answer = reply_fields (error_reply (IdNum id) e) ∧
     _handleCall_resume (IdNum id) (Thrown e) B =
       Ret () (set_wire (wire B ++ [MReply answer]) B)) ∧
  ∀ answer,
    reply_fields answer = reply_fields (error_reply (IdNum id) e) →
    ∃ e',
      _handleMessage (MReply answer) A = Ret () (settle call (Rejected e') A1) ∧
      e_objectId e' = None ∧
      (e_name e = "SyntaxError" ∨ e_name e = "TypeError" →
         e_name e' = e_name e ∧ e_message e' = e_message e ∧ e_code e' = None) ∧
      (e_name e ≠ "SyntaxError" → e_name e ≠ "TypeError" →
       e_message e ≠ "" →
       e_message e ≠ "SyntaxError" → e_message e ≠ "TypeError" →
         e_name e' = "Error" ∧ e_message e' = e_message e ∧
         e_code e' = e_code e) ∧
      (e_name e ≠ "SyntaxError" → e_name e ≠ "TypeError" →
       e_message e = "SyntaxError" ∨ e_message e = "TypeError" →
         e_name e' = e_message e ∧ e_message e' = "" ∧ e_code e' = e_code e) ∧
      (e_name e ≠ "SyntaxError" → e_name e ≠ "TypeError" →
       e_message e = "" →
         e_name e' = "Error" ∧ e_message e' = e_name e ∧ e_code e' = None).
Proof.
  intros Hended Hp Hsome A1. split.
  { eexists. split; [done|]. by apply handleCall_resume_thrown. }
  intros answer Hfields. unfold reply_fields in Hfields.
  injection Hfields as Hid Herr Hmsg Hcode _.
  rewrite error_reply_id in Hid. rewrite error_reply_error in Herr.
  set (error := if String.eqb (e_name e) "SyntaxError" then "SyntaxError"
                else if String.eqb (e_name e) "TypeError" then "TypeError"
                else if String.eqb (e_message e) "" then error_to_string e
                else e_message e) in Herr.
  assert (error ≠ "") as Hne.
  { subst error. unfold error_to_string.
    destruct (String.eqb (e_name e) "SyntaxError"); [done|].
    destruct (String.eqb (e_name e) "TypeError"); [done|].
    destruct (String.eqb_spec (e_message e) "") as [Hm|Hm]; [|done].
    destruct Hsome as [Hn|Hn]; [|done]. by rewrite (eqb_false_ne _ _ Hn). }
  exists (reply_error answer error). split.
  { simpl. rewrite handleReply_unfold, Hid, Hp. simpl.
    unfold reply_settlement. rewrite Herr. simpl.
    by rewrite (eqb_false_ne _ _ Hne). }
  destruct (reply_error_fields answer error) as (-> & -> & -> & ->).
  rewrite Hmsg, Hcode. clear Herr Hmsg Hcode Hid.
  unfold error_reply, error_to_string in *.
  split; [done|]. split; [|split; [|split]].
  - intros [Hn|Hn]; subst error; rewrite Hn; by simpl.
  - intros Hs Ht Hm Hms Hmt. subst error.
    rewrite (eqb_false_ne _ _ Hs), (eqb_false_ne _ _ Ht),
      (eqb_false_ne _ _ Hm), (eqb_false_ne _ _ Hms), (eqb_false_ne _ _ Hmt).
    by simpl.
  - intros Hs Ht Hm.
    assert (e_message e ≠ "") as Hne' by (destruct Hm as [-> | ->]; done).
    subst error.
    rewrite (eqb_false_ne _ _ Hs), (eqb_false_ne _ _ Ht),
      (eqb_false_ne _ _ Hne').
    destruct Hm as [Hm|Hm]; rewrite Hm; by simpl.
  - intros Hs Ht Hm. subst error.
    rewrite (eqb_false_ne _ _ Hs), (eqb_false_ne _ _ Ht), Hm. simpl.
    destruct (String.eqb_spec (e_name e) "") as [Hn|Hn].
    + destruct Hsome; done.
    + by rewrite (eqb_false_ne _ _ Hs), (eqb_false_ne _ _ Ht).
Qed.

(** The error with a code of the error test. *)
Lemma thrown_error_rejects_caller_witness :
  let A := run [OpCall "host-2:0:0" "withCode" []]
             (RpcSocket_new "host-1:0:" []) in
  let B := RpcSocket_new "host-2:0:" [] in
  let e := {| e_name := "Error"; e_message := "my error message";
              e_code := Some (CodeStr "E_FOO_BAR_ERROR"); e_stack := None;
              e_objectId := None |} in
  ∃ e', settled (final_state (_handleMessage (MReply (error_reply (IdNum 0) e)) A))
          = [(0, Rejected e')] ∧
        e_name e' = "Error" ∧ e_message e' = "my error message" ∧
        e_code e' = Some (CodeStr "E_FOO_BAR_ERROR").
Proof.
  intros A B e.
  assert (e_name e ≠ "" ∨ e_message e ≠ "") as Hsome by (left; discriminate).
  destruct (thrown_error_rejects_caller A B 0 0 e eq_refl eq_refl Hsome)
    as [_ Hreceive].
  destruct (Hreceive (error_reply (IdNum 0) e) eq_refl)
    as (e' & Hreply & _ & _ & Hother & _).
  exists e'. split.
  { rewrite Hreply. reflexivity. }
  apply Hother; discriminate.
Defined.




(** X6. A call on a released stub.  On a reachable endpoint that is not
    closed, once the oid of a registered object has been released, by
    [$free] on the object or by a free frame from the peer, the oid is out of
    the id map, and an inbound call on it with a numeric id is answered with
    one reply frame whose error is the invalid-object message and whose code
    is ENXIO; nothing else changes. *)
Theorem released_stub_rejects_calls st obj stub n method params :
  reachable st → _ended st = false →
  _knownStubs st !! obj = Some stub →
  let id := stub_rpcId stub in
  let msg := {| c_id := IdNum n; c_obj := id; c_method := method;
                c_params := params |} in
  ∀ st1,
    st1 = exec (OpFree obj) st ∨ st1 = exec (OpData (MFree {| f_id := id |})) st →
    _knownStubIds st1 !! id = None ∧
    ∃ answer,
      _handleCall msg st1 =
        Ret Failed (set_wire (wire st1 ++ [MReply answer]) st1) ∧
      reply_fields answer =
        (IdNum n, Some ("Invalid object 0x" +:+ id), None,
         Some (CodeStr "ENXIO"), VUndefined).
Proof.
  intros Hst Hended Hs id msg st1 Hst1.
  pose proof (reachable_inv st Hst) as Hinv.
  assert (_knownStubIds st1 !! id = None ∧ _ended st1 = false) as [Hnone Hopen].
  { destruct Hst1 as [-> | ->].
    - split; [by apply (invoke_free_releases st obj stub Hinv Hs)|].
      simpl. by rewrite invoke_free_ended.
    - simpl. rewrite handleFree_unfold. simpl.
      destruct (_knownStubIds st !! id) eqn:Hid; simpl.
      + split; [apply lookup_delete_eq | done].
      + done. }
  split; [done|]. eexists.
  split; [by apply (handleCall_unknown_object st1 msg n)|].
  reflexivity.
Qed.

(** A call that arrives after the peer freed the stub. *)
Lemma released_stub_rejects_calls_witness :
  let st := run [OpAddStub 0]
              (RpcSocket_new "host-1:0:"
                 [{| o_rpcId := None; o_rpcMethods := Some ["getValue"];
                     o_free := None |}]) in
  let st1 := exec (OpData (MFree {| f_id := "host-1:0:0" |})) st in
  let msg := {| c_id := IdNum 3; c_obj := "host-1:0:0"; c_method := "getValue";
                c_params := VArray [] |} in
  ∃ answer,
    _handleCall msg st1 = Ret Failed (set_wire (wire st1 ++ [MReply answer]) st1) ∧
    r_code answer = Some (CodeStr "ENXIO").
Proof.
  intros st st1 msg.
  destruct (released_stub_rejects_calls st 0
              {| stub_rpcId := "host-1:0:0"; stub_object := 0;
                 stub_methods := ["getValue"] |} 3 "getValue" (VArray [])
              (reachable_run _ _ (reachable_new _ _)) eq_refl eq_refl
              st1 (or_intror eq_refl))
    as (_ & answer & Hcall & Hfields).
  exists answer. split; [exact Hcall|].
  unfold reply_fields in Hfields. by injection Hfields as _ _ _ -> _.
Defined.

(** X7. Handling a new-object frame.  When the proxy registry has the
    oid, the frame changes nothing.  Otherwise the endpoint allocates a new
    object, leaves the objects of the heap as they are, records the new
    object as the proxy of the oid, and touches neither the transport, nor
    the id map, nor the proxies of other oids; the literal [{$rpcId: oid}]
    unmarshals to the new proxy unless the id map has the oid; and when the
    listed methods take no name of a member of the proxy, the proxy carries
    the oid as [$rpcId] and the prototype's [$free], and marshals to
    [{$rpcId: oid}].  A further new-object frame for the oid changes
    nothing, whatever methods it lists. *)
Theorem new_object_creates_proxy st m :
  let id := n_obj m in
  let proxy := length (heap st) in
  let st' := exec (OpData (MNewObject m)) st in
  (is_Some (getProxy id st) → st' = st) ∧
  (getProxy id st = None →
     getProxy id st' = Some proxy ∧
     heap st !! proxy = None ∧
     (∀ r o, heap st !! r = Some o → heap st' !! r = Some o) ∧
     wire st' = wire st ∧
     _knownStubIds st' = _knownStubIds st ∧
     (∀ id', id' ≠ id → getProxy id' st' = getProxy id' st) ∧
     (_knownStubIds st !! id = None →
        _unmarshalArgument (VMarker id) st' = Ret (VObj proxy) st') ∧
     (keeps_members (n_methods m) = true →
        heap st' !! proxy = Some {| o_rpcId := Some id; o_rpcMethods := None;
                                    o_free := Some (FreeProxy id) |} ∧
        _marshalArgument (VObj proxy) st' = Ret (VMarker id) st')) ∧
  (∀ m', n_obj m' = id → exec (OpData (MNewObject m')) st' = st').
Proof.
  intros id proxy st'. unfold getProxy.
  assert (is_Some (_knownProxies st' !! id)) as [p' Hp'].
  { subst st'. rewrite exec_new_object. fold id.
    destruct (_knownProxies st !! id) as [p|] eqn:Hp.
    - by eexists.
    - simpl. rewrite lookup_insert_eq. by eexists. }
  split; [|split].
  - intros [p Hp]. subst st'. rewrite exec_new_object. fold id.
    by rewrite Hp.
  - intros Hp. subst st'. rewrite exec_new_object. fold id. rewrite Hp.
    set (st2 := set_knownProxies _ _).
    assert (_knownProxies st2 !! id = Some proxy) as Hp2
      by (subst st2; simpl; apply lookup_insert_eq).
    assert (heap st2 !! proxy =
              Some {| o_rpcId := Some id; o_rpcMethods := None;
                      o_free := Some (FreeProxy id) |}) as Ho
      by (subst st2; simpl; by apply list_lookup_middle).
    split; [done|]. split; [by apply lookup_ge_None_2|].
    split; [intros r o Hr; subst st2; simpl; by apply lookup_app_l_Some|].
    split; [done|]. split; [done|].
    split; [intros id' Hne; subst st2; simpl; by rewrite lookup_insert_ne|].
    split; [intros Hs; by apply unmarshal_marker_proxy|].
    intros _. split; [done|].
    rewrite (marshal_proxy st2 proxy _ id Ho eq_refl). by rewrite Hp2.
  - intros m' Hm'. rewrite exec_new_object, Hm'. by rewrite Hp'.
Qed.



(** X9. A stub freed by the peer and passed again.  On a reachable
    endpoint, a free frame for the live oid of a registered object removes
    the oid from the id map and changes nothing else; [addStub] on the
    object then returns the same oid, restores the id map, the stub map and
    the heap being unchanged, and announces the oid again: on the transport
    when [_inCall] is clear, in the queue when it is set. *)
Theorem peer_free_then_resurrect st obj stub :
  reachable st →
  _knownStubs st !! obj = Some stub →
  let id := stub_rpcId stub in
  is_Some (_knownStubIds st !! id) →
  let st1 := exec (OpData (MFree {| f_id := id |})) st in
  let msg := {| n_obj := id; n_methods := stub_methods stub |} in
  st1 = set_knownStubIds (delete id (_knownStubIds st)) st ∧
  ∃ st2,
    addStub obj st1 = Ret id st2 ∧
    _knownStubIds st2 = _knownStubIds st ∧
    _knownStubs st2 = _knownStubs st ∧
    heap st2 = heap st ∧
    if _inCall st
    then _newObjects st2 = (_newObjects st ++ [msg])%list ∧ wire st2 = wire st
    else wire st2 = (wire st ++ [MNewObject msg])%list ∧
         _newObjects st2 = _newObjects st.
Proof.
  intros Hst Hs id [obj' Hid] st1 msg.
  pose proof (reachable_inv st Hst) as Hinv.
  assert (obj' = obj) as ->.
  { destruct (inv_ids st Hinv _ _ Hid) as (stub' & Hs' & Heq).
    by apply (inv_inj st Hinv obj' obj stub' stub). }
  assert (st1 = set_knownStubIds (delete id (_knownStubIds st)) st) as Hst1.
  { subst st1. simpl. rewrite handleFree_unfold. simpl. by rewrite Hid. }
  split; [done|]. rewrite Hst1, addStub_unfold. simpl. rewrite Hs.
  fold id. rewrite lookup_delete_eq.
  eexists. split; [done|]. unfold announce. simpl.
  rewrite insert_delete_id by done.
  by destruct (_inCall st).
Qed.

(** The peer frees a stub that is then passed again. *)
Lemma peer_free_then_resurrect_witness :
  let st := run [OpAddStub 0]
              (RpcSocket_new "host-1:0:"
                 [{| o_rpcId := None; o_rpcMethods := Some ["getValue"];
                     o_free := None |}]) in
  let st1 := exec (OpData (MFree {| f_id := "host-1:0:0" |})) st in
  let msg := {| n_obj := "host-1:0:0"; n_methods := ["getValue"] |} in
  ∃ st2, addStub 0 st1 = Ret "host-1:0:0" st2 ∧
         wire st2 = [MNewObject msg; MNewObject msg].
Proof.
  intros st st1 msg.
  destruct (peer_free_then_resurrect st 0
              {| stub_rpcId := "host-1:0:0"; stub_object := 0;
                 stub_methods := ["getValue"] |}
              (reachable_run _ _ (reachable_new _ _)) eq_refl
              (ex_intro _ 0 eq_refl))
    as (_ & st2 & Hadd & _ & _ & _ & Hwire & _).
  exists st2. exact (conj Hadd Hwire).
Defined.

(** X10. A closed endpoint.  Once the closed flag is set, whatever happens
    to the endpoint, the flag stays set; the only frames written are
    announcements and replies without error, so no call frame, no free frame
    and no error reply; and every [call] leaves the endpoint as it is,
    returning a promise rejected with the closed-endpoint error or, when
    [_inCall] is set, throwing the re-entrancy TypeError. *)
Theorem closed_endpoint_stays_closed st ops :
  _ended st = true →
  let st' := run ops st in
  _ended st' = true ∧
  (∀ msg, msg ∈ wire st' → msg ∈ wire st ∨ quiet_frame msg = true) ∧
  (∀ obj method args,
     call obj method args st' = Ret (PromiseRejected SocketClosedError) st' ∨
     call obj method args st' =
       Throw (TypeError "Re-entrant calls are not supported") st').
Proof.
  intros Hended st'.
  destruct (stepwise_run R_closed ops st Hended) as [Hended' Hwire].
  split; [done|]. split; [done|].
  intros obj method args. destruct (_inCall st') eqn:HinCall.
  - right. by apply call_reentrant.
  - left. by apply call_closed.
Qed.

(** A closed endpoint that is asked to free a proxy and to call. *)
Lemma closed_endpoint_stays_closed_witness :
  let st := run [OpClose false] (RpcSocket_new "host-1:0:" []) in
  let st' := run [OpFreeProxy "host-2:0:1";
                  OpCall "host-2:0:0" "frobnicate" [VStr "x"]] st in
  _ended st' = true ∧ wire st' = [].
Proof.
  intros st st'.
  destruct (closed_endpoint_stays_closed st
              [OpFreeProxy "host-2:0:1";
               OpCall "host-2:0:0" "frobnicate" [VStr "x"]] eq_refl)
    as (Hended & _ & _).
  split; [exact Hended | reflexivity].
Defined.

(** X11. The promises of outbound calls.  In every reachable state no
    resolver has been invoked twice; a promise that has been settled belongs
    to a past call and is no longer pending; a pending entry holds the
    resolver of its own id, a past call.  A [call] that returns a pending
    promise uses the current value of the counter as its id, advances the
    counter by one, adds that one entry to the pending-call table and
    settles nothing, so the new promise is unsettled; and every later call
    gets a larger id. *)
Theorem promises_settle_at_most_once st :
  reachable st →
  NoDup (settled st).*1 ∧
  (∀ call, call ∈ (settled st).*1 →
     (call < _callId st)%nat ∧ _pendingCalls st !! call = None) ∧
  (∀ id call, _pendingCalls st !! id = Some call →
     call = id ∧ (id < _callId st)%nat) ∧
  (∀ obj method args id st',
     call obj method args st = Ret (PromisePending id) st' →
     id = _callId st ∧ _callId st' = S id ∧
     _pendingCalls st' = <[id := id]> (_pendingCalls st) ∧
     settled st' = settled st ∧ (id ∉ (settled st').*1) ∧
     ∀ ops obj' method' args' id' st'',
       call obj' method' args' (run ops st') = Ret (PromisePending id') st'' →
       (id < id')%nat).
Proof.
  intros Hst. pose proof (reachable_inv st Hst) as Hinv.
  split; [apply (inv_settled_once st Hinv)|]. split; [|split].
  - intros call Hin. split; [by apply (inv_settled st Hinv)|].
    destruct (_pendingCalls st !! call) as [c|] eqn:Hp; [|done].
    by destruct (inv_pending st Hinv call c Hp) as (_ & _ & ?).
  - intros id call Hp.
    by destruct (inv_pending st Hinv id call Hp) as (? & ? & _).
  - intros obj method args id st' Hcall.
    destruct (call_pending_inv _ _ _ _ _ _ Hcall) as [HinCall Hended].
    rewrite call_unfold in Hcall by done.
    pose proof (mapM_marshalArgument_marshal args (set_inCall true st)) as Hm.
    destruct (mapM _marshalArgument args (set_inCall true st))
      as [marshalled st1|e st1]; [|discriminate].
    simpl in Hm. injection Hcall as <- <-.
    assert (_callId st1 = _callId st) as Hid by apply (rm_callId _ _ Hm).
    split; [done|]. unfold call_commit. simpl.
    split; [done|]. split; [by rewrite (rm_pendingCalls _ _ Hm)|].
    split; [apply (rm_settled _ _ Hm)|]. split.
    + rewrite (rm_settled _ _ Hm). simpl. intros Hin%(inv_settled st Hinv). lia.
    + intros ops obj' method' args' id' st'' Hcall'.
      set (st' := set_wire _ _) in *.
      destruct (call_pending_inv _ _ _ _ _ _ Hcall') as [HinCall' Hended'].
      rewrite call_unfold in Hcall' by done.
      pose proof (mapM_marshalArgument_marshal args'
                    (set_inCall true (run ops st'))) as Hm'.
      destruct (mapM _marshalArgument args' (set_inCall true (run ops st')))
        as [marshalled' st1'|e st1']; [|discriminate].
      simpl in Hm'. injection Hcall' as <- _.
      rewrite (rm_callId _ _ Hm'). simpl.
      destruct (run_mono ops st') as (_ & _ & Hle). simpl in Hle. lia.
Qed.

(** Two calls, the first of them answered. *)
Lemma promises_settle_at_most_once_witness :
  let st := run [OpCall "host-2:0:0" "frobnicate" [];
                 OpCall "host-2:0:0" "getValue" [];
                 OpData (MReply {| r_id := IdNum 0; r_error := None;
                                   r_message := None; r_stack := None;
                                   r_code := None; r_reply := VNum 42 |})]
              (RpcSocket_new "host-1:0:" []) in
  NoDup (settled st).*1 ∧ _pendingCalls st !! 0 = None.
Proof.
  intros st.
  destruct (promises_settle_at_most_once st
              (reachable_run _ _ (reachable_new _ _)))
    as (Hnodup & Hsettled & _).
  split; [exact Hnodup|].
  apply (Hsettled 0). apply list_elem_of_here.
Defined.

(** X12. Marshalling as a substitution.  When [_marshalArgument] returns,
    the result is the argument in which every object that has an oid in the
    final state (its own [$rpcId], or the oid of its stub for a stubbable
    object) is replaced by the literal [{$rpcId: oid}]; the objects that
    remain in the result have neither an oid nor [$rpcMethods]; and every
    oid of the result is in the proxy registry or in the id map. *)
Theorem marshal_is_substitution arg st w st' :
  _marshalArgument arg st = Ret w st' →
  w = to_wire st' arg ∧
  (∀ r, r ∈ refs w → oid_of st' r = None ∧ rpcMethods_of (heap st') r = None) ∧
  (∀ id, id ∈ oids w →
     is_Some (_knownProxies st' !! id) ∨ is_Some (_knownStubIds st' !! id)).
Proof.
  intros Hw.
  destruct (marshal_to_wire arg st w st' Hw st') as [Heq Hrefs]; [reflexivity|].
  split; [done|]. split; [done|].
  intros id Hin. pose proof (marshalArgument_marshal arg st) as Hm.
  rewrite Hw in Hm. simpl in Hm. rewrite (rm_knownProxies _ _ Hm).
  by apply (marshalArgument_oids arg st w st' Hw).
Qed.

(** The payload of the marshalling test. *)
Lemma marshal_is_substitution_witness :
  let st := run [OpData (MNewObject {| n_obj := "host-2:0:1";
                                       n_methods := ["getValue"] |})]
              (RpcSocket_new "host-1:0:"
                 [{| o_rpcId := None; o_rpcMethods := Some ["getValue"];
                     o_free := None |};
                  {| o_rpcId := None; o_rpcMethods := None; o_free := None |}]) in
  let arg := VArray [VObj 2; VObj 0; VObj 1; VStr "72"] in
  let w := VArray [VMarker "host-2:0:1"; VMarker "host-1:0:0"; VObj 1;
                   VStr "72"] in
  w = to_wire (final_state (_marshalArgument arg st)) arg.
Proof.
  intros st arg w.
  assert (_marshalArgument arg st = Ret w (final_state (_marshalArgument arg st)))
    as Hw by (vm_compute; reflexivity).
  exact (proj1 (marshal_is_substitution arg st w _ Hw)).
Defined.

(** X13. Unmarshalling as a substitution.  [_unmarshalArgument] never
    changes the endpoint.  It returns exactly when each oid the value refers
    to is known to the id map or to the proxy registry, and the result is
    then the value in which each oid stands for its object, the stub's
    object when both registries know the oid; no literal [{$rpcId: oid}]
    remains.  Otherwise it throws the TypeError of an oid of the value
    that neither registry knows. *)
Theorem unmarshal_is_substitution arg st :
  final_state (_unmarshalArgument arg st) = st ∧
  (_unmarshalArgument arg st = Ret (from_wire st arg) st ↔
   ∀ id, id ∈ rpc_ids (heap st) arg → is_Some (resolve_oid st id)) ∧
  (∀ v st', _unmarshalArgument arg st = Ret v st' →
     v = from_wire st arg ∧ oids v = []) ∧
  (∀ e st', _unmarshalArgument arg st = Throw e st' →
     ∃ id, id ∈ rpc_ids (heap st) arg ∧
           _knownStubIds st !! id = None ∧ _knownProxies st !! id = None ∧
           e = TypeError ("Invalid object " +:+ id)).
Proof.
  pose proof (unmarshal_from_wire arg st) as H.
  split; [apply unmarshalArgument_state|]. split; [|split].
  - destruct (_unmarshalArgument arg st) as [v st'|e st'].
    + destruct H as (-> & -> & _ & Hk). done.
    + destruct H as (-> & id & Hin & Hnone & ->). split; [done|].
      intros Hk. destruct (Hk id Hin) as [r Hr]. congruence.
  - intros v st' Heq. rewrite Heq in H. by destruct H as (_ & -> & ? & _).
  - intros e st' Heq. rewrite Heq in H.
    destruct H as (_ & id & Hin & [Hs Hp]%resolve_oid_None & ->). eauto.
Qed.

(** X14. Announcements and the reply frame.  On a reachable endpoint whose
    [_inCall] flag is clear, when the target of a call with a numeric id
    returns, the frames written while the result is marshalled are
    announcements; if the marshalling succeeds, the reply frame follows
    them, with the id and the marshalled result, and every oid of the result
    is in the proxy registry or is announced on the transport before the
    reply frame; if the marshalling throws, one error reply with the fields
    of the frame built for the error follows, unless the endpoint is
    closed. *)
Theorem announcements_precede_reply st n reply :
  reachable st → _inCall st = false →
  let st1 := final_state (_marshalArgument reply st) in
  let resumed := _handleCall_resume (IdNum n) (Returned reply) st in
  (∃ announcements,
     wire st1 = (wire st ++ (MNewObject <$> announcements))%list) ∧
  match _marshalArgument reply st with
  | Ret w _ =>
      resumed =
        Ret () (set_wire
                  (wire st1 ++
                   [MReply {| r_id := IdNum n; r_error := None;
                              r_message := None; r_stack := None;
                              r_code := None; r_reply := w |}]) st1) ∧
      ∀ oid, oid ∈ oids w →
             is_Some (_knownProxies st !! oid) ∨ announced_on (wire st1) oid
  | Throw e _ =>
      ∃ answer,
        reply_fields answer = reply_fields (error_reply (IdNum n) e) ∧
        resumed =
          Ret () (if _ended st then st1
                  else set_wire (wire st1 ++ [MReply answer]) st1)
  end.
Proof.
  intros Hst HinCall st1 resumed. pose proof (reachable_inv st Hst) as Hinv.
  destruct (marshalArgument_direct reply st HinCall) as (HinCall1 & _ & Hwire).
  pose proof (marshalArgument_inv reply st Hinv) as Hinv1.
  pose proof (marshalArgument_marshal reply st) as Hm.
  pose proof (marshalArgument_oids reply st) as Hoids.
  fold st1 in HinCall1, Hwire, Hinv1, Hm.
  split; [exact Hwire|].
  subst resumed.
  unfold _handleCall_resume, try_catch, _handleCall_reply, bind.
  destruct (_marshalArgument reply st) as [w st1'|e st1']; simpl in st1;
    subst st1.
  - split; [done|]. intros oid Hin.
    destruct (Hoids _ _ eq_refl oid Hin) as [Hp|[stub Hs]]; [by left|right].
    destruct (inv_announced _ Hinv1 oid stub Hs) as (m & Hobj & [Hw|Hq]).
    + by exists m.
    + rewrite (inv_buffer _ Hinv1 HinCall1) in Hq. by apply elem_of_nil in Hq.
  - exists (error_reply (IdNum n) e). split; [done|].
    unfold _handleCall_catch, bind, get_state.
    rewrite (rm_ended _ _ Hm). by destruct (_ended st).
Qed.

(** A reply that carries a new stubbable object. *)
Lemma announcements_precede_reply_witness :
  let st := RpcSocket_new "host-2:0:"
              [{| o_rpcId := None; o_rpcMethods := Some ["getValue"];
                  o_free := None |}] in
  wire (final_state (_handleCall_resume (IdNum 4) (Returned (VObj 0)) st)) =
    [MNewObject {| n_obj := "host-2:0:0"; n_methods := ["getValue"] |};
     MReply {| r_id := IdNum 4; r_error := None; r_message := None;
               r_stack := None; r_code := None;
               r_reply := VMarker "host-2:0:0" |}].
Proof.
  intros st.
  destruct (announcements_precede_reply st 4 (VObj 0) (reachable_new _ _)
              eq_refl) as [_ Hresume].
  simpl in Hresume. destruct Hresume as [-> _]. reflexivity.
Defined.

(** X15. The properties of a proxy.  The property of a given name is the
    accessor of the last listed method with that property name (the name
    without the prefix for a getter, the method itself otherwise), or the
    field of that name when no listed method has it.  So every listed
    method has an accessor under its property name, that of a listed method
    of the same property name; the request an accessor issues names a listed
    method of its own property name, without arguments for a getter and
    with the arguments given otherwise; and the proxy keeps its [$rpcId]
    exactly when no listed method has the property name [$rpcId]. *)
Theorem proxy_accessors_name_listed_methods id methods :
  let this := RpcProxy_properties id methods in
  (∀ key,
     this !! key =
       match last (filter (λ method, accessor_key method = key) methods) with
       | Some method => Some (accessor_of method)
       | None => proxy_fields id !! key
       end) ∧
  (∀ method, method ∈ methods →
     ∃ method', method' ∈ methods ∧
                accessor_key method' = accessor_key method ∧
                this !! accessor_key method = Some (accessor_of method')) ∧
  (∀ key p args method params,
     this !! key = Some p →
     accessor_request p args = Some (method, params) →
     method ∈ methods ∧ accessor_key method = key ∧
     params = (if String.eqb (substr_0_4 method) "get " then [] else args)) ∧
  (this !! "$rpcId" = Some (PropRpcId id) ↔
   ∀ method, method ∈ methods → accessor_key method ≠ "$rpcId").
Proof.
  intros this.
  pose proof (proxy_property_cases id methods) as Hcases. fold this in Hcases.
  split; [apply RpcProxy_properties_lookup|]. split; [|split].
  - intros method Hin. subst this. rewrite RpcProxy_properties_lookup.
    destruct (last (filter _ methods)) as [method'|] eqn:Hlast.
    + destruct (last_filter_elem _ _ _ Hlast) as [Hin' Hkey'].
      by exists method'.
    + apply last_None in Hlast.
      assert (method ∈ filter (λ m, accessor_key m = accessor_key method) methods)
        as Hin' by by apply list_elem_of_filter.
      rewrite Hlast in Hin'. by apply elem_of_nil in Hin'.
  - intros key p args method params Hp Hreq.
    destruct (Hcases key p Hp) as [(method' & Hin & Hkey & ->)|[Hf _]].
    + rewrite accessor_of_request in Hreq. unfold accessor_key in Hkey.
      destruct (String.eqb (substr_0_4 method') "get ") eqn:Hget;
        injection Hreq as <- <-; unfold accessor_key; by rewrite Hget.
    + by rewrite (proxy_fields_request _ _ _ args Hf) in Hreq.
  - split.
    + intros Hp. destruct (Hcases _ _ Hp) as [(method' & _ & _ & Hacc)|[_ ?]];
        [|done].
      unfold accessor_of in Hacc. by destruct (String.eqb _ _).
    + intros Hfree. subst this. rewrite RpcProxy_properties_lookup.
      destruct (last (filter _ methods)) as [method|] eqn:Hlast; [|done].
      destruct (last_filter_elem _ _ _ Hlast) as [Hin Hkey].
      by destruct (Hfree method Hin).
Qed.

(** X16. Announcements are truthful.  On a reachable endpoint every
    new-object frame on the transport describes a registered object: its oid
    is the oid of the object's stub, built from the endpoint's name and a
    past value of the counter, and its methods are the methods of the stub,
    which are the [$rpcMethods] of the object. *)
Theorem announcements_describe_stubs st m :
  reachable st →
  MNewObject m ∈ wire st →
  ∃ obj stub cnt,
    _knownStubs st !! obj = Some stub ∧
    stub_object stub = obj ∧
    stub_rpcId stub = n_obj m ∧
    stub_methods stub = n_methods m ∧
    rpcMethods_of (heap st) obj = Some (n_methods m) ∧
    n_obj m = _socketId st +:+ pretty cnt ∧ (cnt < _stubCnt st)%nat.
Proof.
  intros Hst Hin.
  destruct (announced_stub st m Hst (or_introl Hin))
    as (obj & stub & Hs & Hobj & Hid & Hm & Hheap).
  destruct (inv_alloc st (reachable_inv st Hst) obj stub Hs) as (cnt & Hlt & Hrpc).
  exists obj, stub, cnt. by rewrite <- Hid.
Qed.

(** The announcement of a registered object. *)
Lemma announcements_describe_stubs_witness :
  let st := run [OpAddStub 0]
              (RpcSocket_new "host-1:0:"
                 [{| o_rpcId := None; o_rpcMethods := Some ["getValue"];
                     o_free := None |}]) in
  let m := {| n_obj := "host-1:0:0"; n_methods := ["getValue"] |} in
  ∃ obj stub cnt,
    _knownStubs st !! obj = Some stub ∧ stub_object stub = obj ∧
    stub_rpcId stub = n_obj m ∧ stub_methods stub = n_methods m ∧
    rpcMethods_of (heap st) obj = Some (n_methods m) ∧
    n_obj m = _socketId st +:+ pretty cnt ∧ (cnt < _stubCnt st)%nat.
Proof.
  intros st m.
  exact (announcements_describe_stubs st m
           (reachable_run _ _ (reachable_new _ _)) (list_elem_of_here _ _)).
Defined.

(** X17. An object keeps its oid.  Once an object is registered,
    whatever happens to the endpoint, its stub stays in the stub map
    unchanged, and [addStub] on the object returns the same oid. *)
Theorem stub_record_is_permanent st obj stub ops :
  _knownStubs st !! obj = Some stub →
  _knownStubs (run ops st) !! obj = Some stub ∧
  ∃ st', addStub obj (run ops st) = Ret (stub_rpcId stub) st'.
Proof.
  intros Hs.
  assert (_knownStubs (run ops st) !! obj = Some stub) as Hs'.
  { apply (lookup_weaken _ _ _ _ Hs), (grow_stubs _ _ (stepwise_run R_grow ops st)). }
  split; [done|]. rewrite addStub_unfold, Hs'.
  destruct (_knownStubIds (run ops st) !! stub_rpcId stub); by eexists.
Qed.

(** A stub whose oid is freed by the application and by the peer. *)
Lemma stub_record_is_permanent_witness :
  let st := run [OpAddStub 0]
              (RpcSocket_new "host-1:0:"
                 [{| o_rpcId := None; o_rpcMethods := Some ["getValue"];
                     o_free := None |}]) in
  let ops := [OpFree 0; OpData (MFree {| f_id := "host-1:0:0" |}); OpClose true] in
  ∃ st', addStub 0 (run ops st) = Ret "host-1:0:0" st'.
Proof.
  intros st ops.
  exact (proj2 (stub_record_is_permanent st 0
                  {| stub_rpcId := "host-1:0:0"; stub_object := 0;
                     stub_methods := ["getValue"] |} ops eq_refl)).
Defined.

(** X18. What the engine writes to an object.  Whatever happens to the
    endpoint, an object of the heap stays on the heap with the same
    [$rpcId] and [$rpcMethods], and its [$free] is either what it was or,
    when the object was not registered and now is, the closure of
    [make$free] for the oid of its stub, around the [$free] it had. *)
Theorem engine_only_wraps_free st ops r o :
  heap st !! r = Some o →
  ∃ o', heap (run ops st) !! r = Some o' ∧
        o_rpcId o' = o_rpcId o ∧ o_rpcMethods o' = o_rpcMethods o ∧
        (o_free o' = o_free o ∨
         (_knownStubs st !! r = None ∧
          ∃ stub, _knownStubs (run ops st) !! r = Some stub ∧
                  o_free o' = Some (FreeStub (stub_rpcId stub) (o_free o)))).
Proof. intros Ho. by apply (grow_heap _ _ (stepwise_run R_grow ops st)). Qed.

(** An object with a [$free] of its own, registered and then freed. *)
Lemma engine_only_wraps_free_witness :
  let o := {| o_rpcId := None; o_rpcMethods := Some ["getValue"];
              o_free := Some FreeNative |} in
  let st := RpcSocket_new "host-1:0:" [o] in
  ∃ o', heap (run [OpAddStub 0; OpFree 0; OpAddStub 0] st) !! 0 = Some o' ∧
        o_rpcMethods o' = Some ["getValue"].
Proof.
  intros o st.
  destruct (engine_only_wraps_free st [OpAddStub 0; OpFree 0; OpAddStub 0] 0 o
              eq_refl) as (o' & Ho' & _ & Hm & _).
  exists o'. exact (conj Ho' Hm).
Defined.



(** X20. A reply delivered twice.  After a reply frame with a numeric id
    has been handled, the id is not pending, and a further reply frame with
    that id changes nothing. *)
Theorem duplicate_reply_is_ignored st msg msg' id :
  r_id msg = IdNum id → r_id msg' = IdNum id →
  let st1 := exec (OpData (MReply msg)) st in
  _pendingCalls st1 !! id = None ∧
  exec (OpData (MReply msg')) st1 = st1.
Proof.
  intros Hid Hid' st1.
  assert (_pendingCalls st1 !! id = None) as Hnone.
  { subst st1. unfold exec, _handleMessage. rewrite handleReply_unfold, Hid.
    simpl. destruct (_pendingCalls st !! id) eqn:Hp; simpl; [|done].
    apply lookup_delete_eq. }
  split; [done|].
  unfold exec, _handleMessage. rewrite handleReply_unfold, Hid'. simpl.
  by rewrite Hnone.
Qed.

(** A reply delivered twice. *)
Lemma duplicate_reply_is_ignored_witness :
  let st := run [OpCall "host-2:0:0" "frobnicate" []]
              (RpcSocket_new "host-1:0:" []) in
  let msg := {| r_id := IdNum 0; r_error := None; r_message := None;
                r_stack := None; r_code := None; r_reply := VNum 42 |} in
  settled (run [OpData (MReply msg); OpData (MReply msg)] st) =
    [(0, Resolved (VNum 42))].
Proof.
  intros st msg.
  destruct (duplicate_reply_is_ignored st msg msg 0 eq_refl eq_refl)
    as [_ Hsame].
  simpl. simpl in Hsame. rewrite Hsame. reflexivity.
Defined.

(** X21. The cascade of a transport error.  On a reachable endpoint, when
    the transport reports an error, every call pending at that moment is
    rejected with the closed-endpoint error, whose code is
    ERR_SOCKET_CLOSED, and the pending-call table is emptied; each of those
    promises has then been settled exactly once, and nothing that happens
    later settles it again.  The error is re-emitted; the closed flag and
    the transport are left as they were. *)
Theorem transport_error_rejects_pending_calls st err :
  reachable st →
  let st' := exec (OpError err) st in
  cascade st st' ∧
  (∀ id call ops,
     _pendingCalls st !! id = Some call → rejected_once call (run ops st')) ∧
  e_code SocketClosedError = Some (CodeStr "ERR_SOCKET_CLOSED") ∧
  emitted st' = (emitted st ++ [EvError err])%list ∧
  _ended st' = _ended st ∧ wire st' = wire st.
Proof.
  intros Hst st'. split; [by apply on_error_cascade|].
  split; [intros id call ops Hp; by apply (on_error_rejects_forever st err id)|].
  subst st'. simpl. rewrite on_error_unfold. by simpl.
Qed.

(** One pending call, then a transport error. *)
Lemma transport_error_rejects_pending_calls_witness :
  let st := run [OpCall "host-2:0:0" "frobnicate" [VStr "x"]]
              (RpcSocket_new "host-1:0:" []) in
  _pendingCalls st !! 0 = Some 0 ∧
  cascade st (exec (OpError (Error "read ECONNRESET")) st).
Proof.
  intros st. split; [reflexivity|].
  exact (proj1 (transport_error_rejects_pending_calls st
                  (Error "read ECONNRESET")
                  (reachable_run _ _ (reachable_new _ _)))).
Defined.
